(** * youtubeDownloader: format selection, name sanitising and the
      bounded-parallel playlist orchestrator of [main.go].

    The Go program is embedded shallowly:
    - a Go [string] is its sequence of bytes ([list ascii]); [len] and
      slicing count bytes, as in Go;
    - a [*youtube.Format] pointing into [video.Formats] is the index of the
      element it points to, [nil] is [None];
    - a run-time panic is an explicit result ([Panic]);
    - the goroutines of [DownloadPlaylist] are an interleaving step relation
      over the shared variables (semaphore channel, wait group,
      [failedDownloads], standard output); the unsynchronised append of
      [failedDownloads] is also given at the level of the three machine
      words of the slice ([SliceRace]). *)

From Stdlib Require Import ZArith Lia Bool Ascii String Arith List.
From Stdlib Require Import Permutation.
Import ListNotations.

Local Open Scope Z_scope.

(** ** Go strings *)

Module GoString.

Definition gostring : Type := list ascii.

(** A string literal of the source. *)
Definition str (s : String.string) : gostring := list_ascii_of_string s.

(** [s[i]] read as an unsigned 8-bit number. *)
Definition b2z (c : ascii) : Z := Z.of_N (N_of_ascii c).

(** [len(s)]. *)
Definition len (s : gostring) : Z := Z.of_nat (length s).

(** [s[i]] as a number; the callers below index within bounds. *)
Definition idx (s : gostring) (i : Z) : Z := b2z (nth (Z.to_nat i) s zero).

(** [s[a:b]]. *)
Definition slice (s : gostring) (a b : Z) : gostring :=
  firstn (Z.to_nat (b - a)) (skipn (Z.to_nat a) s).

(** [a == b] on strings. *)
Fixpoint streq (a b : gostring) : bool :=
  match a, b with
  | [], [] => true
  | x :: a', y :: b' => Ascii.eqb x y && streq a' b'
  | _, _ => false
  end.

(** [strings.HasPrefix]:
    [len(s) >= len(prefix) && s[:len(prefix)] == prefix]. *)
Definition HasPrefix (s prefix : gostring) : bool :=
  (length prefix <=? length s)%nat && streq (firstn (length prefix) s) prefix.

(** [strings.Contains(s, substr)]: [substr] occurs at some offset of [s]. *)
Fixpoint Contains (s substr : gostring) : bool :=
  HasPrefix s substr ||
  match s with
  | [] => false
  | _ :: s' => Contains s' substr
  end.

End GoString.

Import GoString.

(** ** Results of code that may panic *)

Inductive outcome (A : Type) : Type :=
| Ret (a : A)
| Panic (msg : String.string).
Arguments Ret {A} a.
Arguments Panic {A} msg.

(** ** The data of [main.go] *)

(** The fields of [youtube.Format] that the program reads. *)
Record Format : Type := mkFormat {
  MimeType : gostring;
  Quality : gostring;
  AudioChannels : Z
}.

(** The fields of [youtube.Video] that the program reads. *)
Record Video : Type := mkVideo {
  VideoTitle : gostring;
  Formats : list Format
}.

Record DownloadConfig : Type := mkConfig {
  OutputDir : gostring;
  DownloadType : gostring;
  MaxQuality : gostring;
  Parallel : Z
}.

(** ** Format selection *)

Module Selector.

Definition isAudio (f : Format) : bool := HasPrefix (MimeType f) (str "audio/").
Definition isVideo (f : Format) : bool := HasPrefix (MimeType f) (str "video/").
Definition hasAudio (f : Format) : bool := 0 <? AudioChannels f.
Definition isTiny (f : Format) : bool := streq (Quality f) (str "tiny").

(** [for i := range formats { if cond(formats[i]) { return &formats[i] } }],
    with [i] the index of the head of [fs] in [video.Formats]. *)
Fixpoint scanFirst (cond : Format -> bool) (fs : list Format) (i : nat)
  : option nat :=
  match fs with
  | [] => None
  | f :: fs' => if cond f then Some i else scanFirst cond fs' (S i)
  end.

(** [selectBestAudioFormat]: the audio-only pass, then the pass over any
    format with audio channels, then [nil]. *)
Definition selectBestAudioFormat (video : Video) : option nat :=
  match scanFirst isAudio (Formats video) 0 with
  | Some i => Some i
  | None =>
      match scanFirst hasAudio (Formats video) 0 with
      | Some i => Some i
      | None => None
      end
  end.

(** The loop of [selectBestVideoFormat]; [bestFormat] is the loop-carried
    pointer. *)
Fixpoint videoLoop (fs : list Format) (i : nat) (bestFormat : option nat)
  : option nat :=
  match fs with
  | [] => bestFormat
  | format :: fs' =>
      let bestFormat' :=
        if isVideo format then
          if match bestFormat with None => true | Some _ => false end
             || negb (isTiny format)
          then Some i
          else bestFormat
        else bestFormat in
      videoLoop fs' (S i) bestFormat'
  end.

Definition selectBestVideoFormat (video : Video) : option nat :=
  videoLoop (Formats video) 0 None.

(** [selectFormat]: the [default] branch takes [&video.Formats[0]], which
    panics with an index error on an empty slice. *)
Definition selectFormat (config : DownloadConfig) (video : Video)
  : outcome (option nat) :=
  if streq (DownloadType config) (str "audio") then
    Ret (selectBestAudioFormat video)
  else if streq (DownloadType config) (str "video") then
    Ret (selectBestVideoFormat video)
  else
    match Formats video with
    | [] => Panic "index out of range [0] with length 0"
    | _ :: _ => Ret (Some 0%nat)
    end.

(** The descriptor a returned pointer designates. *)
Definition deref (video : Video) (p : option nat) : option Format :=
  match p with
  | None => None
  | Some i => nth_error (Formats video) i
  end.

(** [i] is the first index of [fs] whose descriptor satisfies [cond]. *)
Definition firstAt (cond : Format -> bool) (fs : list Format) (i : nat) : Prop :=
  (exists f, nth_error fs i = Some f /\ cond f = true) /\
  forall j g, (j < i)%nat -> nth_error fs j = Some g -> cond g = false.

(** [i] is the last index of [fs] whose descriptor satisfies [cond]. *)
Definition lastAt (cond : Format -> bool) (fs : list Format) (i : nat) : Prop :=
  (exists f, nth_error fs i = Some f /\ cond f = true) /\
  forall j g, (i < j)%nat -> nth_error fs j = Some g -> cond g = false.

(** No descriptor of [fs] satisfies [cond]. *)
Definition noneOf (cond : Format -> bool) (fs : list Format) : Prop :=
  forall g, In g fs -> cond g = false.

(** A video descriptor whose quality label is not ["tiny"]. *)
Definition goodVideo (f : Format) : bool := isVideo f && negb (isTiny f).

Definition cfgOf (downloadType : gostring) : DownloadConfig :=
  mkConfig (str "./downloads") downloadType [] 3.

Definition vid (fs : list Format) : Video := mkVideo [] fs.

Definition fmt (mime quality : String.string) (channels : Z) : Format :=
  mkFormat (str mime) (str quality) channels.

(** The claim about the fall-back of the video mode, as the specification
    words it: a ["tiny"] descriptor is returned only if it is the only video
    descriptor of the sequence. *)
Definition tinyOnlyWhenSole (fs : list Format) : Prop :=
  forall i f,
    selectFormat (cfgOf (str "video")) (vid fs) = Ret (Some i) ->
    nth_error fs i = Some f -> isTiny f = true ->
    forall j g, nth_error fs j = Some g -> isVideo g = true -> j = i.

(** The claim of totality, as the specification words it: on this sequence
    and with this download type [selectFormat] returns normally, with a
    descriptor or [nil]. *)
Definition returnsNormally (downloadType : gostring) (fs : list Format) : Prop :=
  exists p, selectFormat (cfgOf downloadType) (vid fs) = Ret p.

End Selector.

(** ** The standard-library functions the sanitiser calls

    [unicode/utf8], [unicode] and [strings] are Go's standard library, not
    code of the repository; they are transcribed here from their Go sources
    so that [strings.TrimSpace] keeps its behaviour on multi-byte and on
    malformed UTF-8 input. *)

Module Utf8.

Definition RuneError : Z := 0xFFFD.
Definition RuneSelf : Z := 0x80.
Definition UTFMax : Z := 4.

Definition maskx : Z := 0x3F.
Definition mask2 : Z := 0x1F.
Definition mask3 : Z := 0x0F.
Definition mask4 : Z := 0x07.

Definition locb : Z := 0x80.
Definition hicb : Z := 0xBF.

Definition xx : Z := 0xF1.
Definition as_ : Z := 0xF0.
Definition s1 : Z := 0x02.
Definition s2 : Z := 0x13.
Definition s3 : Z := 0x03.
Definition s4 : Z := 0x23.
Definition s5 : Z := 0x34.
Definition s6 : Z := 0x04.
Definition s7 : Z := 0x44.

(** The table [first], row by row. *)
Definition first (b : Z) : Z :=
  if b <? 0x80 then as_
  else if b <? 0xC2 then xx
  else if b <? 0xE0 then s1
  else if b =? 0xE0 then s2
  else if b <? 0xED then s3
  else if b =? 0xED then s4
  else if b <? 0xF0 then s3
  else if b =? 0xF0 then s5
  else if b <? 0xF4 then s6
  else if b =? 0xF4 then s7
  else xx.

Record acceptRange : Type := mkRange { lo : Z; hi : Z }.

Definition acceptRanges (i : Z) : acceptRange :=
  if i =? 0 then mkRange locb hicb
  else if i =? 1 then mkRange 0xA0 hicb
  else if i =? 2 then mkRange locb 0x9F
  else if i =? 3 then mkRange 0x90 hicb
  else if i =? 4 then mkRange locb 0x8F
  else mkRange 0 0.

(** [utf8.DecodeRuneInString]: the rune at the start of [s] and its width in
    bytes; [(RuneError, 1)] on a malformed encoding. *)
Definition DecodeRuneInString (s : gostring) : Z * Z :=
  let n := len s in
  if n <? 1 then (RuneError, 0) else
  let s0 := idx s 0 in
  let x := first s0 in
  if as_ <=? x then ((if x =? xx then RuneError else s0), 1) else
  let sz := Z.land x 7 in
  let accept := acceptRanges (Z.shiftr x 4) in
  if n <? sz then (RuneError, 1) else
  let b1 := idx s 1 in
  if (b1 <? lo accept) || (hi accept <? b1) then (RuneError, 1) else
  if sz <=? 2 then
    (Z.lor (Z.shiftl (Z.land s0 mask2) 6) (Z.land b1 maskx), 2) else
  let b2 := idx s 2 in
  if (b2 <? locb) || (hicb <? b2) then (RuneError, 1) else
  if sz <=? 3 then
    (Z.lor (Z.lor (Z.shiftl (Z.land s0 mask3) 12) (Z.shiftl (Z.land b1 maskx) 6))
           (Z.land b2 maskx), 3) else
  let b3 := idx s 3 in
  if (b3 <? locb) || (hicb <? b3) then (RuneError, 1) else
  (Z.lor (Z.lor (Z.lor (Z.shiftl (Z.land s0 mask4) 18)
                       (Z.shiftl (Z.land b1 maskx) 12))
                (Z.shiftl (Z.land b2 maskx) 6))
         (Z.land b3 maskx), 4).

(** [utf8.RuneStart]: [b&0xC0 != 0x80]. *)
Definition RuneStart (b : Z) : bool := negb (Z.land b 0xC0 =? 0x80).

(** [for start--; start >= lim; start-- { if RuneStart(s[start]) { break } }],
    entered with [start] already decremented. *)
Fixpoint backScan (fuel : nat) (s : gostring) (start lim : Z) : Z :=
  match fuel with
  | O => start
  | S fuel' =>
      if lim <=? start then
        if RuneStart (idx s start) then start
        else backScan fuel' s (start - 1) lim
      else start
  end.

(** [utf8.DecodeLastRuneInString]: the rune at the end of [s] and its
    width. The backward scan inspects at most [UTFMax - 1] bytes. *)
Definition DecodeLastRuneInString (s : gostring) : Z * Z :=
  let end_ := len s in
  if end_ =? 0 then (RuneError, 0) else
  let start := end_ - 1 in
  let r := idx s start in
  if r <? RuneSelf then (r, 1) else
  let lim := end_ - UTFMax in
  let lim := if lim <? 0 then 0 else lim in
  let start := backScan (Z.to_nat UTFMax) s (start - 1) lim in
  let start := if start <? 0 then 0 else start in
  let '(r, size) := DecodeRuneInString (slice s start end_) in
  if negb (start + size =? end_) then (RuneError, 1) else (r, size).

End Utf8.

Module Unicode.

(** [unicode.IsSpace]: the Latin-1 switch, then the [White_Space] range
    table above Latin-1. *)
Definition IsSpace (r : Z) : bool :=
  if (0 <=? r) && (r <=? 0xFF) then
    (r =? 0x09) || (r =? 0x0A) || (r =? 0x0B) || (r =? 0x0C) || (r =? 0x0D) ||
    (r =? 0x20) || (r =? 0x85) || (r =? 0xA0)
  else
    (r =? 0x1680) || ((0x2000 <=? r) && (r <=? 0x200A)) ||
    (r =? 0x2028) || (r =? 0x2029) || (r =? 0x202F) || (r =? 0x205F) ||
    (r =? 0x3000).

End Unicode.

Module Strings.
Import Utf8.

(** The table [asciiSpace]. *)
Definition asciiSpace (c : Z) : Z :=
  if (c =? 0x09) || (c =? 0x0A) || (c =? 0x0B) || (c =? 0x0C) || (c =? 0x0D) ||
     (c =? 0x20)
  then 1 else 0.

(** [strings.indexFunc]: [for i, r := range s { if f(r) == truth { return i } }],
    [-1] when the loop falls through. Each iteration advances by at least one
    byte, so [len(s)] iterations ([fuel]) exhaust the string. *)
Fixpoint indexFuncLoop (fuel : nat) (s : gostring) (f : Z -> bool) (truth : bool)
    (i : Z) : Z :=
  match fuel with
  | O => -1
  | S fuel' =>
      if i <? len s then
        let '(r, size) := DecodeRuneInString (slice s i (len s)) in
        if Bool.eqb (f r) truth then i
        else indexFuncLoop fuel' s f truth (i + size)
      else -1
  end.

Definition indexFunc (s : gostring) (f : Z -> bool) (truth : bool) : Z :=
  indexFuncLoop (length s) s f truth 0.

(** [strings.lastIndexFunc]:
    [for i := len(s); i > 0; { r, size := DecodeLastRuneInString(s[0:i]);
       i -= size; if f(r) == truth { return i } }], with the same bound on the
    number of iterations. *)
Fixpoint lastIndexFuncLoop (fuel : nat) (s : gostring) (f : Z -> bool)
    (truth : bool) (i : Z) : Z :=
  match fuel with
  | O => -1
  | S fuel' =>
      if 0 <? i then
        let '(r, size) := DecodeLastRuneInString (slice s 0 i) in
        let i := i - size in
        if Bool.eqb (f r) truth then i
        else lastIndexFuncLoop fuel' s f truth i
      else -1
  end.

Definition lastIndexFunc (s : gostring) (f : Z -> bool) (truth : bool) : Z :=
  lastIndexFuncLoop (length s) s f truth (len s).

Definition TrimLeftFunc (s : gostring) (f : Z -> bool) : gostring :=
  let i := indexFunc s f false in
  if i =? -1 then [] else slice s i (len s).

Definition TrimRightFunc (s : gostring) (f : Z -> bool) : gostring :=
  let i := lastIndexFunc s f false in
  let i :=
    if (0 <=? i) && (RuneSelf <=? idx s i)
    then i + snd (DecodeRuneInString (slice s i (len s)))
    else i + 1 in
  slice s 0 i.

Definition TrimFunc (s : gostring) (f : Z -> bool) : gostring :=
  TrimRightFunc (TrimLeftFunc s f) f.

(** The first loop of [strings.TrimSpace]: the index of the first ASCII
    non-space byte ([inl]), or the result returned from inside the loop on a
    non-ASCII byte ([inr]). *)
Fixpoint trimSpaceStart (fuel : nat) (s : gostring) (start : Z)
  : Z + gostring :=
  match fuel with
  | O => inl start
  | S fuel' =>
      if start <? len s then
        let c := idx s start in
        if RuneSelf <=? c then
          inr (TrimFunc (slice s start (len s)) Unicode.IsSpace)
        else if asciiSpace c =? 0 then inl start
        else trimSpaceStart fuel' s (start + 1)
      else inl start
  end.

(** The second loop of [strings.TrimSpace], from the end, and its return. *)
Fixpoint trimSpaceStop (fuel : nat) (s : gostring) (start stop : Z) : gostring :=
  match fuel with
  | O => slice s start stop
  | S fuel' =>
      if start <? stop then
        let c := idx s (stop - 1) in
        if RuneSelf <=? c then
          TrimRightFunc (slice s start stop) Unicode.IsSpace
        else if asciiSpace c =? 0 then slice s start stop
        else trimSpaceStop fuel' s start (stop - 1)
      else slice s start stop
  end.

Definition TrimSpace (s : gostring) : gostring :=
  match trimSpaceStart (length s) s 0 with
  | inr r => r
  | inl start => trimSpaceStop (length s) s start (len s)
  end.

(** [strings.ReplaceAll(s, old, new)] for a non-empty [old]: the occurrences
    of [old] are replaced from left to right without overlap. [skip] counts
    the bytes of a matched occurrence still to be passed over. *)
Fixpoint replaceFrom (old new : gostring) (skip : nat) (s : gostring) : gostring :=
  match s with
  | [] => []
  | c :: s' =>
      match skip with
      | S k => replaceFrom old new k s'
      | O =>
          if HasPrefix s old then new ++ replaceFrom old new (length old - 1) s'
          else c :: replaceFrom old new 0 s'
      end
  end.

Definition ReplaceAll (s old new : gostring) : gostring :=
  replaceFrom old new 0 s.

(** Every rune of [s], decoded from the left, is white space. *)
Fixpoint allSpaceFrom (fuel : nat) (s : gostring) : bool :=
  match fuel with
  | O => match s with [] => true | _ => false end
  | S fuel' =>
      match s with
      | [] => true
      | _ =>
          let '(r, size) := DecodeRuneInString s in
          Unicode.IsSpace r && allSpaceFrom fuel' (skipn (Z.to_nat size) s)
      end
  end.

Definition whitespaceOnly (s : gostring) : bool := allSpaceFrom (length s) s.

(** The same as a predicate: [s] is a run of white-space runes. *)
Inductive SpaceRun : gostring -> Prop :=
| SR_nil : SpaceRun []
| SR_cons (s : gostring) :
    s <> [] ->
    Unicode.IsSpace (fst (DecodeRuneInString s)) = true ->
    SpaceRun (skipn (Z.to_nat (snd (DecodeRuneInString s))) s) ->
    SpaceRun s.

(** [t] does not begin, respectively end, with a white-space rune. *)
Definition startsClean (t : gostring) : Prop :=
  t = [] \/ Unicode.IsSpace (fst (DecodeRuneInString t)) = false.

Definition endsClean (t : gostring) : Prop :=
  t = [] \/ Unicode.IsSpace (fst (DecodeLastRuneInString t)) = false.

(** What [TrimSpace] returns: [s] without a leading and a trailing run of
    white-space runes, and neither starting nor ending with one. *)
Definition trimmed (s t : gostring) : Prop :=
  exists a b, 0 <= a <= b /\ b <= len s /\ t = slice s a b /\
    SpaceRun (slice s 0 a) /\ SpaceRun (slice s b (len s)) /\
    startsClean t /\ endsClean t.

End Strings.

(** ** The name sanitiser *)

Module Sanitizer.
Import Strings.

Definition invalidChars : list gostring :=
  [str "\"; str "/"; str ":"; str "*"; str "?"; [ascii_of_nat 34];
   str "<"; str ">"; str "|"].

Definition sanitizeFileName (name : gostring) : gostring :=
  let name :=
    fold_left (fun name char => ReplaceAll name char (str "_")) invalidChars name in
  let name := if 100 <? len name then slice name 0 100 else name in
  TrimSpace name.

(** The per-byte effect of the nine replacements. *)
Definition isInvalidChar (c : ascii) : bool :=
  existsb (fun char => streq [c] char) invalidChars.

Definition substitute (c : ascii) : ascii :=
  if isInvalidChar c then "_"%char else c.

(** Two bytes are alike when they are equal or both ASCII and not white
    space: the relation between a byte and its substitute. *)
Definition alike (z' z : Z) : Prop :=
  z' = z \/
  (z < 0x80 /\ z' < 0x80 /\
   Unicode.IsSpace z = false /\ Unicode.IsSpace z' = false).

(** The specification's claim on empty results, as worded: the output is
    empty only when the input was empty or only white space. *)
Definition emptyOnlyOnBlank (name : gostring) : Prop :=
  sanitizeFileName name = [] -> name = [] \/ whitespaceOnly name = true.

End Sanitizer.

(** ** [strconv.Atoi] *)

Module Strconv.

(** The value of a run of decimal digits, [None] on any other byte. *)
Fixpoint parseDigits (s : gostring) (n : Z) : option Z :=
  match s with
  | [] => Some n
  | ch :: s' =>
      let d := b2z ch - 48 in
      if (0 <=? d) && (d <=? 9) then parseDigits s' (n * 10 + d) else None
  end.

(** [strconv.Atoi] (standard library): an optional sign and at least one
    decimal digit, with a value that fits [int] (64 bits); [None] stands for
    a non-nil error. *)
Definition Atoi (s : gostring) : option Z :=
  match s with
  | [] => None
  | c :: rest =>
      let neg := Ascii.eqb c "-"%char in
      let digits :=
        if Ascii.eqb c "-"%char || Ascii.eqb c "+"%char then rest else s in
      match digits with
      | [] => None
      | _ :: _ =>
          match parseDigits digits 0 with
          | None => None
          | Some n =>
              let v := if neg then - n else n in
              if (- 2 ^ 63 <=? v) && (v <=? 2 ^ 63 - 1) then Some v else None
          end
      end
  end.

End Strconv.

(** ** The external collaborators *)

Record PlaylistEntry : Type := mkEntry {
  ID : gostring;
  Title : gostring
}.

Record Playlist : Type := mkPlaylist {
  PlaylistTitle : gostring;
  Videos : list PlaylistEntry
}.

(** What the YouTube client and the file system answer; [None] and [false]
    stand for a non-nil error. The answers are functions of the request: the
    world does not change its mind during a run. [Create] and [ReadFrom] take
    the two operands of [filepath.Join] instead of the joined path. *)
Record World : Type := mkWorld {
  GetPlaylist : gostring -> option Playlist;
  MkdirAll : gostring -> bool;
  GetVideo : gostring -> option Video;
  GetStream : Video -> Format -> bool;
  Create : gostring -> gostring -> bool;
  ReadFrom : gostring -> gostring -> bool
}.

(** ** The item download pipeline *)

Module Pipeline.
Import Selector Sanitizer.

(** The errors [DownloadVideo] returns, by their messages. *)
Inductive DownloadError : Type :=
| ErrGetVideo     (* "failed to get video info" *)
| ErrNoFormat     (* "no suitable format found" *)
| ErrGetStream    (* "failed to get stream" *)
| ErrCreateFile   (* "failed to create file" *)
| ErrSaveVideo.   (* "failed to save video" *)

Definition getFileExtension (config : DownloadConfig) (format : Format) : gostring :=
  if streq (DownloadType config) (str "audio") then str ".mp3"
  else if Contains (MimeType format) (str "mp4") then str ".mp4"
  else if Contains (MimeType format) (str "webm") then str ".webm"
  else str ".mp4".

(** [*format] for a pointer into [video.Formats]. *)
Definition formatAt (video : Video) (i : nat) : Format :=
  nth i (Formats video) (mkFormat [] [] 0).

(** [DownloadVideo]: [Ret None] is the [nil] error. *)
Definition DownloadVideo (w : World) (config : DownloadConfig) (videoID : gostring)
  : outcome (option DownloadError) :=
  match GetVideo w videoID with
  | None => Ret (Some ErrGetVideo)
  | Some video =>
      match selectFormat config video with
      | Panic msg => Panic msg
      | Ret None => Ret (Some ErrNoFormat)
      | Ret (Some p) =>
          let format := formatAt video p in
          let fileName := sanitizeFileName (VideoTitle video) in
          let fileExt := getFileExtension config format in
          if negb (GetStream w video format) then Ret (Some ErrGetStream)
          else if negb (Create w (OutputDir config) (fileName ++ fileExt))
          then Ret (Some ErrCreateFile)
          else if negb (ReadFrom w (OutputDir config) (fileName ++ fileExt))
          then Ret (Some ErrSaveVideo)
          else Ret None
      end
  end.

End Pipeline.

(** ** [main]: arguments and validation *)

Module Main.
Import Strconv.

Definition isFlag (a : gostring) (short long : String.string) : bool :=
  streq a (str short) || streq a (str long).

(** The loop [for i := 2; i < len(os.Args); i++] over [args = os.Args[i:]]. A
    flag in last position has no value and is skipped. *)
Fixpoint parseArgs (config : DownloadConfig) (args : list gostring) : DownloadConfig :=
  match args with
  | [] => config
  | a :: rest =>
      if isFlag a "-o" "--output" then
        match rest with
        | value :: rest' =>
            parseArgs (mkConfig value (DownloadType config) (MaxQuality config)
                                (Parallel config)) rest'
        | [] => config
        end
      else if isFlag a "-t" "--type" then
        match rest with
        | value :: rest' =>
            parseArgs (mkConfig (OutputDir config) value (MaxQuality config)
                                (Parallel config)) rest'
        | [] => config
        end
      else if isFlag a "-p" "--parallel" then
        match rest with
        | value :: rest' =>
            match Atoi value with
            | Some parallel =>
                parseArgs (mkConfig (OutputDir config) (DownloadType config)
                                    (MaxQuality config) parallel) rest'
            | None => parseArgs config rest'
            end
        | [] => config
        end
      else parseArgs config rest
  end.

Definition defaultConfig : DownloadConfig :=
  mkConfig (str "./downloads") (str "video") [] 3.

Definition validType (config : DownloadConfig) : bool :=
  streq (DownloadType config) (str "audio") || streq (DownloadType config) (str "video").

(** What [main] does before it calls [DownloadPlaylist]. *)
Inductive startup : Type :=
| Usage                       (* [printUsage(); os.Exit(1)] *)
| InvalidType                 (* the type error message, [os.Exit(1)] *)
| Start (playlistURL : gostring) (config : DownloadConfig).

Definition mainStartup (osArgs : list gostring) : startup :=
  if (length osArgs <? 2)%nat then Usage else
  let playlistURL := nth 1 osArgs [] in
  let config := parseArgs defaultConfig (skipn 2 osArgs) in
  if negb (validType config) then InvalidType
  else Start playlistURL config.

(** The specification's claim on the pool size, as worded: a run is only
    started with a pool of at least one slot (a smaller value is a
    configuration error reported at startup). *)
Definition startsOnlyPositive (osArgs : list gostring) : Prop :=
  forall url config, mainStartup osArgs = Start url config -> 1 <= Parallel config.

End Main.

(** ** [DownloadPlaylist]: the orchestrator *)

Module Orchestrator.
Import Pipeline.

(** The lines the worker goroutines write, with [fmt.Printf] and
    [log.Printf]. *)
Inductive event : Type :=
| EvDownloading (n total : Z) (title : gostring)   (* "[n/total] Downloading: title" *)
| EvFailed (title : gostring) (err : DownloadError)
| EvCompleted (title : gostring).

(** The summary block printed after [wg.Wait()]. *)
Record Summary : Type := mkSummary {
  total : Z;
  successful : Z;
  failed : Z;
  failedTitles : list gostring
}.

(** What [DownloadPlaylist] does before its loop: the two fatal errors, the
    panic of [make(chan struct{}, n)] on a negative [n], or the playlist. *)
Inductive setup : Type :=
| SetupError (msg : String.string)
| SetupPanic (msg : String.string)
| SetupOk (playlist : Playlist).

Definition DownloadPlaylistSetup (w : World) (config : DownloadConfig)
    (playlistURL : gostring) : setup :=
  match GetPlaylist w playlistURL with
  | None => SetupError "failed to get playlist"
  | Some playlist =>
      if negb (MkdirAll w (OutputDir config)) then
        SetupError "failed to create output directory"
      else if Parallel config <? 0 then SetupPanic "makechan: size out of range"
      else SetupOk playlist
  end.

(** Where the calling goroutine stands in
    [for i, video := range playlist.Videos { wg.Add(1); semaphore <- struct{}{};
       go func(...){...}(i, video) }; wg.Wait(); ...summary...; return nil]. *)
Inductive mainpc : Type :=
| MLoop (i : nat)     (* at the loop header, about to [wg.Add(1)] or to leave *)
| MSend (i : nat)     (* at [semaphore <- struct{}{}] *)
| MSpawn (i : nat)    (* at the [go] statement *)
| MWait               (* at [wg.Wait()] *)
| MSummary            (* about to print the summary *)
| MReturned.          (* [return nil] *)

(** Where a worker goroutine stands in its body. The statement
    [failedDownloads = append(failedDownloads, v.Title)] is a read of the
    shared slice followed by a write of the extended slice, each taken here
    as one step; [SliceRace] below takes them word by word. *)
Inductive gpc : Type :=
| GStart                              (* about to print and call [DownloadVideo] *)
| GDownloading                        (* inside [pd.DownloadVideo(v.ID)] *)
| GAppendLoad                         (* [err != nil], logged; about to read the slice *)
| GAppendStore (old : list gostring)  (* slice read, extended slice not yet written *)
| GRelease                            (* deferred [<-semaphore] *)
| GDone                               (* deferred [wg.Done()] *)
| GExit.

(** A worker with the arguments [(index, v)] it was started with. *)
Record goroutine : Type := mkGoroutine {
  index : nat;
  v : PlaylistEntry;
  pc : gpc
}.

Record state : Type := mkState {
  mpc : mainpc;
  semaphore : Z;                       (* [len(semaphore)] *)
  wg : Z;                              (* the wait-group counter *)
  gors : list goroutine;
  failedDownloads : list gostring;
  output : list event;                  (* the lines printed and logged *)
  summary : option Summary;
  panicked : bool
}.

Definition initState : state :=
  mkState (MLoop 0) 0 0 [] [] [] None false.

(** Who moves: the calling goroutine, worker [k], or the calling goroutine
    and worker [k] together (a send and a receive meeting on an unbuffered
    channel). *)
Inductive action : Type :=
| Caller
| Worker (k : nat)
| Meet (k : nat).

Definition setPc (k : nat) (p : gpc) (gs : list goroutine) : list goroutine :=
  match nth_error gs k with
  | None => gs
  | Some g => firstn k gs ++ mkGoroutine (index g) (v g) p :: skipn (S k) gs
  end.

Definition withMain (st : state) (m : mainpc) : state :=
  mkState m (semaphore st) (wg st) (gors st) (failedDownloads st) (output st)
          (summary st) (panicked st).

Definition withWorker (st : state) (k : nat) (p : gpc) : state :=
  mkState (mpc st) (semaphore st) (wg st) (setPc k p (gors st)) (failedDownloads st)
          (output st) (summary st) (panicked st).

Definition withSem (st : state) (n : Z) : state :=
  mkState (mpc st) n (wg st) (gors st) (failedDownloads st) (output st)
          (summary st) (panicked st).

Definition withWg (st : state) (n : Z) : state :=
  mkState (mpc st) (semaphore st) n (gors st) (failedDownloads st) (output st)
          (summary st) (panicked st).

Definition print (st : state) (e : event) : state :=
  mkState (mpc st) (semaphore st) (wg st) (gors st) (failedDownloads st)
          (output st ++ [e]) (summary st) (panicked st).

Section Run.

Variable w : World.
Variable config : DownloadConfig.
Variable videos : list PlaylistEntry.

(** One step of the calling goroutine; [None] when it is blocked or done. *)
Definition stepCaller (st : state) : option state :=
  match mpc st with
  | MLoop i =>
      if (i <? length videos)%nat
      then Some (withMain (withWg st (wg st + 1)) (MSend i))
      else Some (withMain st MWait)
  | MSend i =>
      if semaphore st <? Parallel config
      then Some (withMain (withSem st (semaphore st + 1)) (MSpawn i))
      else None
  | MSpawn i =>
      match nth_error videos i with
      | Some video =>
          Some (mkState (MLoop (S i)) (semaphore st) (wg st)
                        (gors st ++ [mkGoroutine i video GStart])
                        (failedDownloads st) (output st) (summary st) (panicked st))
      | None => None
      end
  | MWait =>
      if wg st =? 0 then Some (withMain st MSummary) else None
  | MSummary =>
      let n := Z.of_nat (length videos) in
      let nfailed := Z.of_nat (length (failedDownloads st)) in
      Some (mkState MReturned (semaphore st) (wg st) (gors st) (failedDownloads st)
                    (output st)
                    (Some (mkSummary n (n - nfailed) nfailed (failedDownloads st)))
                    (panicked st))
  | MReturned => None
  end.

(** One step of worker [k]; [None] when there is no such worker, or it is
    blocked or has exited. *)
Definition stepWorker (k : nat) (st : state) : option state :=
  match nth_error (gors st) k with
  | None => None
  | Some g =>
      match pc g with
      | GStart =>
          Some (withWorker
                  (print st (EvDownloading (Z.of_nat (index g) + 1)
                                           (Z.of_nat (length videos)) (Title (v g))))
                  k GDownloading)
      | GDownloading =>
          match DownloadVideo w config (ID (v g)) with
          | Panic _ =>
              Some (mkState (mpc st) (semaphore st) (wg st) (gors st) (failedDownloads st)
                            (output st) (summary st) true)
          | Ret (Some err) =>
              Some (withWorker (print st (EvFailed (Title (v g)) err)) k GAppendLoad)
          | Ret None =>
              Some (withWorker (print st (EvCompleted (Title (v g)))) k GRelease)
          end
      | GAppendLoad => Some (withWorker st k (GAppendStore (failedDownloads st)))
      | GAppendStore old =>
          Some (mkState (mpc st) (semaphore st) (wg st) (setPc k GRelease (gors st))
                        (old ++ [Title (v g)]) (output st) (summary st) (panicked st))
      | GRelease =>
          if 0 <? semaphore st
          then Some (withWorker (withSem st (semaphore st - 1)) k GDone)
          else None
      | GDone => Some (withWorker (withWg st (wg st - 1)) k GExit)
      | GExit => None
      end
  end.

(** On an unbuffered channel ([Parallel = 0]) the send of the caller and the
    receive of worker [k] complete together. *)
Definition stepMeet (k : nat) (st : state) : option state :=
  match mpc st, nth_error (gors st) k with
  | MSend i, Some g =>
      match pc g with
      | GRelease =>
          if Parallel config =? 0
          then Some (withMain (withWorker st k GDone) (MSpawn i))
          else None
      | _ => None
      end
  | _, _ => None
  end.

(** A panic in any goroutine stops the program. *)
Definition stepf (a : action) (st : state) : option state :=
  if panicked st then None else
  match a with
  | Caller => stepCaller st
  | Worker k => stepWorker k st
  | Meet k => stepMeet k st
  end.

Definition step (st st' : state) : Prop := exists a, stepf a st = Some st'.

(** The states of the runs of [DownloadPlaylist]. *)
Inductive reachable : state -> Prop :=
| reach_init : reachable initState
| reach_step st st' : reachable st -> step st st' -> reachable st'.

(** Running a schedule. *)
Fixpoint exec (schedule : list action) (st : state) : option state :=
  match schedule with
  | [] => Some st
  | a :: schedule' =>
      match stepf a st with
      | Some st' => exec schedule' st'
      | None => None
      end
  end.

Definition run (schedule : list action) : state :=
  match exec schedule initState with
  | Some st => st
  | None => initState
  end.

(** No goroutine can move. *)
Definition stuck (st : state) : Prop := forall a, stepf a st = None.

End Run.

(** A worker holds a slot of the semaphore from its start until its
    deferred receive has completed. *)
Definition holdsSlot (g : goroutine) : bool :=
  match pc g with
  | GDone | GExit => false
  | _ => true
  end.

Definition isDownloading (g : goroutine) : bool :=
  match pc g with
  | GDownloading => true
  | _ => false
  end.

(** A worker is appending from the read of the slice to the write. *)
Definition isAppending (g : goroutine) : bool :=
  match pc g with
  | GAppendStore _ => true
  | _ => false
  end.

Definition isLive (g : goroutine) : bool :=
  match pc g with
  | GExit => false
  | _ => true
  end.

Fixpoint count (p : goroutine -> bool) (gs : list goroutine) : Z :=
  match gs with
  | [] => 0
  | g :: gs' => (if p g then 1 else 0) + count p gs'
  end.

(** The items inside the pipeline: between the acquisition of their slot and
    its release. *)
Definition inPipeline (st : state) : Z := count holdsSlot (gors st).

(** The appends are mutually exclusive in [st]: at most one worker is
    between the read and the write of [failedDownloads]. *)
Definition exclusiveAppend (st : state) : Prop := count isAppending (gors st) <= 1.

(** [DownloadVideo] returns an error for this item. *)
Definition failsItem (w : World) (config : DownloadConfig) (e : PlaylistEntry) : bool :=
  match DownloadVideo w config (ID e) with
  | Ret (Some _) => true
  | _ => false
  end.

(** The titles of the items whose [DownloadVideo] returns an error, in
    playlist order. *)
Definition failedItems (w : World) (config : DownloadConfig)
    (videos : list PlaylistEntry) : list gostring :=
  map Title (filter (failsItem w config) videos).

(** The summary the specification asks for. *)
Definition exactSummary (w : World) (config : DownloadConfig)
    (videos : list PlaylistEntry) (s : Summary) : Prop :=
  total s = Z.of_nat (length videos) /\
  failed s = Z.of_nat (length (failedItems w config videos)) /\
  successful s = total s - failed s /\
  forall t, count_occ (list_eq_dec ascii_dec) (failedTitles s) t
          = count_occ (list_eq_dec ascii_dec) (failedItems w config videos) t.

(** How far a state is from the end of the run, in steps. *)
Definition workerFuel (g : goroutine) : Z :=
  match pc g with
  | GStart => 6
  | GDownloading => 5
  | GAppendLoad => 4
  | GAppendStore _ => 3
  | GRelease => 2
  | GDone => 1
  | GExit => 0
  end.

Definition callerFuel (n : Z) (m : mainpc) : Z :=
  match m with
  | MLoop i => 9 * (n - Z.of_nat i) + 3
  | MSend i => 9 * (n - Z.of_nat i) + 2
  | MSpawn i => 9 * (n - Z.of_nat i) + 1
  | MWait => 2
  | MSummary => 1
  | MReturned => 0
  end.

Fixpoint sumFuel (gs : list goroutine) : Z :=
  match gs with
  | [] => 0
  | g :: gs' => workerFuel g + sumFuel gs'
  end.

Definition fuelOf (videos : list PlaylistEntry) (st : state) : Z :=
  callerFuel (Z.of_nat (length videos)) (mpc st) + sumFuel (gors st).

(** What the caller holds on behalf of the worker it is about to start: a
    slot of the semaphore once its send has completed, a unit of the wait
    group once [wg.Add(1)] has run. *)
Definition pendingSlot (m : mainpc) : Z :=
  match m with MSpawn _ => 1 | _ => 0 end.

Definition pendingAdd (m : mainpc) : Z :=
  match m with MSend _ | MSpawn _ => 1 | _ => 0 end.

(** The workers started so far, by the position of the caller. *)
Definition position (n : nat) (m : mainpc) (spawned : nat) : Prop :=
  match m with
  | MLoop i => spawned = i /\ (i <= n)%nat
  | MSend i | MSpawn i => spawned = i /\ (i < n)%nat
  | MWait => spawned = n
  | MSummary | MReturned => spawned = n
  end.

(** After [wg.Wait()] has returned the counter is zero. *)
Definition waited (m : mainpc) (counter : Z) : Prop :=
  match m with
  | MSummary | MReturned => counter = 0
  | _ => True
  end.

(** The invariant of the runs. *)
Record Inv (config : DownloadConfig) (videos : list PlaylistEntry) (st : state)
  : Prop := mkInv {
  inv_sem : semaphore st = count holdsSlot (gors st) + pendingSlot (mpc st);
  inv_cap : semaphore st <= Z.max 0 (Parallel config);
  inv_wg : wg st = count isLive (gors st) + pendingAdd (mpc st);
  inv_pos : position (length videos) (mpc st) (length (gors st));
  inv_waited : waited (mpc st) (wg st);
  inv_args : forall k g, nth_error (gors st) k = Some g ->
      index g = k /\ nth_error videos k = Some (v g);
  inv_log : forall k g, nth_error (gors st) k = Some g -> pc g <> GStart ->
      In (EvDownloading (Z.of_nat k + 1) (Z.of_nat (length videos)) (Title (v g)))
         (output st)
}.

Definition bit (b : bool) : Z := if b then 1 else 0.

(** A worker is settled once it is past the [if err != nil] statement. *)
Definition settled (g : goroutine) : bool :=
  match pc g with
  | GRelease | GDone | GExit => true
  | _ => false
  end.

Definition recorded (w : World) (config : DownloadConfig) (g : goroutine) : bool :=
  settled g && failsItem w config (v g).

(** The invariant of the runs with a single slot: the workers run one after
    the other, and [failedDownloads] holds the titles of the settled failed
    items in playlist order. *)
Record Serial (w : World) (config : DownloadConfig) (st : state) : Prop := mkSerial {
  ser_last : forall k g, nth_error (gors st) k = Some g ->
      (S k < length (gors st))%nat -> holdsSlot g = false;
  ser_titles : failedDownloads st
      = map (fun g => Title (v g)) (filter (recorded w config) (gors st));
  ser_append : forall k g, nth_error (gors st) k = Some g ->
      match pc g with
      | GAppendLoad => failsItem w config (v g) = true
      | GAppendStore old =>
          failsItem w config (v g) = true /\ old = failedDownloads st
      | _ => True
      end
}.

End Orchestrator.

(** ** The append of [failedDownloads] at the level of machine words *)

(** The variable [failedDownloads] is a slice: three machine words (pointer
    to the backing array, length, capacity). The workers read and write it
    without synchronisation, and Go's memory model lets such a racing access
    to a multiword value proceed as word-sized operations in an unspecified
    order. [stepWorker] above takes the read and the write as one step each;
    here they are three steps each, in the order [order]. *)
Module SliceRace.

Inductive word : Type := WPtr | WLen | WCap.

(** A slice value: the backing array as an index into the heap ([None] for
    the [nil] slice), the length and the capacity. *)
Record header : Type := mkHeader {
  hptr : option nat;
  hlen : nat;
  hcap : nat
}.

Definition nilSlice : header := mkHeader None 0 0.

(** Word [wd] of [dst] overwritten with that of [src]. *)
Definition setWord (wd : word) (src dst : header) : header :=
  match wd with
  | WPtr => mkHeader (hptr src) (hlen dst) (hcap dst)
  | WLen => mkHeader (hptr dst) (hlen src) (hcap dst)
  | WCap => mkHeader (hptr dst) (hlen dst) (hcap src)
  end.

(** A backing array: its elements, as many as it has room for. *)
Definition block : Type := list gostring.

(** The elements [s[0:len(s)]]; [None] when they do not lie inside the
    backing array. *)
Definition elements (heap : list block) (s : header) : option (list gostring) :=
  match hptr s with
  | None => if (hlen s =? 0)%nat then Some [] else None
  | Some a =>
      match nth_error heap a with
      | Some b => if (hlen s <=? length b)%nat then Some (firstn (hlen s) b) else None
      | None => None
      end
  end.

(** [append(s, title)]: with room left the element is written in place;
    otherwise [growslice] allocates an array of twice the capacity (one
    element for an empty slice; the rule of the run time below 256
    elements), copies the elements and adds the new one.
    [None] when the copy or the write falls outside the backing array. *)
Definition append (heap : list block) (s : header) (title : gostring)
  : option (list block * header) :=
  if (hlen s <? hcap s)%nat then
    match hptr s with
    | Some a =>
        match nth_error heap a with
        | Some b =>
            if (hlen s <? length b)%nat then
              Some (firstn a heap
                      ++ (firstn (hlen s) b ++ title :: skipn (S (hlen s)) b)
                      :: skipn (S a) heap,
                    mkHeader (hptr s) (S (hlen s)) (hcap s))
            else None
        | None => None
        end
    | None => None
    end
  else
    let newcap := if (hcap s =? 0)%nat then 1%nat else (2 * hcap s)%nat in
    match elements heap s with
    | Some old =>
        Some (heap ++ [old ++ title :: repeat [] (newcap - S (hlen s))],
              mkHeader (Some (length heap)) (S (hlen s)) newcap)
    | None => None
    end.

(** Where a worker stands in
    [failedDownloads = append(failedDownloads, v.Title)]. *)
Inductive apc : Type :=
| ALoad (todo : list word) (got : header)    (* reading the variable *)
| AStore (todo : list word) (new : header)   (* writing the result back *)
| ADone.

Record state : Type := mkState {
  heap : list block;
  variable : header;                          (* [failedDownloads] *)
  workers : list (gostring * apc);
  faulted : bool
}.

Definition initState (order : list word) (titles : list gostring) : state :=
  mkState [] nilSlice (map (fun t => (t, ALoad order nilSlice)) titles) false.

Definition setWorker (k : nat) (p : apc) (ws : list (gostring * apc))
  : list (gostring * apc) :=
  match nth_error ws k with
  | Some (title, _) => firstn k ws ++ (title, p) :: skipn (S k) ws
  | None => ws
  end.

Definition afterStore (todo : list word) (new : header) : apc :=
  match todo with
  | [] => ADone
  | _ :: _ => AStore todo new
  end.

(** One step of worker [k]. *)
Definition step (order : list word) (k : nat) (st : state) : option state :=
  if faulted st then None else
  match nth_error (workers st) k with
  | Some (title, ALoad (wd :: todo) got) =>
      Some (mkState (heap st) (variable st)
                    (setWorker k (ALoad todo (setWord wd (variable st) got)) (workers st))
                    false)
  | Some (title, ALoad [] got) =>
      match append (heap st) got title with
      | Some (heap', new) =>
          Some (mkState heap' (variable st)
                        (setWorker k (afterStore order new) (workers st)) false)
      | None => Some (mkState (heap st) (variable st) (workers st) true)
      end
  | Some (title, AStore (wd :: todo) new) =>
      Some (mkState (heap st) (setWord wd new (variable st))
                    (setWorker k (afterStore todo new) (workers st)) false)
  | _ => None
  end.

Fixpoint exec (order : list word) (schedule : list nat) (st : state) : option state :=
  match schedule with
  | [] => Some st
  | k :: schedule' =>
      match step order k st with
      | Some st' => exec order schedule' st'
      | None => None
      end
  end.





End SliceRace.

(** ** Playlists, worlds and schedules used in the examples *)

Module Scenarios.
Import Selector Orchestrator.

Definition entry (id title : String.string) : PlaylistEntry :=
  mkEntry (str id) (str title).

Definition twoItems : list PlaylistEntry := [entry "a" "A"; entry "b" "B"].

Definition threeItems : list PlaylistEntry :=
  [entry "a" "A"; entry "b" "B"; entry "c" "C"].

Definition tenItems : list PlaylistEntry :=
  [entry "0" "T0"; entry "1" "T1"; entry "2" "T2"; entry "3" "T3"; entry "4" "T4";
   entry "5" "T5"; entry "6" "T6"; entry "7" "T7"; entry "8" "T8"; entry "9" "T9"].

Definition mp4Video (title : gostring) : Video :=
  mkVideo title [fmt "video/mp4" "medium" 2].

(** A world that serves [videos] as the playlist and fails the metadata
    fetch of exactly the items whose ID satisfies [broken]. *)
Definition worldOf (videos : list PlaylistEntry) (broken : gostring -> bool) : World :=
  mkWorld (fun _ => Some (mkPlaylist (str "playlist") videos))
          (fun _ => true)
          (fun id => if broken id then None else Some (mp4Video id))
          (fun _ _ => true) (fun _ _ => true) (fun _ _ => true).

Definition configOf (parallel : Z) : DownloadConfig :=
  mkConfig (str "./downloads") (str "video") [] parallel.

Definition argsOf (parallel : String.string) : list gostring :=
  [str "main"; str "PLxyz"; str "-p"; str parallel].

Definition times (n : nat) (a : action) : list action := repeat a n.

(** Two failing items, two slots: both workers read [failedDownloads]
    before either writes it back. *)
Definition overlapSchedule : list action :=
  times 7 Caller ++
  [Worker 0%nat; Worker 0%nat; Worker 1%nat; Worker 1%nat;
   Worker 0%nat; Worker 1%nat].

Definition lostUpdateSchedule : list action :=
  overlapSchedule ++
  [Worker 0%nat; Worker 1%nat; Worker 0%nat; Worker 0%nat;
   Worker 1%nat; Worker 1%nat; Caller; Caller].

(** Ten items, two slots: two workers downloading, the caller waiting for a
    slot for the third item. *)
Definition twoBusySchedule : list action :=
  times 6 Caller ++ [Worker 0%nat; Worker 1%nat; Caller].

(** Three items, three slots, item [b] failing: all workers started, each
    run to its end, then the summary. *)
Definition mixedSchedule : list action :=
  times 10 Caller ++ times 4 (Worker 0%nat) ++ times 6 (Worker 1%nat) ++
  times 4 (Worker 2%nat) ++ times 2 Caller.


End Scenarios.

(** ** The calls of the item download pipeline *)

Module Effects.
Import Selector Sanitizer Pipeline.

(** [sub] occurs in [s]. *)
Definition occursIn (sub : String.string) (s : gostring) : Prop :=
  exists a b, s = a ++ str sub ++ b.

(** The calls [DownloadVideo] makes on the client and on the file system,
    each with its outcome ([ok = false] for [err != nil]), and the two
    deferred closes. *)
Inductive call : Type :=
| CallGetVideo (videoID : gostring) (ok : bool)
| CallGetStream (video : Video) (format : Format) (ok : bool)
| CallCreate (dir name : gostring) (ok : bool)
| CallReadFrom (dir name : gostring) (ok : bool)
| CallCloseFile (dir name : gostring)
| CallCloseStream (video : Video) (format : Format).

(** A [return]: the deferred calls run, the one deferred last first. *)
Definition returning {A : Type} (r : A) (calls deferred : list call) : A * list call :=
  (r, calls ++ deferred).

(** [DownloadVideo] with the calls it makes, in order. [deferred] is the
    stack of the [defer] statements executed so far. *)
Definition DownloadVideoCalls (w : World) (config : DownloadConfig)
    (videoID : gostring) : outcome (option DownloadError) * list call :=
  match GetVideo w videoID with
  | None => returning (Ret (Some ErrGetVideo)) [CallGetVideo videoID false] []
  | Some video =>
      let calls := [CallGetVideo videoID true] in
      match selectFormat config video with
      | Panic msg => returning (Panic msg) calls []
      | Ret None => returning (Ret (Some ErrNoFormat)) calls []
      | Ret (Some p) =>
          let format := formatAt video p in
          let fileName := sanitizeFileName (VideoTitle video) in
          let fileExt := getFileExtension config format in
          let dir := OutputDir config in
          let name := fileName ++ fileExt in
          if negb (GetStream w video format) then
            returning (Ret (Some ErrGetStream))
                      (calls ++ [CallGetStream video format false]) []
          else
            let calls := calls ++ [CallGetStream video format true] in
            let deferred := [CallCloseStream video format] in
            if negb (Create w dir name) then
              returning (Ret (Some ErrCreateFile))
                        (calls ++ [CallCreate dir name false]) deferred
            else
              let calls := calls ++ [CallCreate dir name true] in
              let deferred := CallCloseFile dir name :: deferred in
              if negb (ReadFrom w dir name) then
                returning (Ret (Some ErrSaveVideo))
                          (calls ++ [CallReadFrom dir name false]) deferred
              else
                returning (Ret None) (calls ++ [CallReadFrom dir name true]) deferred
      end
  end.

(** What is open while the calls run. *)
Inductive resource : Type :=
| OpenStream (video : Video) (format : Format)
| OpenFile (dir name : gostring).

Definition sameFile (dir name dir' name' : gostring) : bool :=
  streq dir dir' && streq name name'.

(** Runs the calls over the stack of the open resources: a successful
    [GetStream] or [Create] opens one, a close must close the one opened
    last, and [ReadFrom] needs its file open on top of a stream. [None] when
    a call breaks this discipline. *)
Fixpoint discipline (open : list resource) (calls : list call)
  : option (list resource) :=
  match calls with
  | [] => Some open
  | c :: calls' =>
      match c with
      | CallGetVideo _ _ => discipline open calls'
      | CallGetStream video format ok =>
          discipline (if ok then OpenStream video format :: open else open) calls'
      | CallCreate dir name ok =>
          discipline (if ok then OpenFile dir name :: open else open) calls'
      | CallReadFrom dir name _ =>
          match open with
          | OpenFile dir' name' :: OpenStream _ _ :: _ =>
              if sameFile dir name dir' name' then discipline open calls' else None
          | _ => None
          end
      | CallCloseFile dir name =>
          match open with
          | OpenFile dir' name' :: open' =>
              if sameFile dir name dir' name' then discipline open' calls' else None
          | _ => None
          end
      | CallCloseStream _ _ =>
          match open with
          | OpenStream _ _ :: open' => discipline open' calls'
          | _ => None
          end
      end
  end.

Definition failedCall (c : call) : bool :=
  match c with
  | CallGetVideo _ ok | CallGetStream _ _ ok | CallCreate _ _ ok
  | CallReadFrom _ _ ok => negb ok
  | _ => false
  end.

Definition isClose (c : call) : bool :=
  match c with
  | CallCloseFile _ _ | CallCloseStream _ _ => true
  | _ => false
  end.

(** After a failed call nothing but the deferred closes runs. *)
Fixpoint stopsAtFailure (calls : list call) : bool :=
  match calls with
  | [] => true
  | c :: calls' =>
      if failedCall c then forallb isClose calls' else stopsAtFailure calls'
  end.

(** The error a sequence of calls stands for: that of its first failed
    call; without one, [nil] when the copy ran and "no suitable format
    found" when it did not. *)
Fixpoint verdict (calls : list call) : option DownloadError :=
  match calls with
  | [] => Some ErrNoFormat
  | c :: calls' =>
      match c with
      | CallGetVideo _ false => Some ErrGetVideo
      | CallGetStream _ _ false => Some ErrGetStream
      | CallCreate _ _ false => Some ErrCreateFile
      | CallReadFrom _ _ false => Some ErrSaveVideo
      | CallReadFrom _ _ true => None
      | _ => verdict calls'
      end
  end.

(** The file names of the calls on the file system. *)
Fixpoint fileNames (calls : list call) : list (gostring * gostring) :=
  match calls with
  | [] => []
  | c :: calls' =>
      match c with
      | CallCreate dir name _ | CallReadFrom dir name _ | CallCloseFile dir name =>
          (dir, name) :: fileNames calls'
      | _ => fileNames calls'
      end
  end.

End Effects.

(** ** The options of the argument loop *)

Module Cli.
Import Strconv Main.

(** [a] is one of the option names of the argument loop. *)
Definition isOption (a : gostring) : bool :=
  isFlag a "-o" "--output" || isFlag a "-t" "--type" || isFlag a "-p" "--parallel".

(** Some argument is the option [short] or [long]. *)
Definition mentions (short long : String.string) (args : list gostring) : bool :=
  existsb (fun a => isFlag a short long) args.

(** The loop over [args] ends after a value or a plain argument: no option
    name stands in last position, where [i+1 < len(os.Args)] fails. *)
Fixpoint complete (args : list gostring) : bool :=
  match args with
  | [] => true
  | a :: rest =>
      if isOption a then
        match rest with
        | _ :: rest' => complete rest'
        | [] => false
        end
      else complete rest
  end.

End Cli.

(** ** The lines of the workers and the titles they record *)

Module Log.
Import Pipeline Orchestrator.

(** The line a worker prints first. *)
Definition downloadingLine (total : Z) (i : nat) (e : PlaylistEntry) : event :=
  EvDownloading (Z.of_nat i + 1) total (Title e).

(** The line a worker writes after [DownloadVideo] has returned. *)
Definition resultLine (w : World) (config : DownloadConfig) (e : PlaylistEntry)
  : list event :=
  match DownloadVideo w config (ID e) with
  | Ret None => [EvCompleted (Title e)]
  | Ret (Some err) => [EvFailed (Title e) err]
  | Panic _ => []
  end.

(** The lines worker [g] has written when it stands at [pc g]. *)
Definition linesOf (w : World) (config : DownloadConfig) (total : Z) (g : goroutine)
  : list event :=
  match pc g with
  | GStart => []
  | GDownloading => [downloadingLine total (index g) (v g)]
  | _ => downloadingLine total (index g) (v g) :: resultLine w config (v g)
  end.

(** The lines of all the items, item by item, in playlist order from
    index [i]. *)
Fixpoint fullLog (w : World) (config : DownloadConfig) (total : Z) (i : nat)
    (videos : list PlaylistEntry) : list event :=
  match videos with
  | [] => []
  | e :: videos' =>
      downloadingLine total i e :: resultLine w config e
        ++ fullLog w config total (S i) videos'
  end.

Definition isFailedLine (e : event) : bool :=
  match e with EvFailed _ _ => true | _ => false end.

Definition isCompletedLine (e : event) : bool :=
  match e with EvCompleted _ => true | _ => false end.

Definition isDownloadingLine (e : event) : bool :=
  match e with EvDownloading _ _ _ => true | _ => false end.

(** The title and the fate of item [k]. *)
Definition titleAt (videos : list PlaylistEntry) (k : nat) : gostring :=
  match nth_error videos k with
  | Some e => Title e
  | None => []
  end.

Definition failedAt (w : World) (config : DownloadConfig)
    (videos : list PlaylistEntry) (k : nat) : bool :=
  match nth_error videos k with
  | Some e => failsItem w config e
  | None => false
  end.

(** [titles] are the titles of distinct failed items. *)
Definition namesFailed (w : World) (config : DownloadConfig)
    (videos : list PlaylistEntry) (titles : list gostring) : Prop :=
  exists ks, NoDup ks /\
    Forall (fun k => failedAt w config videos k = true) ks /\
    titles = map (titleAt videos) ks.

(** Worker [k] has written its title to [failedDownloads]. *)
Definition storedAt (w : World) (config : DownloadConfig) (gs : list goroutine)
    (k : nat) : bool :=
  match nth_error gs k with
  | Some g => recorded w config g
  | None => false
  end.

(** [titles] are the titles of distinct workers that have written theirs. *)
Definition picks (w : World) (config : DownloadConfig) (videos : list PlaylistEntry)
    (gs : list goroutine) (titles : list gostring) : Prop :=
  exists ks, NoDup ks /\
    Forall (fun k => storedAt w config gs k = true) ks /\
    titles = map (titleAt videos) ks.

(** What holds of [failedDownloads], and of the copies of it the appending
    workers hold, in every state of a run, however the appends interleave. *)
Record Sound (w : World) (config : DownloadConfig) (videos : list PlaylistEntry)
    (gs : list goroutine) (fd : list gostring) : Prop := mkSound {
  snd_failed : picks w config videos gs fd;
  snd_old : forall k g old, nth_error gs k = Some g -> pc g = GAppendStore old ->
      picks w config videos gs old;
  snd_fails : forall k g, nth_error gs k = Some g ->
      match pc g with
      | GAppendLoad | GAppendStore _ => failsItem w config (v g) = true
      | _ => True
      end;
  snd_nonempty : forall k g, nth_error gs k = Some g ->
      recorded w config g = true -> fd <> []
}.

End Log.

(** * Properties *)

Module GoStringFacts.

Lemma streq_spec (a b : gostring) : streq a b = true <-> a = b.
Proof.
  revert b; induction a as [|x a IH]; intros [|y b]; simpl;
    try (split; (discriminate || reflexivity)).
  rewrite andb_true_iff, Ascii.eqb_eq, IH.
  split; [intros [-> ->]; reflexivity | intros H; inversion H; auto].
Qed.

Lemma HasPrefix_spec (s p : gostring) :
  HasPrefix s p = true <-> exists t, s = p ++ t.
Proof.
  unfold HasPrefix. rewrite andb_true_iff, Nat.leb_le, streq_spec. split.
  - intros [_ H]. exists (skipn (length p) s).
    rewrite <- H at 1. symmetry; apply firstn_skipn.
  - intros [t ->]. rewrite length_app. split; [lia|].
    rewrite firstn_app, Nat.sub_diag, firstn_all. simpl. apply app_nil_r.
Qed.

Lemma b2z_range (c : ascii) : 0 <= b2z c < 256.
Proof.
  unfold b2z. pose proof (N_ascii_bounded c) as H. lia.
Qed.

End GoStringFacts.

(** ** Format selection: the scanning loops *)

Module SelectorFacts.
Import Selector GoStringFacts.

Lemma firstAt_head cond f fs : cond f = true -> firstAt cond (f :: fs) 0.
Proof.
  intros H. split; [exists f; auto | intros j g Hj; lia].
Qed.

Lemma firstAt_tail cond f fs i :
  cond f = false -> firstAt cond fs i -> firstAt cond (f :: fs) (S i).
Proof.
  intros Hf [Hi Hlt]. split; [exact Hi|].
  intros [|j] g Hj Hg; simpl in Hg.
  - injection Hg as <-. exact Hf.
  - apply (Hlt j); [lia | exact Hg].
Qed.

Lemma noneOf_cons cond f fs :
  cond f = false -> noneOf cond fs -> noneOf cond (f :: fs).
Proof. intros Hf Hn g [<-|Hg]; auto. Qed.

Lemma noneOf_inv cond f fs :
  noneOf cond (f :: fs) -> cond f = false /\ noneOf cond fs.
Proof.
  intros H; split; [apply H; left; reflexivity | intros g Hg; apply H; right; exact Hg].
Qed.

Lemma noneOf_nth cond fs j g :
  noneOf cond fs -> nth_error fs j = Some g -> cond g = false.
Proof. intros H Hj. apply H. eapply nth_error_In; eauto. Qed.

(** What one scanning pass returns, for any starting index [k]. *)
Lemma scanFirst_spec cond fs k :
  (exists i, firstAt cond fs i /\ scanFirst cond fs k = Some (k + i)%nat) \/
  (noneOf cond fs /\ scanFirst cond fs k = None).
Proof.
  revert k; induction fs as [|f fs IH]; intros k; simpl.
  - right. split; [intros g []| reflexivity].
  - destruct (cond f) eqn:Hf.
    + left. exists 0%nat. split; [apply firstAt_head; exact Hf | f_equal; lia].
    + destruct (IH (S k)) as [[i [Hi Hs]]|[Hn Hs]].
      * left. exists (S i). split; [apply firstAt_tail; assumption|].
        rewrite Hs. f_equal; lia.
      * right. split; [apply noneOf_cons; assumption | exact Hs].
Qed.

Lemma firstAt_not_none cond fs i : firstAt cond fs i -> noneOf cond fs -> False.
Proof.
  intros [[f [Hf Hc]] _] Hn. rewrite (noneOf_nth _ _ _ _ Hn Hf) in Hc. discriminate.
Qed.

Lemma firstAt_unique cond fs i j : firstAt cond fs i -> firstAt cond fs j -> i = j.
Proof.
  intros [[f [Hf Hcf]] Hi] [[g [Hg Hcg]] Hj].
  destruct (Nat.lt_trichotomy i j) as [H|[H|H]]; [|exact H|].
  - rewrite (Hj i f H Hf) in Hcf. discriminate.
  - rewrite (Hi j g H Hg) in Hcg. discriminate.
Qed.

Lemma lastAt_or_none cond fs : (exists i, lastAt cond fs i) \/ noneOf cond fs.
Proof.
  induction fs as [|f fs IH].
  - right. intros g [].
  - destruct IH as [[i [Hi Hgt]]|Hn].
    + left. exists (S i). split; [exact Hi|].
      intros [|j] g Hj Hg; [lia|]. simpl in Hg. apply (Hgt j); [lia | exact Hg].
    + destruct (cond f) eqn:Hf.
      * left. exists 0%nat. split; [exists f; auto|].
        intros [|j] g Hj Hg; [lia|]. simpl in Hg. eapply noneOf_nth; eauto.
      * right. apply noneOf_cons; assumption.
Qed.

Lemma lastAt_unique cond fs i j : lastAt cond fs i -> lastAt cond fs j -> i = j.
Proof.
  intros [[f [Hf Hcf]] Hi] [[g [Hg Hcg]] Hj].
  destruct (Nat.lt_trichotomy i j) as [H|[H|H]]; [|exact H|].
  - rewrite (Hi j g H Hg) in Hcg. discriminate.
  - rewrite (Hj i f H Hf) in Hcf. discriminate.
Qed.

(** Once a pointer is retained, descriptors that are not good video
    descriptors never replace it. *)
Lemma videoLoop_keep fs k b :
  noneOf goodVideo fs -> videoLoop fs k (Some b) = Some b.
Proof.
  revert k; induction fs as [|f fs IH]; intros k Hn; simpl; [reflexivity|].
  apply noneOf_inv in Hn as [Hf Hn]. unfold goodVideo in Hf.
  destruct (isVideo f); simpl in *; [rewrite Hf|]; apply IH; exact Hn.
Qed.

(** With nothing retained and no good video descriptor ahead, the loop keeps
    the first video descriptor. *)
Lemma videoLoop_first fs k :
  noneOf goodVideo fs -> videoLoop fs k None = scanFirst isVideo fs k.
Proof.
  revert k; induction fs as [|f fs IH]; intros k Hn; simpl; [reflexivity|].
  apply noneOf_inv in Hn as [Hf Hn].
  destruct (isVideo f); simpl; [apply videoLoop_keep; exact Hn | apply IH; exact Hn].
Qed.

(** The last good video descriptor wins, whatever was retained before. *)
Lemma videoLoop_last fs k best i :
  lastAt goodVideo fs i -> videoLoop fs k best = Some (k + i)%nat.
Proof.
  revert k best i; induction fs as [|f fs IH]; intros k best i [[g [Hg Hc]] Hgt].
  - destruct i; discriminate.
  - simpl. destruct i as [|i].
    + simpl in Hg. injection Hg as ->.
      unfold goodVideo in Hc. apply andb_true_iff in Hc as [Hv Ht].
      rewrite Hv, Ht, orb_true_r. rewrite videoLoop_keep; [f_equal; lia|].
      intros h Hh. apply In_nth_error in Hh as [j Hj].
      apply (Hgt (S j)); [lia | exact Hj].
    + rewrite (IH (S k) _ i); [f_equal; lia|].
      split; [exists g; auto|].
      intros j h Hj Hh. apply (Hgt (S j)); [lia | exact Hh].
Qed.

Lemma noneOf_good_of_video fs : noneOf isVideo fs -> noneOf goodVideo fs.
Proof.
  intros H g Hg. unfold goodVideo. rewrite (H g Hg). reflexivity.
Qed.

(** The index a scan returns lies within the sequence. *)
Lemma scanFirst_bound cond fs k i :
  scanFirst cond fs k = Some i -> (k <= i < k + length fs)%nat.
Proof.
  revert k; induction fs as [|f fs IH]; intros k H; simpl in H; [discriminate|].
  destruct (cond f).
  - inversion H; subst. simpl. lia.
  - specialize (IH _ H). simpl. lia.
Qed.

Lemma videoLoop_bound fs k best i :
  videoLoop fs k best = Some i -> best = Some i \/ (k <= i < k + length fs)%nat.
Proof.
  revert k best; induction fs as [|f fs IH]; intros k best H; simpl in H; [auto|].
  destruct (IH _ _ H) as [Hb|Hr]; [|right; simpl; lia].
  destruct (isVideo f); [|auto].
  destruct ((match best with None => true | Some _ => false end) || negb (isTiny f));
    [|auto].
  inversion Hb; subst. right. simpl. lia.
Qed.

(** With a validated download type [selectFormat] returns, and a pointer it
    returns designates a descriptor of the sequence. *)
Lemma selectFormat_named_modes (c : DownloadConfig) (video : Video) :
  Main.validType c = true ->
  exists p, selectFormat c video = Ret p /\
    forall i, p = Some i -> (i < length (Formats video))%nat.
Proof.
  unfold Main.validType, selectFormat. intros Hv.
  destruct (streq (DownloadType c) (str "audio")).
  - eexists. split; [reflexivity|]. intros i Hi. unfold selectBestAudioFormat in Hi.
    destruct (scanFirst isAudio (Formats video) 0) as [j|] eqn:E1.
    + inversion Hi; subst. pose proof (scanFirst_bound _ _ _ _ E1). lia.
    + destruct (scanFirst hasAudio (Formats video) 0) as [j|] eqn:E2; [|discriminate].
      inversion Hi; subst. pose proof (scanFirst_bound _ _ _ _ E2). lia.
  - cbn [orb] in Hv. rewrite Hv. eexists. split; [reflexivity|]. intros i Hi.
    unfold selectBestVideoFormat in Hi.
    destruct (videoLoop_bound _ _ _ _ Hi) as [Hb|Hr]; [discriminate | lia].
Qed.

(** [main] only builds the downloader with a validated download type. *)
Lemma startup_type_valid osArgs url config :
  Main.mainStartup osArgs = Main.Start url config -> Main.validType config = true.
Proof.
  unfold Main.mainStartup. destruct (length osArgs <? 2)%nat; [discriminate|].
  destruct (Main.validType (Main.parseArgs Main.defaultConfig (skipn 2 osArgs))) eqn:V;
    [|discriminate].
  intros H. injection H as _ <-. exact V.
Qed.

End SelectorFacts.

Module SelectorClaims.
Import Selector GoStringFacts SelectorFacts.

(** C1. In audio mode [selectFormat] returns the first descriptor whose
    media type begins with ["audio/"]; if the sequence has none, the first
    descriptor with more than zero audio channels; if it has neither, [nil].
    On [[{video/mp4, 2 channels}; {audio/mp4, 2 channels}]] it returns the
    [audio/mp4] entry. *)
Theorem C1_audio_mode :
  (forall (dir quality : gostring) (parallel : Z) (title : gostring)
          (fs : list Format),
     let r := selectFormat (mkConfig dir (str "audio") quality parallel)
                           (mkVideo title fs) in
     (exists i, firstAt isAudio fs i /\ r = Ret (Some i)) \/
     (noneOf isAudio fs /\ exists i, firstAt hasAudio fs i /\ r = Ret (Some i)) \/
     (noneOf isAudio fs /\ noneOf hasAudio fs /\ r = Ret None)) /\
  (let v := vid [fmt "video/mp4" "medium" 2; fmt "audio/mp4" "medium" 2] in
   selectFormat (cfgOf (str "audio")) v = Ret (Some 1%nat) /\
   deref v (Some 1%nat) = Some (fmt "audio/mp4" "medium" 2)).
Proof.
  split.
  - intros dir quality parallel title fs r. subst r.
    unfold selectFormat, selectBestAudioFormat; simpl.
    destruct (scanFirst_spec isAudio fs 0) as [[i [Hi Hs]]|[Hn Hs]]; rewrite Hs.
    + left. exists i. auto.
    + right. destruct (scanFirst_spec hasAudio fs 0) as [[i [Hi Hs']]|[Hn' Hs']];
        rewrite Hs'.
      * left. split; [exact Hn|]. exists i. auto.
      * right. auto.
  - split; reflexivity.
Qed.

(** C2, counterexample. On two ["tiny"] video descriptors the first one is
    returned although it is not the only video descriptor present. *)
Lemma C2_tiny_not_sole :
  ~ tinyOnlyWhenSole [fmt "video/mp4" "tiny" 0; fmt "video/webm" "tiny" 0].
Proof.
  intros H.
  specialize (H 0%nat (fmt "video/mp4" "tiny" 0) eq_refl eq_refl eq_refl
                1%nat (fmt "video/webm" "tiny" 0) eq_refl eq_refl).
  discriminate H.
Qed.

(** C2, as amended. In video mode [selectFormat] returns the last descriptor
    whose media type begins with ["video/"] and whose quality label is not
    ["tiny"]; when every video descriptor is ["tiny"] it returns the first
    video descriptor (so a sole ["tiny"] video descriptor is returned); and it
    returns [nil] exactly when no media type begins with ["video/"]. *)
Theorem C2_video_mode :
  (forall (dir quality : gostring) (parallel : Z) (title : gostring)
          (fs : list Format),
     let r := selectFormat (mkConfig dir (str "video") quality parallel)
                           (mkVideo title fs) in
     ((exists i, lastAt goodVideo fs i /\ r = Ret (Some i)) \/
      (noneOf goodVideo fs /\ exists i, firstAt isVideo fs i /\ r = Ret (Some i)) \/
      (noneOf isVideo fs /\ r = Ret None)) /\
     (r = Ret None <-> noneOf isVideo fs)) /\
  (let v := vid [fmt "video/mp4" "tiny" 0; fmt "video/webm" "medium" 0;
                 fmt "video/mp4" "tiny" 0] in
   selectFormat (cfgOf (str "video")) v = Ret (Some 1%nat) /\
   deref v (Some 1%nat) = Some (fmt "video/webm" "medium" 0)) /\
  (let v := vid [fmt "video/mp4" "tiny" 0] in
   selectFormat (cfgOf (str "video")) v = Ret (Some 0%nat) /\
   deref v (Some 0%nat) = Some (fmt "video/mp4" "tiny" 0)).
Proof.
  split; [|split; split; reflexivity].
  intros dir quality parallel title fs r.
  assert (Hcases :
    (exists i, lastAt goodVideo fs i /\ r = Ret (Some i)) \/
    (noneOf goodVideo fs /\ exists i, firstAt isVideo fs i /\ r = Ret (Some i)) \/
    (noneOf isVideo fs /\ r = Ret None)).
  { subst r. unfold selectFormat, selectBestVideoFormat; simpl.
    destruct (lastAt_or_none goodVideo fs) as [[i Hi]|Hn].
    - left. exists i. split; [exact Hi|].
      rewrite (videoLoop_last fs 0 None i Hi). reflexivity.
    - right. rewrite (videoLoop_first fs 0 Hn).
      destruct (scanFirst_spec isVideo fs 0) as [[i [Hi Hs]]|[Hn' Hs]]; rewrite Hs.
      + left. split; [exact Hn|]. exists i. auto.
      + right. auto. }
  split; [exact Hcases|].
  split.
  - intros Hr. destruct Hcases as [[i [_ Hi]]|[[_ [i [_ Hi]]]|[Hn _]]];
      [congruence | congruence | exact Hn].
  - intros Hn. destruct Hcases as [[i [Hi _]]|[[_ [i [Hi _]]]|[_ Hr]]];
      [|exfalso; eapply firstAt_not_none; eauto | exact Hr].
    exfalso. destruct Hi as [[f [Hf Hc]] _].
    rewrite (noneOf_nth _ _ _ _ (noneOf_good_of_video fs Hn) Hf) in Hc. discriminate.
Qed.

(** C9, counterexample. With the download type ["both"] and the empty
    sequence [selectFormat] does not return: its default branch takes the
    address of element 0 of an empty slice and panics. *)
Lemma C9_default_panics_on_empty : ~ returnsNormally (str "both") [].
Proof. intros [p H]. discriminate H. Qed.

(** C9, as amended. With a download type that the validation of [main]
    admits (["audio"] or ["video"]) [selectFormat] returns on every sequence,
    the empty one included, and what it returns is [nil] or a pointer to a
    descriptor of the sequence; [main] builds the downloader with such a type
    only, so no run reaches the default branch. With any other type
    [selectFormat] returns the first descriptor of a sequence that is not
    empty; on the empty sequence that branch panics. *)
Theorem C9_selectFormat_total_when_validated :
  (forall (c : DownloadConfig) (video : Video),
     Main.validType c = true ->
     exists p, selectFormat c video = Ret p /\
       forall i, p = Some i -> (i < length (Formats video))%nat) /\
  (forall osArgs url config,
     Main.mainStartup osArgs = Main.Start url config ->
     Main.validType config = true /\
     forall video, exists p, selectFormat config video = Ret p) /\
  (forall (c : DownloadConfig) (title : gostring) (f : Format) (fs : list Format),
     Main.validType c = false ->
     selectFormat c (mkVideo title (f :: fs)) = Ret (Some 0%nat)) /\
  (forall (c : DownloadConfig) (title : gostring),
     Main.validType c = false ->
     selectFormat c (mkVideo title [])
       = Panic "index out of range [0] with length 0").
Proof.
  split; [exact selectFormat_named_modes|]. split; [|split].
  - intros osArgs url config Hs.
    pose proof (startup_type_valid osArgs url config Hs) as Hv.
    split; [exact Hv|]. intros video.
    destruct (selectFormat_named_modes config video Hv) as [p [Hp _]]. eauto.
  - intros c title f fs Hv. unfold Main.validType in Hv. apply orb_false_iff in Hv.
    destruct Hv as [Ha Hb]. unfold selectFormat. rewrite Ha, Hb. reflexivity.
  - intros c title Hv. unfold Main.validType in Hv. apply orb_false_iff in Hv.
    destruct Hv as [Ha Hb]. unfold selectFormat. rewrite Ha, Hb. reflexivity.
Qed.

End SelectorClaims.

(** ** Slices and indexing *)

Module SliceFacts.
Import GoStringFacts.

Lemma len_nonneg (s : gostring) : 0 <= len s.
Proof. unfold len; lia. Qed.

Lemma len_nil : len [] = 0.
Proof. reflexivity. Qed.

Lemma len_cons c (s : gostring) : len (c :: s) = len s + 1.
Proof. unfold len; simpl length; lia. Qed.

Lemma len_app (s t : gostring) : len (s ++ t) = len s + len t.
Proof. unfold len; rewrite length_app; lia. Qed.

Lemma len_slice (s : gostring) a b :
  0 <= a -> a <= b -> b <= len s -> len (slice s a b) = b - a.
Proof.
  unfold len, slice; intros. rewrite length_firstn, length_skipn. lia.
Qed.

Lemma slice_all (s : gostring) : slice s 0 (len s) = s.
Proof.
  unfold slice, len. simpl skipn. rewrite Z.sub_0_r, Nat2Z.id. apply firstn_all.
Qed.

Lemma slice_empty (s : gostring) a b : b <= a -> slice s a b = [].
Proof.
  unfold slice; intros. replace (Z.to_nat (b - a)) with 0%nat by lia. reflexivity.
Qed.

Lemma slice_to_end (s : gostring) a :
  0 <= a -> slice s a (len s) = skipn (Z.to_nat a) s.
Proof.
  unfold slice, len; intros. apply firstn_all2. rewrite length_skipn. lia.
Qed.

Lemma slice_from_start (s : gostring) b : slice s 0 b = firstn (Z.to_nat b) s.
Proof. unfold slice. simpl skipn. rewrite Z.sub_0_r. reflexivity. Qed.

(** A slice of a slice is a slice of the string. *)
Lemma slice_slice (s : gostring) a b c d :
  0 <= a -> 0 <= c -> c <= d -> d <= b - a ->
  slice (slice s a b) c d = slice s (a + c) (a + d).
Proof.
  unfold slice; intros.
  rewrite skipn_firstn_comm, firstn_firstn, skipn_skipn.
  f_equal; [lia|]. f_equal. lia.
Qed.

Lemma firstn_plus (m n : nat) (l : gostring) :
  firstn (m + n) l = firstn m l ++ firstn n (skipn m l).
Proof.
  revert l; induction m as [|m IH]; intros l; [reflexivity|].
  destruct l as [|c l]; simpl; [destruct n; reflexivity|].
  rewrite IH. reflexivity.
Qed.

(** Splitting a slice at an inner index. *)
Lemma slice_split (s : gostring) a b c :
  0 <= a -> a <= b -> b <= c ->
  slice s a c = slice s a b ++ slice s b c.
Proof.
  unfold slice; intros.
  replace (Z.to_nat (c - a)) with (Z.to_nat (b - a) + Z.to_nat (c - b))%nat by lia.
  rewrite firstn_plus. f_equal. rewrite skipn_skipn. do 2 f_equal. lia.
Qed.

Lemma idx_slice (s : gostring) a b i :
  0 <= a -> 0 <= i -> i < b - a -> idx (slice s a b) i = idx s (a + i).
Proof.
  unfold idx, slice; intros. f_equal.
  rewrite nth_firstn. replace (Z.to_nat i <? Z.to_nat (b - a))%nat with true
    by (symmetry; apply Nat.ltb_lt; lia).
  rewrite nth_skipn. f_equal. lia.
Qed.

Lemma idx_app_l (s t : gostring) i :
  0 <= i -> i < len s -> idx (s ++ t) i = idx s i.
Proof.
  unfold idx, len; intros. f_equal. apply app_nth1. lia.
Qed.

Lemma idx_range (s : gostring) i : 0 <= idx s i < 256.
Proof. apply b2z_range. Qed.

Lemma slice_nonempty (s : gostring) a b :
  0 <= a -> a < b -> b <= len s -> slice s a b <> [].
Proof.
  intros Ha Hab Hb H. assert (L : len (slice s a b) = b - a) by (apply len_slice; lia).
  rewrite H in L. rewrite len_nil in L. lia.
Qed.

End SliceFacts.

(** ** UTF-8 decoding *)

Module Utf8Facts.
Import Utf8 GoStringFacts SliceFacts.

Ltac bool2prop :=
  repeat match goal with
  | H : (_ || _) = true |- _ => apply orb_true_iff in H
  | H : (_ || _) = false |- _ => apply orb_false_iff in H; destruct H
  | H : (_ && _) = true |- _ => apply andb_true_iff in H; destruct H
  | H : (_ && _) = false |- _ => apply andb_false_iff in H
  | H : negb _ = true |- _ => apply negb_true_iff in H
  | H : negb _ = false |- _ => apply negb_false_iff in H
  | H : (_ <? _) = true |- _ => apply Z.ltb_lt in H
  | H : (_ <? _) = false |- _ => apply Z.ltb_ge in H
  | H : (_ <=? _) = true |- _ => apply Z.leb_le in H
  | H : (_ <=? _) = false |- _ => apply Z.leb_gt in H
  | H : (_ =? _) = true |- _ => apply Z.eqb_eq in H
  | H : (_ =? _) = false |- _ => apply Z.eqb_neq in H
  end.

Ltac split_if :=
  match goal with
  | |- context [if ?c then _ else _] => destruct c eqn:?
  | H : context [if ?c then _ else _] |- _ => destruct c eqn:?
  end.

(** The rows of [first]: ASCII, invalid, or a lead byte with its width and
    the range accepted for the second byte. *)
Lemma first_cases (b : Z) :
  (b < 0x80 /\ first b = as_) \/
  (0x80 <= b /\ first b = xx) \/
  (0xC2 <= b <= 0xF4 /\ first b < as_ /\ 2 <= Z.land (first b) 7 <= 4 /\
   0x80 <= lo (acceptRanges (Z.shiftr (first b) 4)) /\
   hi (acceptRanges (Z.shiftr (first b) 4)) <= 0xBF).
Proof.
  unfold first.
  repeat (split_if; bool2prop;
          [solve [ left; split; [lia | reflexivity]
                 | right; left; split; [lia | reflexivity]
                 | right; right; split; [lia | vm_compute; repeat split; congruence] ] |]).
  right; left; split; [lia | reflexivity].
Qed.

Lemma len_pos_of_nonempty (s : gostring) : s <> [] -> 1 <= len s.
Proof. destruct s; [congruence | rewrite len_cons; pose proof (len_nonneg s); lia]. Qed.

Lemma decode_ascii (s : gostring) :
  s <> [] -> idx s 0 < 0x80 -> DecodeRuneInString s = (idx s 0, 1).
Proof.
  intros Hs H0. apply len_pos_of_nonempty in Hs. unfold DecodeRuneInString.
  destruct (first_cases (idx s 0)) as [[_ E]|[[? _]|[[? _] _]]]; try lia.
  rewrite E. cbv zeta. split_if; bool2prop; [lia|]. reflexivity.
Qed.

(** Appending bytes does not change a rune that decoded as ASCII or with a
    width of two or more. *)
Lemma decode_ext (s u : gostring) :
  s <> [] ->
  (2 <= snd (DecodeRuneInString s) \/ idx s 0 < 0x80) ->
  DecodeRuneInString (s ++ u) = DecodeRuneInString s.
Proof.
  intros Hs Hv. pose proof (len_pos_of_nonempty s Hs) as Hn.
  pose proof (len_nonneg u) as Hu.
  destruct (first_cases (idx s 0)) as [[H0 E]|[[H0 E]|[[H0 _] [E [Hsz [Hlo Hhi]]]]]].
  - assert (E0 : idx (s ++ u) 0 = idx s 0) by (apply idx_app_l; lia).
    assert (Hne : s ++ u <> []) by (destruct s; [congruence | discriminate]).
    rewrite (decode_ascii (s ++ u) Hne) by lia.
    rewrite (decode_ascii s Hs H0), E0. reflexivity.
  - exfalso. destruct Hv as [Hv|Hv]; [|lia].
    unfold DecodeRuneInString in Hv. rewrite E in Hv. cbv zeta in Hv.
    repeat (split_if; bool2prop; simpl in Hv; try lia).
  - destruct Hv as [Hv|Hv]; [|lia].
    unfold DecodeRuneInString in *. cbv zeta in *.
    rewrite len_app.
    rewrite (idx_app_l s u 0) by lia.
    set (x := first (idx s 0)) in *.
    set (sz := Z.land x 7) in *.
    set (acc := acceptRanges (Z.shiftr x 4)) in *.
    destruct (len s <? 1) eqn:K1; bool2prop; [lia|].
    destruct (len s + len u <? 1) eqn:K1'; bool2prop; [lia|].
    destruct (as_ <=? x) eqn:K2; bool2prop; [unfold as_ in *; lia|].
    destruct (len s <? sz) eqn:K3; bool2prop; [simpl in Hv; lia|].
    destruct (len s + len u <? sz) eqn:K3'; bool2prop; [lia|].
    rewrite (idx_app_l s u 1) by lia.
    destruct ((idx s 1 <? lo acc) || (hi acc <? idx s 1)) eqn:K4; [simpl in Hv; lia|].
    destruct (sz <=? 2) eqn:K5; bool2prop; [reflexivity|].
    rewrite (idx_app_l s u 2) by lia.
    destruct ((idx s 2 <? locb) || (hicb <? idx s 2)) eqn:K6; [simpl in Hv; lia|].
    destruct (sz <=? 3) eqn:K7; bool2prop; [reflexivity|].
    rewrite (idx_app_l s u 3) by lia.
    reflexivity.
Qed.

(** A non-empty string decodes to a rune of one to four bytes, all of them
    bytes of the string. *)
Lemma decode_size (s : gostring) :
  s <> [] -> 1 <= snd (DecodeRuneInString s) <= 4 /\
             snd (DecodeRuneInString s) <= len s.
Proof.
  intros Hs. pose proof (len_pos_of_nonempty s Hs) as Hn.
  destruct (first_cases (idx s 0)) as [[H0 E]|[[H0 E]|[[H0 _] [E [Hsz [Hlo Hhi]]]]]];
    unfold DecodeRuneInString; cbv zeta; try rewrite E.
  - split_if; bool2prop; simpl; lia.
  - split_if; bool2prop; simpl; lia.
  - set (x := first (idx s 0)) in *. set (sz := Z.land x 7) in *.
    repeat (split_if; bool2prop; simpl; try lia).
Qed.

(** A width of one on a non-ASCII byte is the mark of a malformed
    encoding. *)
Lemma decode_size1_error (s : gostring) :
  s <> [] -> 0x80 <= idx s 0 -> snd (DecodeRuneInString s) = 1 ->
  fst (DecodeRuneInString s) = RuneError.
Proof.
  intros Hs H0 H1. pose proof (len_pos_of_nonempty s Hs) as Hn.
  destruct (first_cases (idx s 0)) as [[H0' E]|[[_ E]|[_ [E [Hsz [Hlo Hhi]]]]]];
    [lia | |]; unfold DecodeRuneInString in *; cbv zeta in *; try rewrite E in *.
  - split_if; bool2prop; [lia|]. reflexivity.
  - set (x := first (idx s 0)) in *. set (sz := Z.land x 7) in *.
    repeat (split_if; bool2prop; simpl in *; try lia; try reflexivity).
Qed.

(** A rune of two or more bytes starts with a lead byte. *)
Lemma decode_lead (s : gostring) :
  s <> [] -> 2 <= snd (DecodeRuneInString s) -> 0xC2 <= idx s 0.
Proof.
  intros Hs H2. pose proof (len_pos_of_nonempty s Hs) as Hn.
  destruct (first_cases (idx s 0)) as [[H0' E]|[[_ E]|[[H0 _] _]]]; [| |lia];
    exfalso; unfold DecodeRuneInString in H2; cbv zeta in H2; rewrite E in H2;
    (split_if; bool2prop; simpl in H2; lia).
Qed.

(** A non-ASCII byte followed by nothing, or by a byte that is not a
    continuation byte, decodes with width one. *)
Lemma decode_lone (s : gostring) :
  s <> [] -> 0x80 <= idx s 0 ->
  (len s = 1 \/ idx s 1 < 0x80 \/ 0xBF < idx s 1) ->
  snd (DecodeRuneInString s) = 1.
Proof.
  intros Hs H0 H1. pose proof (len_pos_of_nonempty s Hs) as Hn.
  destruct (first_cases (idx s 0)) as [[H0' E]|[[_ E]|[_ [E [Hsz [Hlo Hhi]]]]]];
    [lia | |]; unfold DecodeRuneInString; cbv zeta; try rewrite E.
  - split_if; bool2prop; [lia|]. reflexivity.
  - set (x := first (idx s 0)) in *. set (sz := Z.land x 7) in *.
    set (acc := acceptRanges (Z.shiftr x 4)) in *.
    destruct (len s <? 1) eqn:K1; bool2prop; [lia|].
    destruct (as_ <=? x) eqn:K2; bool2prop; [reflexivity|].
    destruct (len s <? sz) eqn:K3; bool2prop; [reflexivity|].
    destruct ((idx s 1 <? lo acc) || (hi acc <? idx s 1)) eqn:K4; [reflexivity|].
    bool2prop. lia.
Qed.

Lemma IsSpace_RuneError : Unicode.IsSpace RuneError = false.
Proof. reflexivity. Qed.

(** A white-space rune is never the product of a malformed encoding: it
    decoded as ASCII or with a width of two or more. *)
Lemma decode_space_valid (s : gostring) :
  s <> [] -> Unicode.IsSpace (fst (DecodeRuneInString s)) = true ->
  2 <= snd (DecodeRuneInString s) \/ idx s 0 < 0x80.
Proof.
  intros Hs Hsp. destruct (Z_lt_le_dec (idx s 0) 0x80) as [|H0]; [right; assumption|].
  left. destruct (decode_size s Hs) as [[H1 _] _].
  destruct (Z.eq_dec (snd (DecodeRuneInString s)) 1) as [E|]; [|lia].
  rewrite (decode_size1_error s Hs H0 E), IsSpace_RuneError in Hsp. discriminate.
Qed.

(** The first byte of a white-space rune is not a continuation byte. *)
Lemma decode_space_head (s : gostring) :
  s <> [] -> Unicode.IsSpace (fst (DecodeRuneInString s)) = true ->
  idx s 0 < 0x80 \/ 0xBF < idx s 0.
Proof.
  intros Hs Hsp. destruct (decode_space_valid s Hs Hsp) as [H|H]; [|left; exact H].
  right. pose proof (decode_lead s Hs H). lia.
Qed.

(** The backward scan stops between [lim - 1] and where it started. *)
Lemma backScan_bounds fuel (s : gostring) start lim :
  lim <= start + 1 -> lim - 1 <= backScan fuel s start lim <= start.
Proof.
  revert start; induction fuel as [|fuel IH]; intros start H; simpl; [lia|].
  destruct (lim <=? start) eqn:C; bool2prop; [|lia].
  destruct (RuneStart (idx s start)); [lia|].
  specialize (IH (start - 1)). lia.
Qed.

(** The scan never runs out of fuel: from [end - 2] down to
    [lim >= end - UTFMax] it makes at most three probes. *)
Lemma backScan_fuel fuel (s : gostring) start lim :
  start - lim < Z.of_nat fuel ->
  backScan (S fuel) s start lim = backScan fuel s start lim.
Proof.
  revert start; induction fuel as [|fuel IH]; intros start H.
  - simpl. destruct (lim <=? start) eqn:C; bool2prop; [lia | reflexivity].
  - change (backScan (S (S fuel)) s start lim) with
      (if lim <=? start then
         if RuneStart (idx s start) then start
         else backScan (S fuel) s (start - 1) lim
       else start).
    rewrite IH by lia. reflexivity.
Qed.

Lemma decodeLast_ascii (s : gostring) :
  s <> [] -> idx s (len s - 1) < 0x80 ->
  DecodeLastRuneInString s = (idx s (len s - 1), 1).
Proof.
  intros Hs H. apply len_pos_of_nonempty in Hs. unfold DecodeLastRuneInString.
  cbv zeta. destruct (len s =? 0) eqn:C; bool2prop; [lia|].
  unfold RuneSelf. destruct (idx s (len s - 1) <? 128) eqn:C'; bool2prop; [reflexivity | lia].
Qed.

(** On a non-ASCII last byte the result is either the malformed-encoding
    answer, or a rune of two or more bytes that the forward decoder reads
    off the last [size] bytes. *)
Lemma decodeLast_multi (s : gostring) :
  s <> [] -> 0x80 <= idx s (len s - 1) ->
  (DecodeLastRuneInString s = (RuneError, 1)) \/
  (2 <= snd (DecodeLastRuneInString s) <= len s /\
   DecodeRuneInString (slice s (len s - snd (DecodeLastRuneInString s)) (len s))
     = DecodeLastRuneInString s).
Proof.
  intros Hs H. pose proof (len_pos_of_nonempty s Hs) as Hn.
  unfold DecodeLastRuneInString. cbv zeta.
  destruct (len s =? 0) eqn:C; bool2prop; [lia|].
  unfold RuneSelf. destruct (idx s (len s - 1) <? 128) eqn:C'; bool2prop; [lia|].
  set (lim := if len s - UTFMax <? 0 then 0 else len s - UTFMax).
  assert (Hlim : 0 <= lim <= len s - 1).
  { subst lim. unfold UTFMax. split_if; bool2prop; lia. }
  pose proof (backScan_bounds (Z.to_nat UTFMax) s (len s - 1 - 1) lim ltac:(lia)) as Hb.
  set (b := backScan (Z.to_nat UTFMax) s (len s - 1 - 1) lim) in *.
  set (start := if b <? 0 then 0 else b).
  assert (Hstart : 0 <= start < len s).
  { subst start. split_if; bool2prop; lia. }
  assert (Hne : slice s start (len s) <> []) by (apply slice_nonempty; lia).
  pose proof (decode_size _ Hne) as [[Hs1 Hs4] Hsl].
  rewrite len_slice in Hsl by lia.
  destruct (DecodeRuneInString (slice s start (len s))) as [r size] eqn:ED.
  simpl in Hs1, Hs4, Hsl.
  destruct (negb (start + size =? len s)) eqn:K2; bool2prop; [left; reflexivity|].
  destruct (Z.eq_dec size 1) as [->|Hsz].
  - left. f_equal.
    assert (E0 : idx (slice s start (len s)) 0 = idx s (len s - 1)).
    { rewrite idx_slice by lia. f_equal. lia. }
    pose proof (decode_size1_error _ Hne ltac:(rewrite E0; lia)) as HE.
    rewrite ED in HE. simpl in HE. apply HE. reflexivity.
  - right. simpl. split; [lia|].
    replace (len s - size) with start by lia. exact ED.
Qed.

(** Whatever the last byte, a non-empty string yields a width between one
    and its length. *)
Lemma decodeLast_size (s : gostring) :
  s <> [] -> 1 <= snd (DecodeLastRuneInString s) <= len s.
Proof.
  intros Hs. pose proof (len_pos_of_nonempty s Hs) as Hn.
  destruct (Z_lt_le_dec (idx s (len s - 1)) 0x80) as [H|H].
  - rewrite decodeLast_ascii by assumption. simpl. lia.
  - destruct (decodeLast_multi s Hs H) as [E|[E _]]; [rewrite E; simpl|]; lia.
Qed.

(** A white-space rune found at the end is one the forward decoder reads
    off the last [size] bytes. *)
Lemma decodeLast_space (s : gostring) :
  s <> [] -> Unicode.IsSpace (fst (DecodeLastRuneInString s)) = true ->
  DecodeRuneInString (slice s (len s - snd (DecodeLastRuneInString s)) (len s))
    = DecodeLastRuneInString s.
Proof.
  intros Hs Hsp. pose proof (len_pos_of_nonempty s Hs) as Hn.
  destruct (Z_lt_le_dec (idx s (len s - 1)) 0x80) as [H|H].
  - rewrite decodeLast_ascii by assumption. simpl.
    assert (Hne : slice s (len s - 1) (len s) <> []) by (apply slice_nonempty; lia).
    assert (E0 : idx (slice s (len s - 1) (len s)) 0 = idx s (len s - 1)).
    { rewrite idx_slice by lia. f_equal. lia. }
    rewrite (decode_ascii _ Hne) by (rewrite E0; lia). rewrite E0. reflexivity.
  - destruct (decodeLast_multi s Hs H) as [E|[_ E]]; [|exact E].
    rewrite E in Hsp. simpl in Hsp. rewrite IsSpace_RuneError in Hsp. discriminate.
Qed.

(** A rune that decoded as ASCII or with a width of two or more depends only
    on its own bytes. *)
Lemma decode_restrict (s : gostring) :
  s <> [] ->
  (2 <= snd (DecodeRuneInString s) \/ idx s 0 < 0x80) ->
  DecodeRuneInString (slice s 0 (snd (DecodeRuneInString s))) = DecodeRuneInString s.
Proof.
  intros Hs Hv. pose proof (len_pos_of_nonempty s Hs) as Hn.
  pose proof (decode_size s Hs) as [[Hk1 Hk4] Hkl].
  destruct (DecodeRuneInString s) as [r k] eqn:E0. simpl in *.
  remember (slice s 0 k) as t eqn:Et.
  assert (Lt : len t = k) by (rewrite Et; rewrite len_slice; lia).
  assert (It : forall i, 0 <= i < k -> idx t i = idx s i).
  { intros i Hi. rewrite Et. rewrite idx_slice by lia. reflexivity. }
  assert (Ht : t <> []) by (rewrite Et; apply slice_nonempty; lia).
  clear Et.
  destruct (first_cases (idx s 0)) as [[H0 E]|[[H0 E]|[[H0 _] [E [Hsz [Hlo Hhi]]]]]].
  - rewrite (decode_ascii s Hs H0) in E0. inversion E0; subst r k.
    rewrite (decode_ascii t Ht) by (rewrite It; lia). rewrite It by lia. reflexivity.
  - exfalso. destruct Hv as [Hv|Hv]; [|lia].
    unfold DecodeRuneInString in E0. rewrite E in E0. cbv zeta in E0.
    repeat (split_if; bool2prop; inversion E0; try lia).
  - destruct Hv as [Hv|Hv]; [|lia].
    unfold DecodeRuneInString in *. cbv zeta in *.
    rewrite Lt, (It 0) by lia.
    set (x := first (idx s 0)) in *.
    set (sz := Z.land x 7) in *.
    set (acc := acceptRanges (Z.shiftr x 4)) in *.
    destruct (len s <? 1) eqn:K1; bool2prop; [lia|].
    destruct (k <? 1) eqn:K1'; bool2prop; [lia|].
    destruct (as_ <=? x) eqn:K2; bool2prop; [unfold as_ in *; lia|].
    destruct (len s <? sz) eqn:K3; bool2prop; [inversion E0; lia|].
    destruct ((idx s 1 <? lo acc) || (hi acc <? idx s 1)) eqn:K4; [inversion E0; lia|].
    rewrite (It 1) by lia. rewrite K4.
    destruct (Z.leb_spec sz 2) as [K5|K5].
    { inversion E0; subst. destruct (Z.ltb_spec 2 sz); [lia | reflexivity]. }
    destruct ((idx s 2 <? locb) || (hicb <? idx s 2)) eqn:K6; [inversion E0; lia|].
    destruct (Z.leb_spec sz 3) as [K7|K7].
    { inversion E0; subst. rewrite (It 2) by lia. rewrite K6.
      destruct (Z.ltb_spec 3 sz); [lia | reflexivity]. }
    destruct ((idx s 3 <? locb) || (hicb <? idx s 3)) eqn:K8; [inversion E0; lia|].
    inversion E0; subst. rewrite (It 2), (It 3) by lia. rewrite K6, K8.
    destruct (Z.ltb_spec 4 sz); [lia | reflexivity].
Qed.

End Utf8Facts.

(** ** White-space runs and the trimming functions *)

Module StringsFacts.
Import Utf8 Unicode Strings GoStringFacts SliceFacts Utf8Facts.

Lemma SpaceRun_unit (e : gostring) :
  e <> [] -> IsSpace (fst (DecodeRuneInString e)) = true ->
  snd (DecodeRuneInString e) = len e -> SpaceRun e.
Proof.
  intros He Hsp Hk. apply SR_cons; auto.
  rewrite Hk. unfold len. rewrite Nat2Z.id, skipn_all. constructor.
Qed.

Lemma SpaceRun_first (s : gostring) :
  SpaceRun s -> s <> [] -> IsSpace (fst (DecodeRuneInString s)) = true.
Proof. intros H Hs. inversion H; subst; [congruence | assumption]. Qed.

Lemma SpaceRun_head (s : gostring) :
  SpaceRun s -> s = [] \/ idx s 0 < 0x80 \/ 0xBF < idx s 0.
Proof.
  intros H. destruct s as [|c s]; [left; reflexivity|]. right.
  apply decode_space_head; [discriminate|]. apply SpaceRun_first; [exact H | discriminate].
Qed.

Lemma skipn_app_le (a b : gostring) k :
  0 <= k <= len a -> skipn (Z.to_nat k) (a ++ b) = skipn (Z.to_nat k) a ++ b.
Proof.
  intros Hk. rewrite skipn_app.
  replace (Z.to_nat k - length a)%nat with 0%nat by (unfold len in Hk; lia).
  reflexivity.
Qed.

Lemma SpaceRun_app (a b : gostring) : SpaceRun a -> SpaceRun b -> SpaceRun (a ++ b).
Proof.
  intros Ha Hb. induction Ha as [|s Hs Hsp _ IH]; [exact Hb|].
  pose proof (decode_size s Hs) as [[Hk1 _] Hkl].
  pose proof (decode_ext s b Hs (decode_space_valid s Hs Hsp)) as E.
  apply SR_cons.
  - destruct s; [congruence | discriminate].
  - rewrite E. exact Hsp.
  - rewrite E, skipn_app_le by lia. exact IH.
Qed.

Lemma SpaceRun_cancel (a b : gostring) : SpaceRun a -> SpaceRun (a ++ b) -> SpaceRun b.
Proof.
  intros Ha. induction Ha as [|s Hs Hsp _ IH]; intros Hab; [exact Hab|].
  pose proof (decode_size s Hs) as [[Hk1 _] Hkl].
  pose proof (decode_ext s b Hs (decode_space_valid s Hs Hsp)) as E.
  apply IH. inversion Hab as [Hnil | s' _ _ Hrest Es'].
  - destruct s; [congruence | discriminate].
  - rewrite E, skipn_app_le in Hrest by lia. exact Hrest.
Qed.

(** The rune at the front of a run of white space is itself a run. *)
Lemma SpaceRun_rune (s : gostring) :
  s <> [] -> IsSpace (fst (DecodeRuneInString s)) = true ->
  SpaceRun (slice s 0 (snd (DecodeRuneInString s))).
Proof.
  intros Hs Hsp. pose proof (decode_size s Hs) as [[Hk1 _] Hkl].
  pose proof (decode_restrict s Hs (decode_space_valid s Hs Hsp)) as E.
  apply SpaceRun_unit.
  - apply slice_nonempty; lia.
  - rewrite E. exact Hsp.
  - rewrite E, len_slice by lia. lia.
Qed.

(** ** [indexFunc] and [TrimLeftFunc] on [unicode.IsSpace] *)

Lemma indexFuncLoop_spec fuel (s : gostring) i :
  0 <= i <= len s -> len s - i <= Z.of_nat fuel -> SpaceRun (slice s 0 i) ->
  (indexFuncLoop fuel s IsSpace false i = -1 /\ SpaceRun s) \/
  (exists j, i <= j < len s /\ indexFuncLoop fuel s IsSpace false i = j /\
             IsSpace (fst (DecodeRuneInString (slice s j (len s)))) = false /\
             SpaceRun (slice s 0 j)).
Proof.
  revert i; induction fuel as [|fuel IH]; intros i Hi Hf Hpre.
  - left. split; [reflexivity|]. replace i with (len s) in Hpre by lia.
    rewrite slice_all in Hpre. exact Hpre.
  - simpl. destruct (i <? len s) eqn:C; bool2prop.
    2:{ left. split; [reflexivity|]. replace i with (len s) in Hpre by lia.
        rewrite slice_all in Hpre. exact Hpre. }
    assert (Hne : slice s i (len s) <> []) by (apply slice_nonempty; lia).
    pose proof (decode_size _ Hne) as [[Hk1 _] Hkl].
    rewrite len_slice in Hkl by lia.
    destruct (DecodeRuneInString (slice s i (len s))) as [r size] eqn:ED.
    simpl in Hk1, Hkl.
    destruct (IsSpace r) eqn:Hr; simpl.
    + assert (Hpre' : SpaceRun (slice s 0 (i + size))).
      { rewrite (slice_split s 0 i (i + size)) by lia.
        apply SpaceRun_app; [exact Hpre|].
        pose proof (SpaceRun_rune _ Hne) as HR. rewrite ED in HR. simpl in HR.
        specialize (HR Hr). rewrite slice_slice in HR by lia.
        replace (i + 0) with i in HR by lia. exact HR. }
      destruct (IH (i + size) ltac:(lia) ltac:(lia) Hpre') as [H|[j [Hj H]]].
      * left. exact H.
      * right. exists j. split; [lia | exact H].
    + right. exists i. rewrite ED. simpl. repeat split; try lia; assumption.
Qed.

Lemma TrimLeftFunc_spec (s : gostring) :
  (TrimLeftFunc s IsSpace = [] /\ SpaceRun s) \/
  (exists j, 0 <= j < len s /\ TrimLeftFunc s IsSpace = slice s j (len s) /\
             IsSpace (fst (DecodeRuneInString (slice s j (len s)))) = false /\
             SpaceRun (slice s 0 j)).
Proof.
  unfold TrimLeftFunc, indexFunc.
  destruct (indexFuncLoop_spec (length s) s 0) as [[E H]|[j [Hj [E H]]]].
  - pose proof (len_nonneg s). lia.
  - unfold len. lia.
  - rewrite slice_empty by lia. constructor.
  - left. rewrite E. simpl. auto.
  - right. exists j. rewrite E. destruct (j =? -1) eqn:C; bool2prop; [lia|].
    split; [lia|]. split; [reflexivity | exact H].
Qed.

(** ** [lastIndexFunc] and [TrimRightFunc] on [unicode.IsSpace] *)

(** From the index of the last rune of [s[0:e]], [TrimRightFunc] steps
    forward to [e] again, provided [s[e:]] does not start with a
    continuation byte. *)
Lemma trimRight_index (s : gostring) e :
  0 < e <= len s ->
  (e = len s \/ idx s e < 0x80 \/ 0xBF < idx s e) ->
  let i := e - snd (DecodeLastRuneInString (slice s 0 e)) in
  0 <= i < e /\
  (if (0 <=? i) && (RuneSelf <=? idx s i)
   then i + snd (DecodeRuneInString (slice s i (len s)))
   else i + 1) = e.
Proof.
  intros He Hnext.
  assert (Hne : slice s 0 e <> []) by (apply slice_nonempty; lia).
  assert (Hl : len (slice s 0 e) = e) by (rewrite len_slice; lia).
  assert (Hlast : idx (slice s 0 e) (e - 1) = idx s (e - 1)).
  { rewrite idx_slice by lia. f_equal. }
  pose proof (decodeLast_size _ Hne) as Hsz. rewrite Hl in Hsz.
  cbv zeta. split; [lia|].
  assert (Hlone : 0x80 <= idx s (e - 1) ->
                  snd (DecodeRuneInString (slice s (e - 1) (len s))) = 1).
  { intros H. apply decode_lone.
    - apply slice_nonempty; lia.
    - rewrite idx_slice by lia. replace (e - 1 + 0) with (e - 1) by lia. exact H.
    - destruct Hnext as [->|Hnext]; [left; rewrite len_slice; lia|].
      destruct (Z.eq_dec e (len s)) as [->|Hlt]; [left; rewrite len_slice; lia|].
      right. rewrite idx_slice by lia. replace (e - 1 + 1) with e by lia. exact Hnext. }
  destruct (Z_lt_le_dec (idx s (e - 1)) 0x80) as [H|H].
  - rewrite (decodeLast_ascii _ Hne) by (rewrite Hl, Hlast; exact H). simpl.
    unfold RuneSelf. destruct (Z.leb_spec 128 (idx s (e - 1))); [lia|].
    rewrite andb_false_r. lia.
  - destruct (decodeLast_multi _ Hne) as [E|[Hk E]].
    + rewrite Hl, Hlast. exact H.
    + rewrite E. simpl. unfold RuneSelf.
      destruct (Z.leb_spec 0 (e - 1)); [|lia].
      destruct (Z.leb_spec 128 (idx s (e - 1))); [|lia]. simpl.
      rewrite (Hlone H). lia.
    + rewrite Hl in *.
      set (k := snd (DecodeLastRuneInString (slice s 0 e))) in *.
      rewrite slice_slice in E by lia.
      replace (0 + (e - k)) with (e - k) in E by lia.
      replace (0 + e) with e in E by lia.
      assert (Hne' : slice s (e - k) e <> []) by (apply slice_nonempty; lia).
      assert (Hk' : snd (DecodeRuneInString (slice s (e - k) e)) = k)
        by (rewrite E; reflexivity).
      pose proof (decode_lead _ Hne' ltac:(lia)) as Hlead.
      rewrite idx_slice in Hlead by lia.
      replace (e - k + 0) with (e - k) in Hlead by lia.
      unfold RuneSelf.
      destruct (Z.leb_spec 0 (e - k)); [|lia].
      destruct (Z.leb_spec 128 (idx s (e - k))); [|lia]. simpl.
      rewrite (slice_split s (e - k) e (len s)) by lia.
      rewrite decode_ext by (auto; left; lia). lia.
Qed.

Lemma lastIndexFuncLoop_spec fuel (s : gostring) e :
  0 <= e <= len s -> e <= Z.of_nat fuel -> SpaceRun (slice s e (len s)) ->
  (lastIndexFuncLoop fuel s IsSpace false e = -1 /\ SpaceRun s) \/
  (exists e', 0 < e' <= e /\ SpaceRun (slice s e' (len s)) /\
     IsSpace (fst (DecodeLastRuneInString (slice s 0 e'))) = false /\
     lastIndexFuncLoop fuel s IsSpace false e =
       e' - snd (DecodeLastRuneInString (slice s 0 e'))).
Proof.
  revert e; induction fuel as [|fuel IH]; intros e He Hf Hpost.
  - left. split; [reflexivity|]. replace e with 0 in Hpost by lia.
    rewrite slice_all in Hpost. exact Hpost.
  - simpl. destruct (0 <? e) eqn:C; bool2prop.
    2:{ left. split; [reflexivity|]. replace e with 0 in Hpost by lia.
        rewrite slice_all in Hpost. exact Hpost. }
    assert (Hne : slice s 0 e <> []) by (apply slice_nonempty; lia).
    assert (Hl : len (slice s 0 e) = e) by (rewrite len_slice; lia).
    pose proof (decodeLast_size _ Hne) as Hsz. rewrite Hl in Hsz.
    pose proof (decodeLast_space _ Hne) as Hsp. rewrite Hl in Hsp.
    destruct (DecodeLastRuneInString (slice s 0 e)) as [r size] eqn:ED.
    simpl in Hsz, Hsp.
    destruct (IsSpace r) eqn:Hr; simpl.
    + specialize (Hsp eq_refl).
      rewrite slice_slice in Hsp by lia.
      replace (0 + (e - size)) with (e - size) in Hsp by lia.
      replace (0 + e) with e in Hsp by lia.
      assert (Hpost' : SpaceRun (slice s (e - size) (len s))).
      { rewrite (slice_split s (e - size) e (len s)) by lia.
        apply SpaceRun_app; [|exact Hpost].
        apply SpaceRun_unit.
        - apply slice_nonempty; lia.
        - rewrite Hsp. exact Hr.
        - rewrite Hsp, len_slice by lia. simpl. lia. }
      destruct (IH (e - size) ltac:(lia) ltac:(lia) Hpost') as [H|[e' [He' H]]].
      * left. exact H.
      * right. exists e'. split; [lia | exact H].
    + right. exists e. rewrite ED. simpl. repeat split; try lia; assumption.
Qed.

Lemma TrimRightFunc_spec (s : gostring) :
  (TrimRightFunc s IsSpace = [] /\ SpaceRun s) \/
  (exists e, 0 < e <= len s /\ TrimRightFunc s IsSpace = slice s 0 e /\
             IsSpace (fst (DecodeLastRuneInString (slice s 0 e))) = false /\
             SpaceRun (slice s e (len s))).
Proof.
  unfold TrimRightFunc, lastIndexFunc.
  destruct (lastIndexFuncLoop_spec (length s) s (len s)) as [[E H]|[e [He [Hpost [Hr E]]]]].
  - pose proof (len_nonneg s). lia.
  - unfold len. lia.
  - rewrite slice_empty by lia. constructor.
  - left. rewrite E. simpl. auto.
  - right. exists e. rewrite E.
    destruct (trimRight_index s e ltac:(lia)) as [_ Hi].
    { destruct (Z.eq_dec e (len s)) as [->|Hlt]; [left; reflexivity|]. right.
      destruct (SpaceRun_head _ Hpost) as [H0|H0].
      - exfalso. revert H0. apply slice_nonempty; lia.
      - rewrite idx_slice in H0 by lia. replace (e + 0) with e in H0 by lia. exact H0. }
    cbv zeta in Hi. rewrite Hi. auto.
Qed.

(** ** [TrimSpace] *)

(** On ASCII the table [asciiSpace] and [unicode.IsSpace] agree. *)
Lemma asciiSpace_IsSpace (c : Z) :
  0 <= c < 0x80 -> (asciiSpace c =? 0) = negb (IsSpace c).
Proof.
  intros Hc. unfold asciiSpace, IsSpace.
  destruct (Z.leb_spec 0 c); [|lia]. destruct (Z.leb_spec c 0xFF); [|lia]. simpl.
  destruct (Z.eqb_spec c 0x85); [lia|]. destruct (Z.eqb_spec c 0xA0); [lia|].
  rewrite !orb_false_r.
  destruct ((c =? 9) || (c =? 10) || (c =? 11) || (c =? 12) || (c =? 13) || (c =? 32));
    reflexivity.
Qed.

Lemma IsSpace_ascii_true (c : Z) :
  0 <= c < 0x80 -> (asciiSpace c =? 0) = false -> IsSpace c = true.
Proof.
  intros Hc H. rewrite asciiSpace_IsSpace in H by assumption.
  destruct (IsSpace c); [reflexivity | discriminate].
Qed.

Lemma IsSpace_ascii_false (c : Z) :
  0 <= c < 0x80 -> (asciiSpace c =? 0) = true -> IsSpace c = false.
Proof.
  intros Hc H. rewrite asciiSpace_IsSpace in H by assumption.
  destruct (IsSpace c); [discriminate | reflexivity].
Qed.

(** One ASCII white-space byte is a run. *)
Lemma SpaceRun_ascii (s : gostring) i :
  0 <= i < len s -> idx s i < 0x80 -> (asciiSpace (idx s i) =? 0) = false ->
  SpaceRun (slice s i (i + 1)).
Proof.
  intros Hi Hc Hsp.
  assert (Hne : slice s i (i + 1) <> []) by (apply slice_nonempty; lia).
  assert (E0 : idx (slice s i (i + 1)) 0 = idx s i).
  { rewrite idx_slice by lia. f_equal. lia. }
  pose proof (idx_range s i) as Hr.
  apply SpaceRun_unit; auto; rewrite (decode_ascii _ Hne) by (rewrite E0; exact Hc); simpl.
  - rewrite E0. apply IsSpace_ascii_true; [lia | exact Hsp].
  - rewrite len_slice; lia.
Qed.

Lemma trimSpaceStart_spec fuel (s : gostring) start :
  0 <= start <= len s -> len s - start <= Z.of_nat fuel ->
  SpaceRun (slice s 0 start) ->
  match trimSpaceStart fuel s start with
  | inl j => start <= j <= len s /\ SpaceRun (slice s 0 j) /\
             (j = len s \/ (idx s j < 0x80 /\ (asciiSpace (idx s j) =? 0) = true))
  | inr r => exists j, start <= j < len s /\ SpaceRun (slice s 0 j) /\
             0x80 <= idx s j /\ r = TrimFunc (slice s j (len s)) IsSpace
  end.
Proof.
  revert start; induction fuel as [|fuel IH]; intros start Hs Hf Hpre; simpl.
  - split; [lia|]. split; [exact Hpre | left; lia].
  - destruct (Z.ltb_spec start (len s)) as [C|C].
    2:{ split; [lia|]. split; [exact Hpre | left; lia]. }
    unfold RuneSelf. destruct (Z.leb_spec 128 (idx s start)) as [K1|K1].
    { exists start. repeat split; try lia; assumption. }
    destruct (asciiSpace (idx s start) =? 0) eqn:K2.
    { split; [lia|]. split; [exact Hpre|]. right. split; [lia | exact K2]. }
    assert (Hpre' : SpaceRun (slice s 0 (start + 1))).
    { rewrite (slice_split s 0 start (start + 1)) by lia.
      apply SpaceRun_app; [exact Hpre|]. apply SpaceRun_ascii; [lia | lia | exact K2]. }
    specialize (IH (start + 1) ltac:(lia) ltac:(lia) Hpre').
    destruct (trimSpaceStart fuel s (start + 1)) as [j|r].
    + destruct IH as [Hj H]. split; [lia | exact H].
    + destruct IH as [j [Hj H]]. exists j. split; [lia | exact H].
Qed.

Lemma trimSpaceStop_spec fuel (s : gostring) start stop :
  0 <= start <= stop -> stop <= len s -> stop - start <= Z.of_nat fuel ->
  SpaceRun (slice s stop (len s)) ->
  exists e, start <= e <= stop /\ SpaceRun (slice s e (len s)) /\
    ((trimSpaceStop fuel s start stop = slice s start e /\
      (e = start \/ (idx s (e - 1) < 0x80 /\ (asciiSpace (idx s (e - 1)) =? 0) = true))) \/
     (start < e /\ 0x80 <= idx s (e - 1) /\
      trimSpaceStop fuel s start stop = TrimRightFunc (slice s start e) IsSpace)).
Proof.
  revert stop; induction fuel as [|fuel IH]; intros stop Hs Hl Hf Hpost; simpl.
  - exists stop. split; [lia|]. split; [exact Hpost|]. left. split; [reflexivity | left; lia].
  - destruct (Z.ltb_spec start stop) as [C|C].
    2:{ exists stop. split; [lia|]. split; [exact Hpost|]. left.
        split; [reflexivity | left; lia]. }
    unfold RuneSelf. destruct (Z.leb_spec 128 (idx s (stop - 1))) as [K1|K1].
    { exists stop. split; [lia|]. split; [exact Hpost|]. right. repeat split; auto; lia. }
    destruct (asciiSpace (idx s (stop - 1)) =? 0) eqn:K2.
    { exists stop. split; [lia|]. split; [exact Hpost|]. left.
      split; [reflexivity|]. right. split; [lia | exact K2]. }
    assert (Hpost' : SpaceRun (slice s (stop - 1) (len s))).
    { rewrite (slice_split s (stop - 1) stop (len s)) by lia.
      apply SpaceRun_app; [|exact Hpost].
      replace stop with (stop - 1 + 1) at 2 by lia.
      apply SpaceRun_ascii; [lia | lia | exact K2]. }
    destruct (IH (stop - 1) ltac:(lia) ltac:(lia) ltac:(lia) Hpost') as [e [He H]].
    exists e. split; [lia | exact H].
Qed.

(** Decoding a string that starts, respectively ends, with an ASCII byte
    that is not white space. *)
Lemma startsClean_ascii (t : gostring) :
  t <> [] -> idx t 0 < 0x80 -> (asciiSpace (idx t 0) =? 0) = true -> startsClean t.
Proof.
  intros Ht Hc H. right. rewrite (decode_ascii t Ht Hc). simpl.
  apply IsSpace_ascii_false; [pose proof (idx_range t 0); lia | exact H].
Qed.

Lemma endsClean_ascii (t : gostring) :
  t <> [] -> idx t (len t - 1) < 0x80 ->
  (asciiSpace (idx t (len t - 1)) =? 0) = true -> endsClean t.
Proof.
  intros Ht Hc H. right. rewrite (decodeLast_ascii t Ht Hc). simpl.
  apply IsSpace_ascii_false; [pose proof (idx_range t (len t - 1)); lia | exact H].
Qed.

(** A non-empty prefix of a string that does not start with white space does
    not start with white space either. *)
Lemma startsClean_prefix (t u : gostring) :
  t <> [] -> IsSpace (fst (DecodeRuneInString (t ++ u))) = false ->
  IsSpace (fst (DecodeRuneInString t)) = false.
Proof.
  intros Ht H. destruct (IsSpace (fst (DecodeRuneInString t))) eqn:E; [|reflexivity].
  rewrite (decode_ext t u Ht (decode_space_valid t Ht E)) in H. congruence.
Qed.

Lemma trimmed_all_space (s : gostring) : SpaceRun s -> trimmed s [].
Proof.
  intros H. exists (len s), (len s). pose proof (len_nonneg s).
  split; [lia|]. split; [lia|]. rewrite slice_all, slice_empty by lia.
  split; [reflexivity|]. split; [exact H|]. split; [constructor|].
  split; left; reflexivity.
Qed.

Lemma TrimRightFunc_nil : TrimRightFunc [] IsSpace = [].
Proof. reflexivity. Qed.

(** [TrimRightFunc] on a slice [s[a:c]] that does not start with white
    space, with white space on both sides of the slice. *)
Lemma trimmed_right (s : gostring) a c :
  0 <= a < c -> c <= len s ->
  SpaceRun (slice s 0 a) -> SpaceRun (slice s c (len s)) ->
  IsSpace (fst (DecodeRuneInString (slice s a c))) = false ->
  trimmed s (TrimRightFunc (slice s a c) IsSpace).
Proof.
  intros Ha Hc Hpre Hpost Hfirst.
  assert (Hne : slice s a c <> []) by (apply slice_nonempty; lia).
  assert (Hl : len (slice s a c) = c - a) by (apply len_slice; lia).
  destruct (TrimRightFunc_spec (slice s a c)) as [[_ Hsp]|[e [He [E [Hlast Hrun]]]]].
  - exfalso. rewrite (SpaceRun_first _ Hsp Hne) in Hfirst. discriminate.
  - rewrite Hl in *. rewrite E.
    rewrite slice_slice in * by lia.
    replace (a + (c - a)) with c in Hrun by lia.
    exists (a + 0), (a + e). split; [lia|]. split; [lia|]. split; [reflexivity|].
    replace (a + 0) with a by lia.
    split; [exact Hpre|]. split.
    { rewrite (slice_split s (a + e) c (len s)) by lia. apply SpaceRun_app; assumption. }
    split; [|right; replace (a + 0) with a in Hlast by lia; exact Hlast].
    right. apply (startsClean_prefix _ (slice s (a + e) c)).
    + apply slice_nonempty; lia.
    + rewrite <- slice_split by lia. exact Hfirst.
Qed.

Theorem TrimSpace_spec (s : gostring) : trimmed s (TrimSpace s).
Proof.
  unfold TrimSpace. pose proof (len_nonneg s) as Hn.
  pose proof (trimSpaceStart_spec (length s) s 0 ltac:(lia) ltac:(unfold len; lia)
                ltac:(rewrite slice_empty by lia; constructor)) as Hstart.
  destruct (trimSpaceStart (length s) s 0) as [j|r].
  - destruct Hstart as [Hj [Hpre Hat]].
    destruct (trimSpaceStop_spec (length s) s j (len s) ltac:(lia) ltac:(lia)
                ltac:(unfold len; lia) ltac:(rewrite slice_empty by lia; constructor))
      as [e [He [Hpost [[E Hend]|[Hlt [Hc E]]]]]]; rewrite E.
    + destruct (Z.eq_dec e j) as [->|Hne].
      { rewrite slice_empty by lia. apply trimmed_all_space.
        rewrite <- (slice_all s), (slice_split s 0 j (len s)) by lia.
        apply SpaceRun_app; assumption. }
      destruct Hat as [->|[Hc0 Hs0]]; [lia|].
      destruct Hend as [->|[Hc1 Hs1]]; [lia|].
      assert (Hne' : slice s j e <> []) by (apply slice_nonempty; lia).
      exists j, e. split; [lia|]. split; [lia|]. split; [reflexivity|].
      split; [exact Hpre|]. split; [exact Hpost|]. split.
      * apply startsClean_ascii; auto; rewrite idx_slice by lia;
          replace (j + 0) with j by lia; assumption.
      * apply endsClean_ascii; auto; rewrite len_slice by lia; rewrite idx_slice by lia;
          replace (j + (e - j - 1)) with (e - 1) by lia; assumption.
    + destruct Hat as [->|[Hc0 Hs0]]; [lia|].
      apply trimmed_right; auto; try lia.
      assert (Hne' : slice s j e <> []) by (apply slice_nonempty; lia).
      assert (E0 : idx (slice s j e) 0 = idx s j).
      { rewrite idx_slice by lia. f_equal. lia. }
      rewrite (decode_ascii _ Hne') by (rewrite E0; exact Hc0). simpl. rewrite E0.
      apply IsSpace_ascii_false; [pose proof (idx_range s j); lia | exact Hs0].
  - destruct Hstart as [j [Hj [Hpre [Hc ->]]]]. unfold TrimFunc.
    assert (Hl : len (slice s j (len s)) = len s - j) by (apply len_slice; lia).
    destruct (TrimLeftFunc_spec (slice s j (len s))) as [[E Hsp]|[i [Hi [E [Hfirst Hrun]]]]];
      rewrite E.
    + rewrite TrimRightFunc_nil. apply trimmed_all_space.
      rewrite <- (slice_all s), (slice_split s 0 j (len s)) by lia.
      apply SpaceRun_app; assumption.
    + rewrite Hl in *. rewrite slice_slice in * by lia.
      replace (j + (len s - j)) with (len s) in * by lia.
      apply trimmed_right; auto; try lia.
      * rewrite (slice_split s 0 j (j + i)) by lia. apply SpaceRun_app; auto.
        replace (j + 0) with j in Hrun by lia. exact Hrun.
      * rewrite slice_empty by lia. constructor.
Qed.

Lemma TrimLeftFunc_clean (t : gostring) :
  startsClean t -> TrimLeftFunc t IsSpace = t.
Proof.
  intros [->|H]; [reflexivity|].
  destruct t as [|c t]; [reflexivity|].
  unfold TrimLeftFunc, indexFunc. cbn [length indexFuncLoop].
  pose proof (len_nonneg t). pose proof (len_cons c t).
  destruct (Z.ltb_spec 0 (len (c :: t))); [|lia].
  rewrite slice_all.
  destruct (DecodeRuneInString (c :: t)) as [r size]. simpl in H. rewrite H. simpl.
  rewrite slice_all. reflexivity.
Qed.

Lemma TrimRightFunc_clean (t : gostring) :
  endsClean t -> TrimRightFunc t IsSpace = t.
Proof.
  intros [->|H]; [reflexivity|].
  destruct t as [|c t]; [reflexivity|].
  pose proof (len_nonneg t) as Hn.
  assert (Hl : 0 < len (c :: t) <= len (c :: t)) by (rewrite len_cons; lia).
  pose proof (trimRight_index (c :: t) (len (c :: t)) Hl (or_introl eq_refl)) as [_ Hi].
  rewrite slice_all in Hi. cbv zeta in Hi.
  unfold TrimRightFunc, lastIndexFunc. cbn [length lastIndexFuncLoop].
  destruct (Z.ltb_spec 0 (len (c :: t))); [|lia]. rewrite slice_all.
  destruct (DecodeLastRuneInString (c :: t)) as [r size]. simpl in H, Hi. rewrite H. simpl.
  rewrite Hi. apply slice_all.
Qed.

(** A string that neither starts nor ends with white space is returned as
    it is. *)
Lemma TrimSpace_clean (t : gostring) :
  startsClean t -> endsClean t -> TrimSpace t = t.
Proof.
  intros Hs He. destruct t as [|c t]; [reflexivity|].
  pose proof (len_nonneg t) as Hn.
  assert (Hne : c :: t <> []) by discriminate.
  assert (Hlen : len (c :: t) = len t + 1) by apply len_cons.
  unfold TrimSpace. cbn [length trimSpaceStart].
  destruct (Z.ltb_spec 0 (len (c :: t))); [|lia].
  unfold RuneSelf. destruct (Z.leb_spec 128 (idx (c :: t) 0)) as [C|C].
  { rewrite slice_all. unfold TrimFunc.
    rewrite TrimLeftFunc_clean by assumption. apply TrimRightFunc_clean; assumption. }
  assert (Hc : (asciiSpace (idx (c :: t) 0) =? 0) = true).
  { destruct Hs as [Hs|Hs]; [congruence|].
    rewrite (decode_ascii _ Hne C) in Hs. cbn [fst] in Hs.
    rewrite asciiSpace_IsSpace by (pose proof (idx_range (c :: t) 0); lia).
    rewrite Hs. reflexivity. }
  rewrite Hc. cbn [trimSpaceStop]. unfold RuneSelf.
  destruct (Z.ltb_spec 0 (len (c :: t))); [|lia].
  destruct (Z.leb_spec 128 (idx (c :: t) (len (c :: t) - 1))) as [C'|C'].
  { rewrite ?slice_all. apply TrimRightFunc_clean; assumption. }
  assert (Hc' : (asciiSpace (idx (c :: t) (len (c :: t) - 1)) =? 0) = true).
  { destruct He as [He|He]; [congruence|].
    rewrite (decodeLast_ascii _ Hne C') in He. cbn [fst] in He.
    rewrite asciiSpace_IsSpace by (pose proof (idx_range (c :: t) (len (c :: t) - 1)); lia).
    rewrite He. reflexivity. }
  rewrite Hc'. apply slice_all.
Qed.

Theorem TrimSpace_idempotent (s : gostring) : TrimSpace (TrimSpace s) = TrimSpace s.
Proof.
  destruct (TrimSpace_spec s) as [a [b [_ [_ [_ [_ [_ [Hs He]]]]]]]].
  apply TrimSpace_clean; assumption.
Qed.

(** [TrimSpace] returns a slice of its argument. *)
Lemma TrimSpace_slice (s : gostring) :
  exists a b, 0 <= a <= b /\ b <= len s /\ TrimSpace s = slice s a b.
Proof.
  destruct (TrimSpace_spec s) as [a [b [Ha [Hb [E _]]]]]. exists a, b. auto.
Qed.

Lemma TrimSpace_length (s : gostring) : (length (TrimSpace s) <= length s)%nat.
Proof.
  destruct (TrimSpace_slice s) as [a [b [Ha [Hb E]]]].
  assert (L : len (TrimSpace s) = b - a) by (rewrite E; apply len_slice; lia).
  unfold len in *. lia.
Qed.

Lemma Forall_firstn (P : ascii -> Prop) n (s : gostring) :
  Forall P s -> Forall P (firstn n s).
Proof.
  revert s; induction n as [|n IH]; intros s H; [constructor|].
  destruct H; simpl; constructor; auto.
Qed.

Lemma Forall_skipn (P : ascii -> Prop) n (s : gostring) :
  Forall P s -> Forall P (skipn n s).
Proof.
  revert s; induction n as [|n IH]; intros s H; [exact H|].
  destruct H; simpl; [constructor | auto].
Qed.

Lemma slice_Forall (P : ascii -> Prop) (s : gostring) a b :
  Forall P s -> Forall P (slice s a b).
Proof.
  intros H. unfold slice. apply Forall_firstn, Forall_skipn. exact H.
Qed.

Lemma TrimSpace_Forall (P : ascii -> Prop) (s : gostring) :
  Forall P s -> Forall P (TrimSpace s).
Proof.
  intros H. destruct (TrimSpace_slice s) as [a [b [_ [_ ->]]]].
  apply slice_Forall. exact H.
Qed.

(** [TrimSpace] returns the empty string exactly on runs of white space. *)
Theorem TrimSpace_empty_iff (s : gostring) : TrimSpace s = [] <-> SpaceRun s.
Proof.
  pose proof (len_nonneg s) as Hn. split.
  - intros E. destruct (TrimSpace_spec s) as [a [b [Ha [Hb [Et [Hpre [Hpost _]]]]]]].
    rewrite E in Et.
    assert (a = b).
    { assert (L : len (slice s a b) = b - a) by (apply len_slice; lia).
      rewrite <- Et, len_nil in L. lia. }
    subst b. rewrite <- (slice_all s), (slice_split s 0 a (len s)) by lia.
    apply SpaceRun_app; assumption.
  - intros Hsp. unfold TrimSpace.
    pose proof (trimSpaceStart_spec (length s) s 0 ltac:(lia) ltac:(unfold len; lia)
                  ltac:(rewrite slice_empty by lia; constructor)) as Hstart.
    destruct (trimSpaceStart (length s) s 0) as [j|r].
    + destruct Hstart as [Hj [Hpre Hat]].
      assert (Hrest : SpaceRun (slice s j (len s))).
      { apply (SpaceRun_cancel (slice s 0 j)); [exact Hpre|].
        rewrite <- slice_split, slice_all by lia. exact Hsp. }
      destruct (Z.eq_dec j (len s)) as [->|Hlt].
      * destruct (length s); simpl; [apply slice_empty; lia|].
        destruct (Z.ltb_spec (len s) (len s)); [lia | apply slice_empty; lia].
      * exfalso. destruct Hat as [->|[Hc0 Hs0]]; [lia|].
        assert (j < len s) by lia.
        assert (Hne : slice s j (len s) <> []) by (apply slice_nonempty; lia).
        pose proof (SpaceRun_first _ Hrest Hne) as Hf.
        assert (E0 : idx (slice s j (len s)) 0 = idx s j).
        { rewrite idx_slice by lia. f_equal. lia. }
        rewrite (decode_ascii _ Hne) in Hf by (rewrite E0; exact Hc0). simpl in Hf.
        rewrite E0 in Hf.
        rewrite (IsSpace_ascii_false (idx s j)) in Hf;
          [discriminate | pose proof (idx_range s j); lia | exact Hs0].
    + destruct Hstart as [j [Hj [Hpre [Hc ->]]]]. unfold TrimFunc.
      assert (Hrest : SpaceRun (slice s j (len s))).
      { apply (SpaceRun_cancel (slice s 0 j)); [exact Hpre|].
        rewrite <- slice_split, slice_all by lia. exact Hsp. }
      assert (Hl : len (slice s j (len s)) = len s - j) by (apply len_slice; lia).
      destruct (TrimLeftFunc_spec (slice s j (len s)))
        as [[E _]|[i [Hi [E [Hfirst Hrun]]]]]; rewrite E; [reflexivity|].
      exfalso. rewrite Hl in *.
      assert (Hrest' : SpaceRun (slice (slice s j (len s)) i (len s - j))).
      { apply (SpaceRun_cancel (slice (slice s j (len s)) 0 i)); [exact Hrun|].
        rewrite <- slice_split by lia. rewrite slice_slice by lia.
        replace (j + 0) with j by lia. replace (j + (len s - j)) with (len s) by lia.
        exact Hrest. }
      assert (Hne : slice (slice s j (len s)) i (len s - j) <> [])
        by (apply slice_nonempty; lia).
      rewrite (SpaceRun_first _ Hrest' Hne) in Hfirst. discriminate.
Qed.

Lemma allSpaceFrom_spec fuel (s : gostring) :
  (length s <= fuel)%nat -> (allSpaceFrom fuel s = true <-> SpaceRun s).
Proof.
  revert s; induction fuel as [|fuel IH]; intros s Hf.
  - destruct s; simpl in *; [|lia]. split; [constructor | reflexivity].
  - destruct s as [|c s]; [simpl; split; [constructor | reflexivity]|].
    assert (Hne : c :: s <> []) by discriminate.
    pose proof (decode_size _ Hne) as [[Hk1 _] _].
    change (allSpaceFrom (S fuel) (c :: s)) with
      (let '(r, size) := DecodeRuneInString (c :: s) in
       IsSpace r && allSpaceFrom fuel (skipn (Z.to_nat size) (c :: s))).
    assert (Hlen : (length (skipn (Z.to_nat (snd (DecodeRuneInString (c :: s)))) (c :: s))
                    <= fuel)%nat).
    { rewrite length_skipn. simpl length in *. lia. }
    specialize (IH _ Hlen).
    destruct (DecodeRuneInString (c :: s)) as [r size] eqn:ED. simpl in *.
    rewrite andb_true_iff, IH. split.
    + intros [Hr Hrest]. apply SR_cons; [exact Hne | rewrite ED; exact Hr |].
      rewrite ED. exact Hrest.
    + intros H. inversion H as [|s' _ Hr Hrest Es']. rewrite ED in Hr, Hrest. auto.
Qed.

Lemma whitespaceOnly_spec (s : gostring) : whitespaceOnly s = true <-> SpaceRun s.
Proof. apply allSpaceFrom_spec. apply Nat.le_refl. Qed.

End StringsFacts.

(** ** The name sanitiser *)

Module SanitizerFacts.
Import Utf8 Unicode Strings Sanitizer GoStringFacts SliceFacts Utf8Facts StringsFacts.

Lemma HasPrefix_single (c a : ascii) (s : gostring) :
  HasPrefix (c :: s) [a] = Ascii.eqb c a.
Proof.
  unfold HasPrefix. simpl. rewrite andb_true_r. reflexivity.
Qed.

(** Replacing a one-byte pattern by a one-byte string rewrites each byte on
    its own. *)
Lemma ReplaceAll_single (a u : ascii) (s : gostring) :
  ReplaceAll s [a] [u] = map (fun c => if Ascii.eqb c a then u else c) s.
Proof.
  unfold ReplaceAll. induction s as [|c s IH]; [reflexivity|].
  cbn [replaceFrom map]. rewrite HasPrefix_single.
  destruct (Ascii.eqb c a); simpl; rewrite IH; reflexivity.
Qed.

Ltac each_byte c :=
  destruct c as [[] [] [] [] [] [] [] []]; vm_compute; try reflexivity.

(** The nine replacements in sequence substitute each byte once. *)
Lemma replace_chain (name : gostring) :
  fold_left (fun name char => ReplaceAll name char (str "_")) invalidChars name
  = map substitute name.
Proof.
  unfold invalidChars. cbn [fold_left].
  change (str "_") with ["_"%char].
  change (str "\") with ["\"%char]. change (str "/") with ["/"%char].
  change (str ":") with [":"%char]. change (str "*") with ["*"%char].
  change (str "?") with ["?"%char]. change (str "<") with ["<"%char].
  change (str ">") with [">"%char]. change (str "|") with ["|"%char].
  rewrite !ReplaceAll_single, !map_map.
  apply map_ext. intros c. each_byte c.
Qed.

Lemma truncate_firstn (name : gostring) :
  (if 100 <? len name then slice name 0 100 else name) = firstn 100 name.
Proof.
  destruct (Z.ltb_spec 100 (len name)) as [H|H].
  - rewrite slice_from_start. reflexivity.
  - symmetry. apply firstn_all2. unfold len in H. lia.
Qed.

(** [sanitizeFileName] as the composition of its three stages. *)
Lemma sanitizeFileName_stages (name : gostring) :
  sanitizeFileName name = TrimSpace (firstn 100 (map substitute name)).
Proof.
  unfold sanitizeFileName. cbv zeta. rewrite replace_chain, truncate_firstn. reflexivity.
Qed.

Lemma substitute_valid (c : ascii) : isInvalidChar (substitute c) = false.
Proof. each_byte c. Qed.

Lemma substitute_fixed (c : ascii) : isInvalidChar c = false -> substitute c = c.
Proof. unfold substitute. intros ->. reflexivity. Qed.

Lemma map_substitute_fixed (t : gostring) :
  Forall (fun c => isInvalidChar c = false) t -> map substitute t = t.
Proof.
  induction 1 as [|c t Hc _ IH]; [reflexivity|].
  simpl. rewrite IH, (substitute_fixed c Hc). reflexivity.
Qed.

Lemma sanitizeFileName_valid (name : gostring) :
  Forall (fun c => isInvalidChar c = false) (sanitizeFileName name).
Proof.
  rewrite sanitizeFileName_stages. apply TrimSpace_Forall, Forall_firstn.
  apply Forall_forall. intros c Hc. apply in_map_iff in Hc as [c' [<- _]].
  apply substitute_valid.
Qed.

Lemma sanitizeFileName_length (name : gostring) :
  (length (sanitizeFileName name) <= 100)%nat.
Proof.
  rewrite sanitizeFileName_stages.
  pose proof (TrimSpace_length (firstn 100 (map substitute name))) as H.
  pose proof (firstn_le_length 100 (map substitute name)). lia.
Qed.

(** A substituted byte is the byte itself, or both are ASCII bytes that are
    not white space. *)
Lemma substitute_byte (c : ascii) :
  b2z (substitute c) = b2z c \/
  (b2z c < 0x80 /\ b2z (substitute c) < 0x80 /\
   IsSpace (b2z c) = false /\ IsSpace (b2z (substitute c)) = false).
Proof.
  destruct c as [[] [] [] [] [] [] [] []]; vm_compute;
    first [left; reflexivity | right; repeat split; congruence].
Qed.

Lemma idx_map_substitute (t : gostring) i :
  idx (map substitute t) i = b2z (substitute (nth (Z.to_nat i) t zero)).
Proof.
  unfold idx. f_equal. change zero with (substitute zero) at 1. apply map_nth.
Qed.

Lemma len_map_substitute (t : gostring) : len (map substitute t) = len t.
Proof. unfold len. rewrite length_map. reflexivity. Qed.

Lemma idx_alike (t : gostring) i : alike (idx (map substitute t) i) (idx t i).
Proof. rewrite idx_map_substitute. apply substitute_byte. Qed.

Lemma range_check_alike z' z l h :
  alike z' z -> 0x80 <= l ->
  ((z' <? l) || (h <? z')) = ((z <? l) || (h <? z)) /\
  (((z <? l) || (h <? z)) = false -> z' = z).
Proof.
  intros [->|[Hz [Hz' _]]] Hl; [auto|].
  destruct (Z.ltb_spec z' l); [|lia]. destruct (Z.ltb_spec z l); [|lia].
  simpl. split; [reflexivity | discriminate].
Qed.

(** Substituting the bytes of a string changes neither the width of its
    first rune nor whether that rune is white space. *)
Lemma decode_substitute (t : gostring) :
  t <> [] ->
  snd (DecodeRuneInString (map substitute t)) = snd (DecodeRuneInString t) /\
  IsSpace (fst (DecodeRuneInString (map substitute t)))
    = IsSpace (fst (DecodeRuneInString t)).
Proof.
  intros Ht. pose proof (len_pos_of_nonempty t Ht) as Hn.
  assert (Ht' : map substitute t <> []) by (destruct t; [congruence | discriminate]).
  pose proof (idx_alike t 0) as A0.
  destruct (first_cases (idx t 0)) as [[H0 E]|[[H0 E]|[[H0 _] [E [Hsz [Hlo Hhi]]]]]].
  - assert (H0' : idx (map substitute t) 0 < 0x80) by (destruct A0 as [->|[_ [? _]]]; lia).
    rewrite (decode_ascii _ Ht' H0'), (decode_ascii _ Ht H0). simpl. split; [reflexivity|].
    destruct A0 as [->|[_ [_ [-> ->]]]]; reflexivity.
  - assert (E0 : idx (map substitute t) 0 = idx t 0) by (destruct A0 as [->|[? _]]; lia).
    unfold DecodeRuneInString. cbv zeta. rewrite len_map_substitute, E0, E.
    destruct (len t <? 1); simpl; auto.
  - assert (E0 : idx (map substitute t) 0 = idx t 0) by (destruct A0 as [->|[? _]]; lia).
    unfold DecodeRuneInString. cbv zeta. rewrite len_map_substitute, E0.
    set (x := first (idx t 0)) in *. set (sz := Z.land x 7) in *.
    set (acc := acceptRanges (Z.shiftr x 4)) in *.
    destruct (len t <? 1); [auto|].
    destruct (as_ <=? x); [auto|].
    destruct (len t <? sz); [auto|].
    destruct (range_check_alike _ _ (lo acc) (hi acc) (idx_alike t 1) Hlo) as [K1 E1].
    rewrite K1. destruct ((idx t 1 <? lo acc) || (hi acc <? idx t 1)); [auto|].
    rewrite (E1 eq_refl).
    destruct (sz <=? 2); [auto|].
    destruct (range_check_alike _ _ locb hicb (idx_alike t 2) ltac:(unfold locb; lia))
      as [K2 E2].
    rewrite K2. destruct ((idx t 2 <? locb) || (hicb <? idx t 2)); [auto|].
    rewrite (E2 eq_refl).
    destruct (sz <=? 3); [auto|].
    destruct (range_check_alike _ _ locb hicb (idx_alike t 3) ltac:(unfold locb; lia))
      as [K3 E3].
    rewrite K3. destruct ((idx t 3 <? locb) || (hicb <? idx t 3)); [auto|].
    rewrite (E3 eq_refl). auto.
Qed.

Lemma allSpaceFrom_substitute fuel (t : gostring) :
  allSpaceFrom fuel (map substitute t) = allSpaceFrom fuel t.
Proof.
  revert t; induction fuel as [|fuel IH]; intros t; [destruct t; reflexivity|].
  destruct t as [|c t]; [reflexivity|].
  pose proof (decode_substitute (c :: t) ltac:(discriminate)) as [Hk Hsp].
  change (allSpaceFrom (S fuel) (map substitute (c :: t))) with
    (let '(r, size) := DecodeRuneInString (map substitute (c :: t)) in
     IsSpace r && allSpaceFrom fuel (skipn (Z.to_nat size) (map substitute (c :: t)))).
  change (allSpaceFrom (S fuel) (c :: t)) with
    (let '(r, size) := DecodeRuneInString (c :: t) in
     IsSpace r && allSpaceFrom fuel (skipn (Z.to_nat size) (c :: t))).
  destruct (DecodeRuneInString (map substitute (c :: t))) as [r' k'].
  destruct (DecodeRuneInString (c :: t)) as [r k]. simpl in Hk, Hsp. subst k'.
  rewrite Hsp, skipn_map, IH. reflexivity.
Qed.

(** The replacements neither create nor remove white space. *)
Lemma whitespaceOnly_substitute (t : gostring) :
  whitespaceOnly (map substitute t) = whitespaceOnly t.
Proof.
  unfold whitespaceOnly. rewrite length_map. apply allSpaceFrom_substitute.
Qed.

Lemma sanitizeFileName_empty_iff (name : gostring) :
  sanitizeFileName name = [] <-> whitespaceOnly (firstn 100 name) = true.
Proof.
  rewrite sanitizeFileName_stages, TrimSpace_empty_iff, <- whitespaceOnly_spec.
  rewrite firstn_map, whitespaceOnly_substitute. reflexivity.
Qed.

Theorem sanitizeFileName_idempotent (name : gostring) :
  sanitizeFileName (sanitizeFileName name) = sanitizeFileName name.
Proof.
  rewrite (sanitizeFileName_stages (sanitizeFileName name)).
  rewrite (map_substitute_fixed _ (sanitizeFileName_valid name)).
  rewrite firstn_all2 by apply sanitizeFileName_length.
  rewrite sanitizeFileName_stages. apply TrimSpace_idempotent.
Qed.

End SanitizerFacts.

Module SanitizerClaims.
Import Utf8 Unicode Strings Sanitizer GoStringFacts SliceFacts Utf8Facts StringsFacts
       SanitizerFacts.

(** C7, counterexample. A title of one hundred blanks followed by a letter
    is neither empty nor only white space, yet it is sanitised to the empty
    name: the truncation keeps the blanks and the trim removes them. *)
Lemma C7_blank_prefix_sanitizes_to_empty :
  ~ emptyOnlyOnBlank (repeat " "%char 100 ++ str "a").
Proof.
  unfold emptyOnlyOnBlank. intros H.
  destruct (H ltac:(vm_compute; reflexivity)) as [E|E]; vm_compute in E; discriminate E.
Qed.

(** C7, as amended. [sanitizeFileName] replaces each of the bytes
    [\ / : * ? < > |] and the double quote by [_], keeps at most the first 100 bytes of the
    result, and trims leading and trailing white space from that;
    [sanitize("a/b:c*d?") = "a_b_c_d_"]; a 150-byte title is cut to exactly
    100 bytes before the trim; and the output is empty exactly when the first
    100 bytes of the title are empty or only white space. *)
Theorem C7_sanitize_stages :
  (forall name,
     sanitizeFileName name = TrimSpace (firstn 100 (map substitute name)) /\
     trimmed (firstn 100 (map substitute name)) (sanitizeFileName name)) /\
  (forall c, substitute c = if isInvalidChar c then "_"%char else c) /\
  map isInvalidChar (str "\/:*?<>|_ a") =
    [true; true; true; true; true; true; true; true; false; false; false] /\
  isInvalidChar (ascii_of_nat 34) = true /\
  sanitizeFileName (str "a/b:c*d?") = str "a_b_c_d_" /\
  (forall name, length name = 150%nat ->
     length (firstn 100 (map substitute name)) = 100%nat) /\
  (forall name,
     sanitizeFileName name = [] <-> whitespaceOnly (firstn 100 name) = true).
Proof.
  split.
  { intros name. rewrite sanitizeFileName_stages. split; [reflexivity|].
    apply TrimSpace_spec. }
  split; [reflexivity|]. split; [reflexivity|]. split; [reflexivity|].
  split; [reflexivity|]. split.
  { intros name H. rewrite length_firstn, length_map, H. reflexivity. }
  apply sanitizeFileName_empty_iff.
Qed.

(** C8. [sanitizeFileName] is a total function and it is idempotent:
    sanitising a sanitised name returns it unchanged. *)
Theorem C8_sanitize_idempotent :
  (forall name, sanitizeFileName (sanitizeFileName name) = sanitizeFileName name) /\
  (forall name t, t = sanitizeFileName name -> sanitizeFileName t = t).
Proof.
  split.
  - apply sanitizeFileName_idempotent.
  - intros name t ->. apply sanitizeFileName_idempotent.
Qed.

End SanitizerClaims.

(** ** The runs of [DownloadPlaylist] *)

Module OrchestratorFacts.
Import Selector Pipeline Main Orchestrator.

Lemma count_app p gs hs : count p (gs ++ hs) = count p gs + count p hs.
Proof. induction gs as [|g gs IH]; simpl; [reflexivity | rewrite IH; lia]. Qed.

Lemma count_nonneg p gs : 0 <= count p gs.
Proof. induction gs as [|g gs IH]; simpl; [lia | destruct (p g); lia]. Qed.

Lemma sumFuel_app gs hs : sumFuel (gs ++ hs) = sumFuel gs + sumFuel hs.
Proof. induction gs as [|g gs IH]; simpl; [reflexivity | rewrite IH; lia]. Qed.

Lemma workerFuel_nonneg g : 0 <= workerFuel g.
Proof. unfold workerFuel. destruct (pc g); lia. Qed.

Lemma sumFuel_nonneg gs : 0 <= sumFuel gs.
Proof.
  induction gs as [|g gs IH]; simpl; [lia | pose proof (workerFuel_nonneg g); lia].
Qed.

Lemma split_at k (gs : list goroutine) g :
  nth_error gs k = Some g -> gs = firstn k gs ++ g :: skipn (S k) gs.
Proof. intros H. symmetry. apply firstn_skipn_middle. exact H. Qed.

Lemma setPc_eq k p gs g :
  nth_error gs k = Some g ->
  setPc k p gs = firstn k gs ++ mkGoroutine (index g) (v g) p :: skipn (S k) gs.
Proof. intros H. unfold setPc. rewrite H. reflexivity. Qed.

Lemma length_setPc k p gs : length (setPc k p gs) = length gs.
Proof.
  unfold setPc. destruct (nth_error gs k) as [g|] eqn:E; [|reflexivity].
  rewrite (split_at k gs g E) at 3. rewrite !length_app. reflexivity.
Qed.

Lemma firstn_length_lt k (gs : list goroutine) g :
  nth_error gs k = Some g -> length (firstn k gs) = k.
Proof.
  intros H. apply firstn_length_le.
  assert (k < length gs)%nat by (apply nth_error_Some; congruence). lia.
Qed.

Lemma nth_error_setPc_same k p gs g :
  nth_error gs k = Some g ->
  nth_error (setPc k p gs) k = Some (mkGoroutine (index g) (v g) p).
Proof.
  intros H. rewrite (setPc_eq k p gs g H).
  rewrite nth_error_app2; rewrite (firstn_length_lt k gs g H); [|lia].
  rewrite Nat.sub_diag. reflexivity.
Qed.

Lemma nth_error_setPc_other k j p gs :
  j <> k -> nth_error (setPc k p gs) j = nth_error gs j.
Proof.
  intros Hj. unfold setPc. destruct (nth_error gs k) as [g|] eqn:E; [|reflexivity].
  rewrite (split_at k gs g E) at 3.
  pose proof (firstn_length_lt k gs g E) as L.
  destruct (Nat.lt_ge_cases j k) as [Hlt|Hge].
  - rewrite !nth_error_app1 by lia. reflexivity.
  - rewrite !nth_error_app2 by lia. rewrite L.
    destruct (j - k)%nat as [|d] eqn:D; [lia | reflexivity].
Qed.

Lemma count_setPc q k p gs g :
  nth_error gs k = Some g ->
  count q (setPc k p gs) =
    count q gs - (if q g then 1 else 0)
    + (if q (mkGoroutine (index g) (v g) p) then 1 else 0).
Proof.
  intros H. rewrite (setPc_eq k p gs g H). rewrite (split_at k gs g H) at 3.
  rewrite !count_app. simpl. lia.
Qed.

Lemma sumFuel_setPc k p gs g :
  nth_error gs k = Some g ->
  sumFuel (setPc k p gs) =
    sumFuel gs - workerFuel g + workerFuel (mkGoroutine (index g) (v g) p).
Proof.
  intros H. rewrite (setPc_eq k p gs g H). rewrite (split_at k gs g H) at 3.
  rewrite !sumFuel_app. simpl. lia.
Qed.

(** With no live worker, every worker has exited. *)
Lemma count_zero q gs k g :
  count q gs = 0 -> nth_error gs k = Some g -> q g = false.
Proof.
  revert k; induction gs as [|h gs IH]; intros k Hc Hk; [destruct k; discriminate|].
  simpl in Hc. pose proof (count_nonneg q gs).
  destruct k as [|k]; simpl in Hk.
  - injection Hk as ->. destruct (q g); [lia | reflexivity].
  - apply (IH k); [destruct (q h); lia | exact Hk].
Qed.

Lemma count_le q r gs :
  (forall g, q g = true -> r g = true) -> count q gs <= count r gs.
Proof.
  intros H. induction gs as [|g gs IH]; simpl; [lia|].
  destruct (q g) eqn:E; [rewrite (H g E); lia | destruct (r g); lia].
Qed.

Section RunFacts.

Variable w : World.
Variable config : DownloadConfig.
Variable videos : list PlaylistEntry.

Lemma inv_init : Inv config videos initState.
Proof.
  constructor; simpl; try lia; auto.
  - intros [|k] g H; discriminate H.
  - intros [|k] g H; discriminate H.
Qed.

(** The invariant after a move of worker [k] to [p']. *)
Lemma inv_worker st k g p' semaphore' wg' fd' out' sm' pk' :
  Inv config videos st -> nth_error (gors st) k = Some g ->
  semaphore' = semaphore st - bit (holdsSlot g) + bit (holdsSlot (mkGoroutine (index g) (v g) p')) ->
  wg' = wg st - bit (isLive g) + bit (isLive (mkGoroutine (index g) (v g) p')) ->
  semaphore' <= semaphore st ->
  waited (mpc st) wg' ->
  (forall e, In e (output st) -> In e out') ->
  (pc g = GStart -> p' <> GStart ->
   In (EvDownloading (Z.of_nat k + 1) (Z.of_nat (length videos)) (Title (v g))) out') ->
  Inv config videos (mkState (mpc st) semaphore' wg' (setPc k p' (gors st)) fd' out' sm' pk').
Proof.
  intros [Hsem Hcap Hwg Hpos Hwaited Hargs Hlog] G Es Ew Hle Hwt Hout Hnew.
  constructor; simpl.
  - rewrite (count_setPc _ k p' _ g G). unfold bit in Es. lia.
  - lia.
  - rewrite (count_setPc _ k p' _ g G). unfold bit in Ew. lia.
  - rewrite length_setPc. exact Hpos.
  - exact Hwt.
  - intros j h Hj. destruct (Nat.eq_dec j k) as [->|Hne].
    + rewrite (nth_error_setPc_same k p' _ g G) in Hj. injection Hj as <-. simpl.
      apply Hargs. exact G.
    + rewrite nth_error_setPc_other in Hj by exact Hne. apply Hargs. exact Hj.
  - intros j h Hj Hpc. destruct (Nat.eq_dec j k) as [->|Hne].
    + rewrite (nth_error_setPc_same k p' _ g G) in Hj. injection Hj as <-.
      simpl in *. destruct (pc g) eqn:P;
        try (apply Hout, (Hlog k g G); rewrite P; discriminate).
      apply Hnew; auto.
    + rewrite nth_error_setPc_other in Hj by exact Hne. apply Hout.
      apply (Hlog j h Hj Hpc).
Qed.

Lemma waited_live st k g :
  Inv config videos st -> nth_error (gors st) k = Some g -> isLive g = true ->
  forall c, waited (mpc st) c.
Proof.
  intros [Hsem Hcap Hwg Hpos Hwaited Hargs Hlog] G L c.
  unfold waited in *. pose proof (count_nonneg isLive (gors st)) as Hn.
  destruct (mpc st); simpl in *; auto;
    (assert (Hz : count isLive (gors st) = 0) by lia;
     rewrite (count_zero _ _ _ _ Hz G) in L; discriminate).
Qed.

Lemma inv_step a st st' : Inv config videos st -> stepf w config videos a st = Some st' -> Inv config videos st'.
Proof.
  intros HI Hs. unfold stepf in Hs. destruct (panicked st) eqn:Pk; [discriminate|].
  destruct a as [|k|k].
  - (* the caller *)
    destruct HI as [Hsem Hcap Hwg Hpos Hwaited Hargs Hlog].
    unfold stepCaller in Hs. destruct (mpc st) as [i|i|i| | |] eqn:M; simpl in *.
    + destruct (Nat.ltb_spec i (length videos)) as [C|C]; inversion Hs; subst; clear Hs;
        constructor; simpl; auto; try lia.
    + destruct (Z.ltb_spec (semaphore st) (Parallel config)) as [C|C]; inversion Hs; subst;
        clear Hs; constructor; simpl; auto; try lia.
    + destruct (nth_error videos i) as [video|] eqn:V; inversion Hs; subst; clear Hs.
      destruct Hpos as [Hi Hlt].
      constructor; simpl.
      * rewrite count_app. simpl. lia.
      * lia.
      * rewrite count_app. simpl. lia.
      * rewrite length_app. simpl. lia.
      * exact I.
      * intros j h Hj. destruct (Nat.lt_ge_cases j (length (gors st))) as [Hlt'|Hge].
        -- rewrite nth_error_app1 in Hj by exact Hlt'. apply Hargs. exact Hj.
        -- rewrite nth_error_app2 in Hj by exact Hge.
           destruct (j - length (gors st))%nat as [|d] eqn:D; simpl in Hj.
           ++ injection Hj as <-. simpl. assert (j = i) by lia. subst j. auto.
           ++ destruct d; discriminate Hj.
      * intros j h Hj Hpc. destruct (Nat.lt_ge_cases j (length (gors st))) as [Hlt'|Hge].
        -- rewrite nth_error_app1 in Hj by exact Hlt'. apply (Hlog j h Hj Hpc).
        -- rewrite nth_error_app2 in Hj by exact Hge.
           destruct (j - length (gors st))%nat as [|d] eqn:D; simpl in Hj.
           ++ injection Hj as <-. simpl in Hpc. congruence.
           ++ destruct d; discriminate Hj.
    + destruct (Z.eqb_spec (wg st) 0) as [C|C]; inversion Hs; subst; clear Hs;
        constructor; simpl; auto; try lia.
    + inversion Hs; subst; clear Hs. constructor; simpl; auto; try lia.
    + discriminate.
  - (* worker [k] *)
    unfold stepWorker in Hs. destruct (nth_error (gors st) k) as [g|] eqn:G; [|discriminate].
    pose proof (inv_sem _ _ _ HI) as Hsem.
    pose proof (count_nonneg holdsSlot (gors st)) as Hn.
    destruct (pc g) as [| | |old| | |] eqn:P.
    + inversion Hs; subst; clear Hs.
      apply (inv_worker st k g); auto; unfold holdsSlot, isLive, bit; simpl;
        try rewrite P; try lia.
      * apply (waited_live st k g HI G). unfold isLive. rewrite P. reflexivity.
      * intros e He. apply in_or_app. left. exact He.
      * intros _ _. apply in_or_app. right. left.
        destruct (inv_args _ _ _ HI k g G) as [-> _]. reflexivity.
    + destruct (DownloadVideo w config (ID (v g))) as [[err|]|msg]; inversion Hs; subst;
        clear Hs.
      * apply (inv_worker st k g); auto; unfold holdsSlot, isLive, bit; simpl;
          try rewrite P; try lia.
        -- apply (waited_live st k g HI G). unfold isLive. rewrite P. reflexivity.
        -- intros e He. apply in_or_app. left. exact He.
        -- intros E. discriminate E.
      * apply (inv_worker st k g); auto; unfold holdsSlot, isLive, bit; simpl;
          try rewrite P; try lia.
        -- apply (waited_live st k g HI G). unfold isLive. rewrite P. reflexivity.
        -- intros e He. apply in_or_app. left. exact He.
        -- intros E. discriminate E.
      * destruct HI. constructor; simpl; auto.
    + inversion Hs; subst; clear Hs.
      apply (inv_worker st k g); auto; unfold holdsSlot, isLive, bit; simpl;
        try rewrite P; try lia.
      * apply (waited_live st k g HI G). unfold isLive. rewrite P. reflexivity.
      * intros E. discriminate E.
    + inversion Hs; subst; clear Hs.
      apply (inv_worker st k g); auto; unfold holdsSlot, isLive, bit; simpl;
        try rewrite P; try lia.
      * apply (waited_live st k g HI G). unfold isLive. rewrite P. reflexivity.
      * intros E. discriminate E.
    + destruct (Z.ltb_spec 0 (semaphore st)) as [C|C]; inversion Hs; subst; clear Hs.
      apply (inv_worker st k g); auto; unfold holdsSlot, isLive, bit; simpl;
        try rewrite P; try lia.
      * apply (waited_live st k g HI G). unfold isLive. rewrite P. reflexivity.
      * intros E. discriminate E.
    + inversion Hs; subst; clear Hs.
      apply (inv_worker st k g); auto; unfold holdsSlot, isLive, bit; simpl;
        try rewrite P; try lia.
      * apply (waited_live st k g HI G). unfold isLive. rewrite P. reflexivity.
      * intros E. discriminate E.
    + discriminate.
  - (* a send meeting the receive of worker [k] *)
    unfold stepMeet in Hs. destruct (mpc st) as [i|i|i| | |] eqn:M; try discriminate.
    destruct (nth_error (gors st) k) as [g|] eqn:G; [|discriminate].
    destruct (pc g) eqn:P; try discriminate.
    destruct (Z.eqb_spec (Parallel config) 0) as [C|C]; [|discriminate].
    exfalso.
    destruct HI as [Hsem Hcap Hwg Hpos Hwaited Hargs Hlog].
    rewrite M in Hsem. simpl in Hsem.
    assert (Hz : count holdsSlot (gors st) = 0).
    { pose proof (count_nonneg holdsSlot (gors st)). lia. }
    pose proof (count_zero _ _ _ _ Hz G) as Hh. unfold holdsSlot in Hh.
    rewrite P in Hh. discriminate.
Qed.

Lemma reachable_inv st : reachable w config videos st -> Inv config videos st.
Proof.
  induction 1 as [|st st' _ IH [a Ha]]; [apply inv_init | exact (inv_step a st st' IH Ha)].
Qed.


Lemma exec_reachable schedule st st' :
  reachable w config videos st -> exec w config videos schedule st = Some st' ->
  reachable w config videos st'.
Proof.
  revert st; induction schedule as [|a schedule IH]; intros st Hr He; simpl in He.
  - injection He as <-. exact Hr.
  - destruct (stepf w config videos a st) as [st1|] eqn:E; [|discriminate].
    apply (IH st1); [|exact He]. apply (reach_step _ _ _ st st1 Hr). exists a. exact E.
Qed.

Lemma count_pos q gs k g :
  nth_error gs k = Some g -> q g = true -> 1 <= count q gs.
Proof.
  revert k; induction gs as [|h gs IH]; intros k Hk Hq; [destruct k; discriminate|].
  simpl. pose proof (count_nonneg q gs). destruct k as [|k]; simpl in Hk.
  - injection Hk as ->. rewrite Hq. lia.
  - specialize (IH k Hk Hq). destruct (q h); lia.
Qed.

Lemma count_pos_witness q gs :
  1 <= count q gs -> exists k g, nth_error gs k = Some g /\ q g = true.
Proof.
  induction gs as [|h gs IH]; simpl; [lia|]. intros H.
  destruct (q h) eqn:E.
  - exists 0%nat, h. auto.
  - destruct (IH ltac:(lia)) as [k [g [Hk Hq]]]. exists (S k), g. auto.
Qed.

(** The bound of the semaphore on the workers inside the pipeline. *)
Lemma inPipeline_bound st :
  Inv config videos st -> inPipeline st <= Z.max 0 (Parallel config).
Proof.
  intros [Hsem Hcap _ _ _ _ _]. unfold inPipeline.
  assert (0 <= pendingSlot (mpc st)) by (destruct (mpc st); simpl; lia). lia.
Qed.

(** ** Progress *)

Hypothesis valid : Main.validType config = true.

Lemma DownloadVideo_returns videoID :
  exists r, DownloadVideo w config videoID = Ret r.
Proof.
  unfold DownloadVideo. destruct (GetVideo w videoID) as [video|]; [|eauto].
  assert (Hsel : exists p, selectFormat config video = Ret p).
  { pose proof valid as Hv. unfold Main.validType in Hv. unfold selectFormat.
    destruct (streq (DownloadType config) (str "audio")); [eauto|].
    cbn [orb] in Hv. rewrite Hv. eauto. }
  destruct Hsel as [[p|] ->]; [|eauto].
  repeat (match goal with |- context [if ?c then _ else _] => destruct c end; eauto).
Qed.

Lemma step_no_panic a st st' :
  stepf w config videos a st = Some st' -> panicked st' = false.
Proof.
  unfold stepf. destruct (panicked st) eqn:Pk; [discriminate|]. destruct a as [|k|k].
  - unfold stepCaller. destruct (mpc st);
      repeat (match goal with |- context [if ?c then _ else _] => destruct c end);
      try destruct (nth_error videos i); intros H; inversion H; subst; simpl; auto.
  - unfold stepWorker. destruct (nth_error (gors st) k) as [g|]; [|discriminate].
    destruct (pc g); try discriminate;
      try (destruct (DownloadVideo_returns (ID (v g))) as [[e|] ->]);
      repeat (match goal with |- context [if ?c then _ else _] => destruct c end);
      intros H; inversion H; subst; simpl; auto.
  - unfold stepMeet. destruct (mpc st); try discriminate.
    destruct (nth_error (gors st) k) as [g|]; [|discriminate].
    destruct (pc g); try discriminate.
    destruct (Parallel config =? 0); intros H; inversion H; subst; simpl; auto.
Qed.

Lemma reachable_no_panic st : reachable w config videos st -> panicked st = false.
Proof.
  induction 1 as [|st st' _ _ [a Ha]]; [reflexivity | exact (step_no_panic a st st' Ha)].
Qed.

Hypothesis positive : 1 <= Parallel config.

(** No deadlock: before [DownloadPlaylist] returns, some goroutine can move. *)
Lemma can_step st :
  Inv config videos st -> panicked st = false -> mpc st <> MReturned ->
  exists a st', stepf w config videos a st = Some st'.
Proof.
  intros [Hsem Hcap Hwg Hpos Hwaited Hargs Hlog] Pk Hm.
  pose proof (count_nonneg isLive (gors st)) as Hn.
  unfold stepf. rewrite Pk.
  destruct (Z.eq_dec (count isLive (gors st)) 0) as [Hz|Hz].
  - exists Caller. unfold stepCaller.
    assert (Hh : count holdsSlot (gors st) = 0).
    { pose proof (count_nonneg holdsSlot (gors st)).
      pose proof (count_le holdsSlot isLive (gors st)) as Hle.
      assert (forall g, holdsSlot g = true -> isLive g = true)
        by (intros g; unfold holdsSlot, isLive; destruct (pc g); auto).
      specialize (Hle H0). lia. }
    destruct (mpc st) as [i|i|i| | |] eqn:M; simpl in *.
    + destruct (i <? length videos)%nat; eauto.
    + destruct (Z.ltb_spec (semaphore st) (Parallel config)); [eauto | lia].
    + destruct Hpos as [_ Hlt]. destruct (nth_error videos i) eqn:V; [eauto|].
      apply nth_error_None in V. lia.
    + destruct (Z.eqb_spec (wg st) 0); [eauto | lia].
    + eauto.
    + congruence.
  - destruct (count_pos_witness isLive (gors st) ltac:(lia)) as [k [g [G L]]].
    exists (Worker k). unfold stepWorker. rewrite G.
    unfold isLive in L. destruct (pc g) eqn:P; try discriminate; eauto.
    + destruct (DownloadVideo_returns (ID (v g))) as [[e|] ->]; eauto.
    + assert (1 <= count holdsSlot (gors st)).
      { apply (count_pos _ _ k g G). unfold holdsSlot. rewrite P. reflexivity. }
      assert (0 <= pendingSlot (mpc st)) by (destruct (mpc st); simpl; lia).
      destruct (Z.ltb_spec 0 (semaphore st)); [eauto | lia].
Qed.

Lemma fuelOf_nonneg st : Inv config videos st -> 0 <= fuelOf videos st.
Proof.
  intros [_ _ _ Hpos _ _ _]. unfold fuelOf. pose proof (sumFuel_nonneg (gors st)).
  unfold position, callerFuel in *. destruct (mpc st); lia.
Qed.

(** Every step brings the run closer to its end. *)
Lemma step_fuel a st st' :
  Inv config videos st -> stepf w config videos a st = Some st' ->
  fuelOf videos st' < fuelOf videos st.
Proof.
  intros HI Hs. pose proof (inv_pos _ _ _ HI) as Hpos.
  unfold stepf in Hs. destruct (panicked st) eqn:Pk; [discriminate|].
  unfold fuelOf. destruct a as [|k|k].
  - unfold stepCaller in Hs. unfold position in Hpos.
    destruct (mpc st) as [i|i|i| | |] eqn:M.
    + destruct (Nat.ltb_spec i (length videos)); inversion Hs; subst;
        cbn [mpc gors withMain withWg callerFuel]; lia.
    + destruct (semaphore st <? Parallel config); inversion Hs; subst;
        cbn [mpc gors withMain withSem callerFuel]; lia.
    + destruct (nth_error videos i); inversion Hs; subst.
      cbn [mpc gors callerFuel]. rewrite sumFuel_app.
      cbn [sumFuel workerFuel pc]. lia.
    + destruct (wg st =? 0); inversion Hs; subst;
        cbn [mpc gors withMain callerFuel]; lia.
    + inversion Hs; subst; cbn [mpc gors callerFuel]; lia.
    + discriminate.
  - unfold stepWorker in Hs. destruct (nth_error (gors st) k) as [g|] eqn:G; [|discriminate].
    destruct (pc g) eqn:P; try discriminate;
      try (destruct (DownloadVideo_returns (ID (v g))) as [[e|] E]; rewrite E in Hs);
      try (destruct (0 <? semaphore st); [|discriminate]);
      inversion Hs; subst;
      cbn [mpc gors withWorker withSem withWg print];
      rewrite (sumFuel_setPc k _ _ g G); unfold workerFuel; cbn [pc]; rewrite P; lia.
  - exfalso. unfold stepMeet in Hs. destruct (mpc st) eqn:M; try discriminate.
    destruct (nth_error (gors st) k) as [g|]; [|discriminate].
    destruct (pc g); try discriminate.
    destruct (Z.eqb_spec (Parallel config) 0); [lia | discriminate].
Qed.

(** From every state of a run, some schedule brings [DownloadPlaylist] to
    its return. *)
Lemma completes_from (n : nat) st :
  fuelOf videos st <= Z.of_nat n -> Inv config videos st -> panicked st = false ->
  exists schedule st', exec w config videos schedule st = Some st' /\ mpc st' = MReturned.
Proof.
  revert st; induction n as [|n IH]; intros st Hf HI Pk.
  - pose proof (fuelOf_nonneg st HI) as H0.
    destruct (mpc st) eqn:M; try (exists [], st; split; [reflexivity | exact M]);
      exfalso; pose proof (inv_pos _ _ _ HI) as Hpos;
      pose proof (sumFuel_nonneg (gors st)); unfold fuelOf, position, callerFuel in *;
      rewrite M in *; lia.
  - destruct (mpc st) eqn:M; try (exists [], st; split; [reflexivity | exact M]);
      (destruct (can_step st HI Pk ltac:(congruence)) as [a [st1 Ha]];
       pose proof (step_fuel a st st1 HI Ha) as Hlt;
       destruct (IH st1 ltac:(lia) (inv_step a st st1 HI Ha) (step_no_panic a st st1 Ha))
         as [schedule [st' [He Hm]]];
       exists (a :: schedule), st'; simpl; rewrite Ha; auto).
Qed.

End RunFacts.

Lemma count_one q gs k j g h :
  count q gs <= 1 -> nth_error gs k = Some g -> q g = true ->
  nth_error gs j = Some h -> j <> k -> q h = false.
Proof.
  intros Hc Hk Hq Hj Hne.
  rewrite (split_at k gs g Hk) in Hc, Hj. rewrite count_app in Hc. cbn [count] in Hc.
  rewrite Hq in Hc.
  pose proof (count_nonneg q (firstn k gs)).
  pose proof (count_nonneg q (skipn (S k) gs)).
  pose proof (firstn_length_lt k gs g Hk) as L.
  destruct (Nat.lt_ge_cases j k) as [Hlt|Hge].
  - rewrite nth_error_app1 in Hj by lia.
    apply (count_zero q (firstn k gs) j h); [lia | exact Hj].
  - rewrite nth_error_app2 in Hj by lia. rewrite L in Hj.
    destruct (j - k)%nat as [|d] eqn:D; [lia|]. simpl in Hj.
    apply (count_zero q (skipn (S k) gs) d h); [lia | exact Hj].
Qed.

Lemma filter_setPc_same (q : goroutine -> bool) k p gs g :
  nth_error gs k = Some g ->
  q (mkGoroutine (index g) (v g) p) = q g ->
  map (fun g => Title (v g)) (filter q (setPc k p gs))
  = map (fun g => Title (v g)) (filter q gs).
Proof.
  intros G Hq. rewrite (setPc_eq k p gs g G). rewrite (split_at k gs g G) at 3.
  rewrite !filter_app, !map_app. f_equal. simpl. rewrite Hq.
  destruct (q g); reflexivity.
Qed.

Lemma filter_setPc_last (q : goroutine -> bool) k p gs g :
  nth_error gs k = Some g -> S k = length gs ->
  q g = false -> q (mkGoroutine (index g) (v g) p) = true ->
  map (fun g => Title (v g)) (filter q (setPc k p gs))
  = map (fun g => Title (v g)) (filter q gs) ++ [Title (v g)].
Proof.
  intros G Hl Hq Hq'. rewrite (setPc_eq k p gs g G). rewrite (split_at k gs g G) at 3.
  rewrite skipn_all2 by lia.
  rewrite !filter_app, !map_app. simpl. rewrite Hq, Hq'. simpl.
  rewrite app_nil_r. reflexivity.
Qed.

Section SerialFacts.

Variable w : World.
Variable config : DownloadConfig.
Variable videos : list PlaylistEntry.

Hypothesis single : Parallel config = 1.

Lemma serial_init : Serial w config initState.
Proof.
  constructor; simpl; auto; intros [|k] g H; discriminate H.
Qed.

Lemma holders_le_one st : Inv config videos st -> count holdsSlot (gors st) <= 1.
Proof.
  intros [Hsem Hcap _ _ _ _ _].
  assert (0 <= pendingSlot (mpc st)) by (destruct (mpc st); simpl; lia). lia.
Qed.

(** A worker that holds the slot is the last one started. *)
Lemma holder_is_last st k g :
  Serial w config st -> nth_error (gors st) k = Some g -> holdsSlot g = true ->
  S k = length (gors st).
Proof.
  intros HS G Hh.
  assert (k < length (gors st))%nat by (apply nth_error_Some; congruence).
  destruct (Nat.eq_dec (S k) (length (gors st))) as [E|E]; [exact E|].
  rewrite (ser_last _ _ _ HS k g G) in Hh by lia. discriminate.
Qed.

(** A move of worker [k] that leaves [failedDownloads] and the recorded
    titles alone. *)
Lemma serial_worker st k g p' semaphore' wg' out' sm' pk' :
  Inv config videos st -> Serial w config st -> nth_error (gors st) k = Some g ->
  (holdsSlot g = false -> holdsSlot (mkGoroutine (index g) (v g) p') = false) ->
  recorded w config (mkGoroutine (index g) (v g) p') = recorded w config g ->
  match p' with
  | GAppendLoad => failsItem w config (v g) = true
  | GAppendStore old => failsItem w config (v g) = true /\ old = failedDownloads st
  | _ => True
  end ->
  Serial w config (mkState (mpc st) semaphore' wg' (setPc k p' (gors st))
                           (failedDownloads st) out' sm' pk').
Proof.
  intros HI [Hlast Htitles Happ] G Hh Hrec Hp'. constructor; simpl.
  - intros j h Hj Hlt. rewrite length_setPc in Hlt.
    destruct (Nat.eq_dec j k) as [->|Hne].
    + rewrite (nth_error_setPc_same k p' _ g G) in Hj. injection Hj as <-.
      apply Hh. apply (Hlast k g G Hlt).
    + rewrite nth_error_setPc_other in Hj by exact Hne. apply (Hlast j h Hj Hlt).
  - rewrite (filter_setPc_same _ k p' _ g G Hrec). exact Htitles.
  - intros j h Hj. destruct (Nat.eq_dec j k) as [->|Hne].
    + rewrite (nth_error_setPc_same k p' _ g G) in Hj. injection Hj as <-. exact Hp'.
    + rewrite nth_error_setPc_other in Hj by exact Hne. apply (Happ j h Hj).
Qed.

Lemma serial_step a st st' :
  Inv config videos st -> Serial w config st ->
  stepf w config videos a st = Some st' -> Serial w config st'.
Proof.
  intros HI HS Hs. unfold stepf in Hs. destruct (panicked st) eqn:Pk; [discriminate|].
  destruct a as [|k|k].
  - (* the caller *)
    unfold stepCaller in Hs. destruct (mpc st) as [i|i|i| | |] eqn:M.
    + destruct (i <? length videos)%nat; inversion Hs; subst; clear Hs;
        destruct HS; constructor; simpl; auto.
    + destruct (semaphore st <? Parallel config); inversion Hs; subst; clear Hs;
        destruct HS; constructor; simpl; auto.
    + destruct (nth_error videos i) as [video|]; inversion Hs; subst; clear Hs.
      pose proof (holders_le_one st HI) as Hone.
      pose proof (inv_sem _ _ _ HI) as Hsem. pose proof (inv_cap _ _ _ HI) as Hcap.
      rewrite M in Hsem. simpl in Hsem.
      assert (Hz : count holdsSlot (gors st) = 0).
      { pose proof (count_nonneg holdsSlot (gors st)). lia. }
      destruct HS as [Hlast Htitles Happ]. constructor; simpl.
      * intros j h Hj Hlt. rewrite length_app in Hlt. simpl in Hlt.
        rewrite nth_error_app1 in Hj by lia.
        apply (count_zero _ _ _ _ Hz Hj).
      * rewrite filter_app, map_app. simpl. rewrite app_nil_r. exact Htitles.
      * intros j h Hj.
        destruct (Nat.lt_ge_cases j (length (gors st))) as [Hlt'|Hge].
        -- rewrite nth_error_app1 in Hj by exact Hlt'. apply (Happ j h Hj).
        -- rewrite nth_error_app2 in Hj by exact Hge.
           destruct (j - length (gors st))%nat as [|d]; simpl in Hj.
           ++ injection Hj as <-. exact I.
           ++ destruct d; discriminate Hj.
    + destruct (wg st =? 0); inversion Hs; subst; clear Hs;
        destruct HS; constructor; simpl; auto.
    + inversion Hs; subst; clear Hs. destruct HS; constructor; simpl; auto.
    + discriminate.
  - (* worker [k] *)
    unfold stepWorker in Hs. destruct (nth_error (gors st) k) as [g|] eqn:G; [|discriminate].
    pose proof (ser_append _ _ _ HS k g G) as Hg.
    destruct (pc g) as [| | |old| | |] eqn:P.
    + inversion Hs; subst; clear Hs.
      apply (serial_worker st k g); auto;
        unfold recorded, settled, holdsSlot; simpl; try rewrite P; auto.
    + unfold failsItem in *.
      destruct (DownloadVideo w config (ID (v g))) as [[err|]|msg] eqn:D;
        inversion Hs; subst; clear Hs.
      * apply (serial_worker st k g); auto;
          unfold recorded, settled, holdsSlot, failsItem; simpl; try rewrite P;
          try rewrite D; auto.
      * apply (serial_worker st k g); auto;
          unfold recorded, settled, holdsSlot, failsItem; simpl; try rewrite P;
          try rewrite D; auto.
      * destruct HS. constructor; simpl; auto.
    + inversion Hs; subst; clear Hs.
      apply (serial_worker st k g); auto;
        unfold recorded, settled, holdsSlot; simpl; try rewrite P; auto.
    + (* the write of the extended slice *)
      inversion Hs; subst; clear Hs. destruct Hg as [Hf ->].
      assert (Hh : holdsSlot g = true) by (unfold holdsSlot; rewrite P; reflexivity).
      pose proof (holder_is_last st k g HS G Hh) as Hl.
      pose proof (holders_le_one st HI) as Hone.
      destruct HS as [Hlast Htitles Happ]. constructor; simpl.
      * intros j h Hj Hlt. rewrite length_setPc in Hlt.
        destruct (Nat.eq_dec j k) as [->|Hne]; [lia|].
        rewrite nth_error_setPc_other in Hj by exact Hne. apply (Hlast j h Hj Hlt).
      * rewrite (filter_setPc_last _ k GRelease _ g G Hl).
        -- rewrite Htitles. reflexivity.
        -- unfold recorded, settled. rewrite P. reflexivity.
        -- unfold recorded, settled. simpl. exact Hf.
      * intros j h Hj. destruct (Nat.eq_dec j k) as [->|Hne].
        -- rewrite (nth_error_setPc_same k GRelease _ g G) in Hj. injection Hj as <-.
           exact I.
        -- rewrite nth_error_setPc_other in Hj by exact Hne.
           pose proof (count_one _ _ _ _ _ _ Hone G Hh Hj Hne) as Hn.
           unfold holdsSlot in Hn. destruct (pc h); try discriminate Hn; exact I.
    + destruct (0 <? semaphore st); inversion Hs; subst; clear Hs.
      apply (serial_worker st k g); auto;
        unfold recorded, settled, holdsSlot; simpl; try rewrite P; auto.
    + inversion Hs; subst; clear Hs.
      apply (serial_worker st k g); auto;
        unfold recorded, settled, holdsSlot; simpl; try rewrite P; auto.
    + discriminate.
  - exfalso. unfold stepMeet in Hs. destruct (mpc st); try discriminate.
    destruct (nth_error (gors st) k) as [g|]; [|discriminate].
    destruct (pc g); try discriminate.
    destruct (Z.eqb_spec (Parallel config) 0); [lia | discriminate].
Qed.

Lemma reachable_serial st : reachable w config videos st -> Serial w config st.
Proof.
  induction 1 as [|st st' Hr IH [a Ha]]; [apply serial_init|].
  exact (serial_step a st st' (reachable_inv w config videos st Hr) IH Ha).
Qed.

End SerialFacts.

Section Returned.

Variable w : World.
Variable config : DownloadConfig.
Variable videos : list PlaylistEntry.

(** After the return of [DownloadPlaylist] nothing moves. *)
Lemma returned_final a st :
  Inv config videos st -> mpc st = MReturned -> stepf w config videos a st = None.
Proof.
  intros [Hsem Hcap Hwg Hpos Hwaited Hargs Hlog] M. unfold stepf.
  destruct (panicked st); [reflexivity|]. destruct a as [|k|k].
  - unfold stepCaller. rewrite M. reflexivity.
  - unfold stepWorker. destruct (nth_error (gors st) k) as [g|] eqn:G; [|reflexivity].
    rewrite M in *. simpl in *.
    assert (Hz : count isLive (gors st) = 0) by lia.
    pose proof (count_zero _ _ _ _ Hz G) as L. unfold isLive in L.
    destruct (pc g); try discriminate L. reflexivity.
  - unfold stepMeet. rewrite M. reflexivity.
Qed.

(** The summary is computed from [failedDownloads] as it stands at the
    return. *)
Lemma returned_summary st :
  reachable w config videos st -> mpc st = MReturned ->
  summary st =
    Some (mkSummary (Z.of_nat (length videos))
                    (Z.of_nat (length videos) - Z.of_nat (length (failedDownloads st)))
                    (Z.of_nat (length (failedDownloads st)))
                    (failedDownloads st)).
Proof.
  induction 1 as [|st st' Hr IH [a Ha]]; intros M; [discriminate M|].
  pose proof (reachable_inv w config videos st Hr) as HI.
  destruct (mpc st) eqn:M0;
    try (rewrite (returned_final a st HI M0) in Ha; discriminate Ha);
    unfold stepf in Ha; destruct (panicked st); try discriminate Ha;
    destruct a as [|k|k].
  all: try (unfold stepCaller in Ha; rewrite M0 in Ha;
            repeat (match type of Ha with
                    | context [if ?c then _ else _] => destruct c
                    | context [match nth_error ?l ?i with _ => _ end] =>
                        destruct (nth_error l i)
                    end);
            inversion Ha; subst; simpl in M; try discriminate M; reflexivity).
  all: try (unfold stepMeet in Ha; rewrite M0 in Ha;
            destruct (nth_error (gors st) k) as [g|]; try discriminate Ha;
            destruct (pc g); try discriminate Ha;
            destruct (Parallel config =? 0); inversion Ha; subst; simpl in M;
            discriminate M).
  all: unfold stepWorker in Ha; destruct (nth_error (gors st) k) as [g|];
    try discriminate Ha; destruct (pc g); try discriminate Ha;
    repeat (match type of Ha with
            | context [if ?c then _ else _] => destruct c
            | context [match DownloadVideo ?a ?b ?c with _ => _ end] =>
                destruct (DownloadVideo a b c) as [[?|]|?]
            end);
    inversion Ha; subst; simpl in M; rewrite M0 in M; discriminate M.
Qed.

Lemma map_v_videos (gs : list goroutine) :
  length gs = length videos ->
  (forall k g, nth_error gs k = Some g -> nth_error videos k = Some (v g)) ->
  map v gs = videos.
Proof.
  intros Hl H. apply nth_error_ext. intros k. rewrite nth_error_map.
  destruct (nth_error gs k) as [g|] eqn:G; simpl.
  - symmetry. apply H. exact G.
  - symmetry. apply nth_error_None. apply nth_error_None in G. lia.
Qed.

Lemma recorded_all_settled (gs : list goroutine) :
  (forall k g, nth_error gs k = Some g -> settled g = true) ->
  map (fun g => Title (v g)) (filter (recorded w config) gs)
  = map Title (filter (failsItem w config) (map v gs)).
Proof.
  induction gs as [|g gs IH]; intros H; [reflexivity|].
  specialize (IH (fun k h Hk => H (S k) h Hk)).
  assert (E : recorded w config g = failsItem w config (v g)).
  { unfold recorded. rewrite (H 0%nat g eq_refl). reflexivity. }
  cbn [filter map]. rewrite E.
  destruct (failsItem w config (v g)); cbn [map]; rewrite IH; reflexivity.
Qed.

End Returned.

End OrchestratorFacts.

(** ** The orchestrator and the process *)

Module OrchestratorClaims.
Import Selector Pipeline Main Orchestrator OrchestratorFacts Scenarios.

Lemma run_reachable w config videos schedule :
  reachable w config videos (run w config videos schedule).
Proof.
  unfold run. destruct (exec w config videos schedule initState) as [st|] eqn:E.
  - apply (exec_reachable w config videos schedule initState st); [constructor | exact E].
  - constructor.
Qed.

(** C6. With a pool of [P >= 1] slots, no state of any run has more than
    [P] items inside the pipeline (worker started, slot not yet released), and
    so never more than [P] calls of [DownloadVideo] in progress: the slots in
    use are those of the workers inside the pipeline and the one the caller
    has just acquired for the worker it is about to start, and they number
    at most [P]. *)
Theorem C6_concurrency_bound (w : World) (config : DownloadConfig)
    (videos : list PlaylistEntry) (st : state) :
  1 <= Parallel config ->
  reachable w config videos st ->
  inPipeline st <= Parallel config /\
  count isDownloading (gors st) <= Parallel config /\
  semaphore st = inPipeline st + pendingSlot (mpc st) /\
  semaphore st <= Parallel config.
Proof.
  intros HP Hr. pose proof (reachable_inv w config videos st Hr) as HI.
  pose proof (inPipeline_bound config videos st HI) as Hb.
  pose proof (inv_sem _ _ _ HI) as Hs. pose proof (inv_cap _ _ _ HI) as Hc.
  assert (Hd : count isDownloading (gors st) <= inPipeline st).
  { apply count_le. intros g. unfold isDownloading, holdsSlot.
    destruct (pc g); auto. }
  unfold inPipeline in *. lia.
Qed.

(** C6, at two slots and ten items: both slots taken by downloading
    workers, the caller blocked at the semaphore with the third item. *)
Lemma C6_two_of_ten :
  let st := run (worldOf tenItems (fun _ => false)) (configOf 2) tenItems
                twoBusySchedule in
  (mpc st = MSend 2 /\ count isDownloading (gors st) = 2 /\
   stepCaller (configOf 2) tenItems st = None) /\
  (inPipeline st <= 2 /\ count isDownloading (gors st) <= 2 /\
   semaphore st = inPipeline st + pendingSlot (mpc st) /\ semaphore st <= 2).
Proof.
  split.
  - vm_compute. repeat split; reflexivity.
  - apply (C6_concurrency_bound (worldOf tenItems (fun _ => false)) (configOf 2) tenItems).
    + vm_compute. discriminate.
    + apply run_reachable.
Defined.

(** With a single slot the appends are mutually exclusive. *)
Lemma serial_exclusive w config videos st :
  Parallel config = 1 -> reachable w config videos st -> exclusiveAppend st.
Proof.
  intros HP Hr. unfold exclusiveAppend.
  pose proof (holders_le_one config videos HP st (reachable_inv w config videos st Hr)).
  assert (count isAppending (gors st) <= count holdsSlot (gors st)).
  { apply count_le. intros g. unfold isAppending, holdsSlot. destruct (pc g); auto. }
  lia.
Qed.

(** With a single slot the summary of a returned run is exact, and the
    failed titles come in playlist order. *)
Lemma serial_exact w config videos st :
  Parallel config = 1 -> reachable w config videos st -> mpc st = MReturned ->
  exists s, summary st = Some s /\
    failedTitles s = failedItems w config videos /\
    exactSummary w config videos s.
Proof.
  intros HP Hr M.
  pose proof (reachable_inv w config videos st Hr) as HI.
  pose proof (reachable_serial w config videos HP st Hr) as HS.
  assert (Hf : failedDownloads st = failedItems w config videos).
  { rewrite (ser_titles _ _ _ HS). unfold failedItems.
    destruct HI as [Hsem Hcap Hwg Hpos Hwaited Hargs Hlog]. rewrite M in *. simpl in *.
    assert (Hz : count isLive (gors st) = 0) by lia.
    rewrite recorded_all_settled.
    - rewrite (map_v_videos videos (gors st) Hpos); [reflexivity|].
      intros k g G. apply (Hargs k g G).
    - intros k g G. pose proof (count_zero _ _ _ _ Hz G) as L.
      unfold isLive in L. unfold settled. destruct (pc g); try discriminate L.
      reflexivity. }
  eexists. split; [apply (returned_summary w config videos st Hr M)|].
  rewrite Hf. simpl. split; [reflexivity|].
  unfold exactSummary. simpl. repeat split; reflexivity.
Qed.

(** C5. With two slots and two failing items there is a run in which both
    workers are between the read and the write of [failedDownloads] at the
    same time: the appends are not mutually exclusive. Only a pool of a
    single slot serialises them. *)
Theorem C5_appends_overlap :
  (let w := worldOf twoItems (fun _ => true) in
   let st := run w (configOf 2) twoItems overlapSchedule in
   reachable w (configOf 2) twoItems st /\
   map pc (gors st) = [GAppendStore []; GAppendStore []] /\
   ~ exclusiveAppend st) /\
  (forall w config videos st,
     Parallel config = 1 -> reachable w config videos st -> exclusiveAppend st).
Proof.
  split; [|exact serial_exclusive].
  cbv zeta. split; [apply run_reachable|]. split; [vm_compute; reflexivity|].
  unfold exclusiveAppend. vm_compute. intros H. apply H. reflexivity.
Qed.

(** C4. With two slots and two failing items there is a run that returns
    with a wrong summary: both workers read [failedDownloads] before either
    writes it back, one title is lost, and the summary reports one failure
    and one success. In every returned run the total is the number of items
    and the three counts agree with the list of failed titles; with a single
    slot the summary is exact. *)
Theorem C4_lost_update :
  (let w := worldOf twoItems (fun _ => true) in
   let st := run w (configOf 2) twoItems lostUpdateSchedule in
   reachable w (configOf 2) twoItems st /\
   mpc st = MReturned /\
   failedItems w (configOf 2) twoItems = [str "A"; str "B"] /\
   summary st = Some (mkSummary 2 1 1 [str "B"]) /\
   (forall s, summary st = Some s -> ~ exactSummary w (configOf 2) twoItems s)) /\
  (forall w config videos st,
     reachable w config videos st -> mpc st = MReturned ->
     exists s, summary st = Some s /\
       total s = Z.of_nat (length videos) /\
       successful s = total s - failed s /\
       failed s = Z.of_nat (length (failedTitles s))) /\
  (forall w config videos st,
     Parallel config = 1 -> reachable w config videos st -> mpc st = MReturned ->
     exists s, summary st = Some s /\
       failedTitles s = failedItems w config videos /\
       exactSummary w config videos s).
Proof.
  split; [|split; [|exact serial_exact]].
  - cbv zeta. split; [apply run_reachable|].
    split; [vm_compute; reflexivity|]. split; [vm_compute; reflexivity|].
    split; [vm_compute; reflexivity|].
    intros s Hs [_ [Hf _]]. vm_compute in Hs. injection Hs as <-.
    vm_compute in Hf. discriminate Hf.
  - intros w config videos st Hr M. eexists.
    split; [apply (returned_summary w config videos st Hr M)|].
    simpl. repeat split; reflexivity.
Qed.

Section Completed.

Variable w : World.
Variable config : DownloadConfig.
Variable videos : list PlaylistEntry.

(** With a gate of size zero (or less) and a playlist that is not empty, no
    worker is ever started and the run never returns. *)
Lemma no_slot_no_start st :
  Parallel config <= 0 -> videos <> [] -> reachable w config videos st ->
  gors st = [] /\ semaphore st = 0 /\ (mpc st = MLoop 0 \/ mpc st = MSend 0).
Proof.
  intros HP Hv Hr. induction Hr as [|st st' Hr [Hg [Hs Hm]] [a Ha]].
  - simpl. auto.
  - unfold stepf in Ha. destruct (panicked st); [discriminate|]. destruct a as [|k|k].
    + unfold stepCaller in Ha. destruct Hm as [Hm|Hm]; rewrite Hm in Ha.
      * destruct videos as [|e videos']; [congruence|]. simpl in Ha.
        inversion Ha; subst; simpl. auto.
      * destruct (Z.ltb_spec (semaphore st) (Parallel config)); [lia | discriminate].
    + unfold stepWorker in Ha. rewrite Hg in Ha. destruct k; discriminate.
    + unfold stepMeet in Ha. rewrite Hg in Ha.
      destruct (mpc st); destruct k; discriminate.
Qed.

Lemma no_slot_stuck st :
  Parallel config <= 0 -> gors st = [] -> semaphore st = 0 -> mpc st = MSend 0 ->
  stuck w config videos st.
Proof.
  intros HP Hg Hs Hm a. unfold stepf. destruct (panicked st); [reflexivity|].
  destruct a as [|k|k].
  - unfold stepCaller. rewrite Hm.
    destruct (Z.ltb_spec (semaphore st) (Parallel config)); [lia | reflexivity].
  - unfold stepWorker. rewrite Hg. destruct k; reflexivity.
  - unfold stepMeet. rewrite Hm, Hg. destruct k; reflexivity.
Qed.

End Completed.

(** With a gate of size zero (or less) and a playlist that is not empty,
    nothing is ever printed or recorded. *)
Lemma no_slot_silent w config videos st :
  Parallel config <= 0 -> videos <> [] -> reachable w config videos st ->
  gors st = [] /\ output st = [] /\ failedDownloads st = [] /\ summary st = None /\
  mpc st <> MReturned.
Proof.
  intros HP Hv Hr. induction Hr as [|st st' Hr [Hg [Ho [Hf [Hsm Hm]]]] [a Ha]].
  - simpl. repeat split; auto. discriminate.
  - destruct (no_slot_no_start w config videos st HP Hv Hr) as [_ [Hs Hpc]].
    unfold stepf in Ha. destruct (panicked st); [discriminate|]. destruct a as [|k|k].
    + unfold stepCaller in Ha. destruct Hpc as [E|E]; rewrite E in Ha.
      * destruct videos as [|e videos']; [congruence|]. simpl in Ha.
        inversion Ha; subst; simpl. repeat split; auto. discriminate.
      * destruct (Z.ltb_spec (semaphore st) (Parallel config)); [lia | discriminate].
    + unfold stepWorker in Ha. rewrite Hg in Ha. destruct k; discriminate.
    + unfold stepMeet in Ha. rewrite Hg in Ha.
      destruct (mpc st); destruct k; discriminate.
Qed.

(** C3. [main PLxyz -p 0] and [main PLxyz -p -1] report no configuration
    error: [main] starts the run with the pool size 0, respectively -1,
    although it rejects an invalid download type ([-t both]) at the same
    place and does not store a value of [-p] that is not a number. With the
    size 0 [DownloadPlaylist] creates its gate, and with a playlist that is
    not empty no state of the run has a worker, a printed line or the return:
    the caller blocks for ever at its first send. With the size -1 the
    creation of the gate panics. *)
Theorem C3_nonpositive_parallel_unchecked :
  (mainStartup (argsOf "0") = Start (str "PLxyz") (configOf 0) /\
   mainStartup (argsOf "-1") = Start (str "PLxyz") (configOf (-1)) /\
   ~ startsOnlyPositive (argsOf "0")) /\
  (mainStartup [str "main"; str "PLxyz"; str "-t"; str "both"] = InvalidType /\
   mainStartup [str "main"; str "PLxyz"; str "-p"; str "two"]
     = Start (str "PLxyz") (configOf 3)) /\
  (let w := worldOf twoItems (fun _ => false) in
   DownloadPlaylistSetup w (configOf 0) (str "PLxyz")
     = SetupOk (mkPlaylist (str "playlist") twoItems) /\
   DownloadPlaylistSetup w (configOf (-1)) (str "PLxyz")
     = SetupPanic "makechan: size out of range") /\
  (forall w config videos st,
     Parallel config <= 0 -> videos <> [] -> reachable w config videos st ->
     gors st = [] /\ output st = [] /\ mpc st <> MReturned) /\
  (let w := worldOf twoItems (fun _ => false) in
   let st := run w (configOf 0) twoItems [Caller] in
   mpc st = MSend 0 /\ stuck w (configOf 0) twoItems st).
Proof.
  split; [split; [reflexivity | split; [reflexivity|]]|].
  { intros H. specialize (H (str "PLxyz") (configOf 0) eq_refl). simpl in H. lia. }
  split; [split; reflexivity|]. split; [split; reflexivity|]. split.
  - intros w config videos st HP Hv Hr.
    destruct (no_slot_silent w config videos st HP Hv Hr) as [Hg [Ho [_ [_ Hm]]]]. auto.
  - cbv zeta. split; [reflexivity|].
    apply no_slot_stuck; reflexivity || (simpl; lia).
Qed.


End OrchestratorClaims.

(** ** The item download pipeline *)

Module PipelineFacts.
Import Selector Sanitizer Strings Pipeline Scenarios Effects.
Import GoStringFacts SanitizerFacts.

Lemma Contains_spec (s sub : gostring) :
  Contains s sub = true <-> exists a b, s = a ++ sub ++ b.
Proof.
  induction s as [|c s IH].
  - simpl. rewrite orb_false_r, HasPrefix_spec. split.
    + intros [t H]. exists [], t. exact H.
    + intros [a [b H]]. destruct a; simpl in H.
      * exists b. exact H.
      * discriminate.
  - simpl. rewrite orb_true_iff, HasPrefix_spec, IH. split.
    + intros [[t H]|[a [b H]]].
      * exists [], t. exact H.
      * exists (c :: a), b. rewrite H. reflexivity.
    + intros [a [b H]]. destruct a as [|x a]; simpl in H.
      * left. exists b. exact H.
      * right. inversion H; subst. exists a, b. reflexivity.
Qed.

(** X1. The extension [getFileExtension] gives is [.mp3], [.mp4] or
    [.webm]. It is [.mp3] exactly when the download type is [audio],
    whatever the media type of the chosen format; it is [.webm] exactly when
    the type is not [audio] and the media type contains [webm] and does not
    contain [mp4]; in every other case it is [.mp4]. *)
Theorem getFileExtension_cases (config : DownloadConfig) (format : Format) :
  let ext := getFileExtension config format in
  (ext = str ".mp3" \/ ext = str ".mp4" \/ ext = str ".webm") /\
  (ext = str ".mp3" <-> DownloadType config = str "audio") /\
  (ext = str ".webm" <->
     DownloadType config <> str "audio" /\
     occursIn "webm" (MimeType format) /\ ~ occursIn "mp4" (MimeType format)).
Proof.
  intros ext. subst ext. unfold getFileExtension, occursIn.
  destruct (streq (DownloadType config) (str "audio")) eqn:Ea.
  - apply streq_spec in Ea. split; [auto|]. split.
    + split; auto.
    + split; [discriminate|]. intros [H _]. contradiction.
  - assert (Hna : DownloadType config <> str "audio").
    { intros H. apply streq_spec in H. congruence. }
    destruct (Contains (MimeType format) (str "mp4")) eqn:E4.
    + apply Contains_spec in E4. split; [auto|]. split.
      * split; [discriminate | contradiction].
      * split; [discriminate|]. intros [_ [_ H]]. contradiction.
    + assert (Hn4 : ~ exists a b, MimeType format = a ++ str "mp4" ++ b).
      { intros H. apply Contains_spec in H. congruence. }
      destruct (Contains (MimeType format) (str "webm")) eqn:Ew.
      * apply Contains_spec in Ew. split; [auto|]. split.
        -- split; [discriminate | contradiction].
        -- split; auto.
      * split; [auto|]. split.
        -- split; [discriminate | contradiction].
        -- split; [discriminate|]. intros [_ [H _]].
           apply Contains_spec in H. congruence.
Qed.

Lemma sameFile_refl dir name : sameFile dir name dir name = true.
Proof.
  unfold sameFile. rewrite andb_true_iff. split; apply streq_spec; reflexivity.
Qed.

Ltac run_download w config videoID :=
  unfold DownloadVideoCalls, DownloadVideo, returning;
  destruct (GetVideo w videoID) as [video|];
  [destruct (selectFormat config video) as [[p|]|msg];
   [destruct (GetStream w video (formatAt video p));
    [destruct (Create w (OutputDir config)
                (sanitizeFileName (VideoTitle video)
                   ++ getFileExtension config (formatAt video p)));
     [destruct (ReadFrom w (OutputDir config)
                (sanitizeFileName (VideoTitle video)
                   ++ getFileExtension config (formatAt video p)))|]|]| |]|].

(** X2. On every path through [DownloadVideo] the deferred closes run: a
    stream that [GetStream] opened and a file that [Create] opened are each
    closed exactly once before the return, the file before the stream, and
    [ReadFrom] runs only with both open. The result is that of
    [DownloadVideo]. *)
Theorem DownloadVideo_releases (w : World) (config : DownloadConfig) (videoID : gostring) :
  fst (DownloadVideoCalls w config videoID) = DownloadVideo w config videoID /\
  discipline [] (snd (DownloadVideoCalls w config videoID)) = Some [].
Proof.
  run_download w config videoID; cbn [negb fst snd app discipline];
    rewrite ?sameFile_refl; split; reflexivity.
Qed.

(** X3. [DownloadVideo] stops at the first call that fails: after it only
    the deferred closes run, and the error returned is the one of that call
    (no suitable format when no call failed and the copy did not run). It
    returns [nil] exactly when no call failed and [ReadFrom] ran. *)
Theorem DownloadVideo_first_failure (w : World) (config : DownloadConfig) (videoID : gostring) :
  let r := fst (DownloadVideoCalls w config videoID) in
  let calls := snd (DownloadVideoCalls w config videoID) in
  stopsAtFailure calls = true /\
  (forall e, r = Ret e -> e = verdict calls) /\
  (r = Ret None <-> forallb (fun c => negb (failedCall c)) calls = true /\
                   exists dir name, In (CallReadFrom dir name true) calls).
Proof.
  cbv zeta.
  run_download w config videoID; cbn [negb fst snd app];
    (split; [reflexivity|]);
    (split; [intros e H; inversion H; reflexivity|]);
    (split;
      [intros H;
       first [discriminate H
             | split; [reflexivity | do 2 eexists; simpl; eauto 10]]
      | intros [H1 [dir [name H2]]];
        first [reflexivity | discriminate H1
              | simpl in H2;
                repeat (destruct H2 as [H2|H2]; try discriminate H2);
                contradiction]]).
Qed.

Lemma extension_valid config format :
  Forall (fun c => isInvalidChar c = false) (getFileExtension config format) /\
  (4 <= length (getFileExtension config format) <= 5)%nat.
Proof.
  unfold getFileExtension.
  destruct (streq _ _); [|destruct (Contains _ _); [|destruct (Contains _ _)]];
    (split; [repeat constructor | simpl; lia]).
Qed.

(** X4. Every file [DownloadVideo] creates, writes or closes lies directly
    in the output directory of the configuration, and its name is the
    sanitised title followed by the extension: 4 to 105 bytes, none of them
    a path separator or another of the nine replaced characters. *)
Theorem DownloadVideo_file_names (w : World) (config : DownloadConfig)
    (videoID dir name : gostring) :
  In (dir, name) (fileNames (snd (DownloadVideoCalls w config videoID))) ->
  dir = OutputDir config /\
  Forall (fun c => isInvalidChar c = false) name /\
  (4 <= length name <= 105)%nat /\
  exists video p,
    GetVideo w videoID = Some video /\
    selectFormat config video = Ret (Some p) /\
    name = sanitizeFileName (VideoTitle video)
             ++ getFileExtension config (formatAt video p).
Proof.
  intros H.
  assert (K : exists video p,
    GetVideo w videoID = Some video /\
    selectFormat config video = Ret (Some p) /\
    dir = OutputDir config /\
    name = sanitizeFileName (VideoTitle video)
             ++ getFileExtension config (formatAt video p)).
  { revert H. unfold DownloadVideoCalls, returning.
    destruct (GetVideo w videoID) as [video|]; [|intros []].
    destruct (selectFormat config video) as [[p|]|msg] eqn:Es;
      [|intros []|intros []].
    destruct (GetStream w video (formatAt video p));
      [destruct (Create w _ _); [destruct (ReadFrom w _ _)|]|];
      cbn [negb snd app fileNames]; intros H; exists video, p;
      repeat (destruct H as [H|H]; [inversion H; subst; auto|]);
      contradiction. }
  destruct K as [video [p [Hv [Hs [-> ->]]]]].
  destruct (extension_valid config (formatAt video p)) as [He Hl].
  split; [reflexivity|]. split; [|split].
  - apply Forall_app. split; [apply sanitizeFileName_valid | exact He].
  - rewrite length_app. pose proof (sanitizeFileName_length (VideoTitle video)). lia.
  - eauto.
Qed.

(** X4, on the item [a] of a playlist served without failures: the file
    is [a.mp4]. *)
Lemma DownloadVideo_file_names_witness :
  Forall (fun c => isInvalidChar c = false) (str "a.mp4") /\
  (4 <= length (str "a.mp4") <= 105)%nat.
Proof.
  assert (H : In (str "./downloads", str "a.mp4")
                (fileNames (snd (DownloadVideoCalls (worldOf twoItems (fun _ => false))
                                   (configOf 3) (str "a")))))
    by (vm_compute; left; reflexivity).
  destruct (DownloadVideo_file_names _ _ _ _ _ H) as [_ [H1 [H2 _]]].
  split; [exact H1 | exact H2].
Defined.

(** X5. [DownloadVideo] panics exactly when the download type is neither
    [audio] nor [video] and the metadata of the item has no format at all; in
    every other case it returns, with [nil] or an error. *)
Theorem DownloadVideo_panics_iff (w : World) (config : DownloadConfig) (videoID : gostring) :
  (exists msg, DownloadVideo w config videoID = Panic msg) <->
  Main.validType config = false /\
  exists video, GetVideo w videoID = Some video /\ Formats video = [].
Proof.
  unfold DownloadVideo, Main.validType, selectFormat.
  destruct (GetVideo w videoID) as [video|].
  - destruct (streq (DownloadType config) (str "audio"));
      [|destruct (streq (DownloadType config) (str "video"))]; cbn [orb].
    + split; [intros [msg H] | intros [H _]]; [|discriminate].
      destruct (selectBestAudioFormat video);
        [destruct (GetStream _ _ _), (Create _ _ _), (ReadFrom _ _ _)|]; discriminate.
    + split; [intros [msg H] | intros [H _]]; [|discriminate].
      destruct (selectBestVideoFormat video);
        [destruct (GetStream _ _ _), (Create _ _ _), (ReadFrom _ _ _)|]; discriminate.
    + destruct (Formats video) as [|f fs] eqn:Ef.
      * split; [intros _ | intros _; eexists; reflexivity].
        split; [reflexivity|]. exists video. auto.
      * split; [intros [msg H] | intros [_ [v' [Hv He]]]].
        -- destruct (GetStream _ _ _), (Create _ _ _), (ReadFrom _ _ _); discriminate.
        -- inversion Hv; subst. congruence.
  - split; [intros [msg H]; discriminate | intros [_ [v' [Hv _]]]; discriminate].
Qed.
End PipelineFacts.

(** ** The names the sanitiser produces *)

Module SanitizerNames.
Import Strings Sanitizer.
Import StringsFacts SanitizerFacts.

(** X6. The names [sanitizeFileName] leaves unchanged are those of at most
    100 bytes that contain none of the nine replaced characters and neither
    begin nor end with a white-space rune; and these are exactly the names it
    produces. *)
Theorem sanitizeFileName_fixed_points (t : gostring) :
  (sanitizeFileName t = t <->
     Forall (fun c => isInvalidChar c = false) t /\ (length t <= 100)%nat /\
     startsClean t /\ endsClean t) /\
  ((exists name, sanitizeFileName name = t) <-> sanitizeFileName t = t).
Proof.
  assert (K : sanitizeFileName t = t <->
     Forall (fun c => isInvalidChar c = false) t /\ (length t <= 100)%nat /\
     startsClean t /\ endsClean t).
  { split.
    - intros H. rewrite <- H. split; [apply sanitizeFileName_valid|].
      split; [apply sanitizeFileName_length|].
      rewrite sanitizeFileName_stages.
      destruct (TrimSpace_spec (firstn 100 (map substitute t)))
        as [a [b [_ [_ [_ [_ [_ [Hs He]]]]]]]]. auto.
    - intros [Hv [Hl [Hs He]]]. rewrite sanitizeFileName_stages.
      rewrite (map_substitute_fixed t Hv). rewrite firstn_all2 by exact Hl.
      apply TrimSpace_clean; assumption. }
  split; [exact K|]. split.
  - intros [name <-]. apply sanitizeFileName_idempotent.
  - intros H. exists t. exact H.
Qed.

Lemma substitute_idempotent c : substitute (substitute c) = substitute c.
Proof. apply substitute_fixed. apply substitute_valid. Qed.

(** X7. Titles that [sanitizeFileName] does not tell apart: a title and
    the same title with its invalid characters already replaced, a title and
    its first 100 bytes, a title of 100 bytes or more and any extension of
    it, and two titles that differ in one position by an invalid character
    against an underscore. *)
Theorem sanitizeFileName_collisions (name rest : gostring) :
  sanitizeFileName (map substitute name) = sanitizeFileName name /\
  sanitizeFileName (firstn 100 name) = sanitizeFileName name /\
  ((100 <= length name)%nat ->
   sanitizeFileName (name ++ rest) = sanitizeFileName name) /\
  (forall c, isInvalidChar c = true ->
   sanitizeFileName (name ++ c :: rest) = sanitizeFileName (name ++ "_"%char :: rest)).
Proof.
  rewrite !sanitizeFileName_stages. split; [|split; [|split]].
  - rewrite map_map. f_equal. f_equal. apply map_ext. apply substitute_idempotent.
  - rewrite <- firstn_map, firstn_firstn. reflexivity.
  - intros H. rewrite map_app, firstn_app, length_map.
    replace (100 - length name)%nat with 0%nat by lia.
    rewrite firstn_O, app_nil_r. reflexivity.
  - intros c Hc. rewrite !sanitizeFileName_stages, !map_app. cbn [map].
    assert (E : substitute c = substitute "_"%char).
    { unfold substitute at 1. rewrite Hc. reflexivity. }
    rewrite E. reflexivity.
Qed.

End SanitizerNames.

(** ** The argument loop of [main] *)

Module MainFacts.
Import Strconv Main Cli.
Import GoStringFacts.

Lemma pairs_ind (P : list gostring -> Prop) :
  P [] -> (forall a, P [a]) ->
  (forall a b rest, P rest -> P (b :: rest) -> P (a :: b :: rest)) ->
  forall args, P args.
Proof.
  intros H0 H1 H2 args.
  assert (K : P args /\ forall a, P (a :: args)).
  { induction args as [|b rest [IH1 IH2]]; split; auto. }
  exact (proj1 K).
Qed.

Lemma Atoi_range (s : gostring) (n : Z) :
  Atoi s = Some n -> - 2 ^ 63 <= n <= 2 ^ 63 - 1.
Proof.
  unfold Atoi. destruct s as [|c rest]; [discriminate|].
  destruct (if Ascii.eqb c "-" || Ascii.eqb c "+" then rest else c :: rest);
    [discriminate|].
  destruct (parseDigits _ _) as [m|]; [|discriminate].
  destruct (_ && _) eqn:E; [|discriminate].
  intros H; inversion H; subst.
  apply andb_true_iff in E. destruct E as [E1 E2].
  apply Z.leb_le in E1, E2. lia.
Qed.

(** What the loop leaves alone. *)
Lemma parseArgs_frame (args : list gostring) :
  forall config,
  MaxQuality (parseArgs config args) = MaxQuality config /\
  (mentions "-o" "--output" args = false ->
     OutputDir (parseArgs config args) = OutputDir config) /\
  (mentions "-t" "--type" args = false ->
     DownloadType (parseArgs config args) = DownloadType config) /\
  (mentions "-p" "--parallel" args = false ->
     Parallel (parseArgs config args) = Parallel config) /\
  (- 2 ^ 63 <= Parallel config <= 2 ^ 63 - 1 ->
   - 2 ^ 63 <= Parallel (parseArgs config args) <= 2 ^ 63 - 1).
Proof.
  induction args as [| a | a b rest IH1 IH2] using pairs_ind; intros config.
  - simpl. auto.
  - simpl. destruct (isFlag a "-o" "--output"); [auto 10|].
    destruct (isFlag a "-t" "--type"); [auto 10|].
    destruct (isFlag a "-p" "--parallel"); auto 10.
  - unfold mentions. cbn [parseArgs existsb].
    destruct (isFlag a "-o" "--output") eqn:Eo.
    { destruct (IH1 (mkConfig b (DownloadType config) (MaxQuality config)
                              (Parallel config))) as [K1 [K2 [K3 [K4 K5]]]].
      cbn [OutputDir DownloadType MaxQuality Parallel] in *.
      repeat split; auto; try discriminate.
      - intros H. apply orb_false_iff in H. destruct H as [_ H].
        apply orb_false_iff in H. destruct H as [_ H]. auto.
      - intros H. apply orb_false_iff in H. destruct H as [_ H].
        apply orb_false_iff in H. destruct H as [_ H]. auto.
      - apply (proj1 (K5 H)). - apply (proj2 (K5 H)). }
    destruct (isFlag a "-t" "--type") eqn:Et.
    { destruct (IH1 (mkConfig (OutputDir config) b (MaxQuality config)
                              (Parallel config))) as [K1 [K2 [K3 [K4 K5]]]].
      cbn [OutputDir DownloadType MaxQuality Parallel] in *.
      repeat split; auto; try discriminate.
      - intros H. apply orb_false_iff in H. destruct H as [_ H].
        apply orb_false_iff in H. destruct H as [_ H]. auto.
      - intros H. apply orb_false_iff in H. destruct H as [_ H].
        apply orb_false_iff in H. destruct H as [_ H]. auto.
      - apply (proj1 (K5 H)). - apply (proj2 (K5 H)). }
    destruct (isFlag a "-p" "--parallel") eqn:Ep.
    { destruct (Atoi b) as [parallel|] eqn:Ea.
      - destruct (IH1 (mkConfig (OutputDir config) (DownloadType config)
                                (MaxQuality config) parallel))
          as [K1 [K2 [K3 [K4 K5]]]].
        cbn [OutputDir DownloadType MaxQuality Parallel] in *.
        pose proof (Atoi_range _ _ Ea) as Hr.
        repeat split; auto; try discriminate.
        + intros H. apply orb_false_iff in H. destruct H as [_ H].
          apply orb_false_iff in H. destruct H as [_ H]. auto.
        + intros H. apply orb_false_iff in H. destruct H as [_ H].
          apply orb_false_iff in H. destruct H as [_ H]. auto.
        + apply (proj1 (K5 Hr)). + apply (proj2 (K5 Hr)).
      - destruct (IH1 config) as [K1 [K2 [K3 [K4 K5]]]].
        repeat split; auto; try discriminate.
        + intros H. apply orb_false_iff in H. destruct H as [_ H].
          apply orb_false_iff in H. destruct H as [_ H]. auto.
        + intros H. apply orb_false_iff in H. destruct H as [_ H].
          apply orb_false_iff in H. destruct H as [_ H]. auto.
        + apply (proj1 (K5 H)). + apply (proj2 (K5 H)). }
    destruct (IH2 config) as [K1 [K2 [K3 [K4 K5]]]].
    unfold mentions in *. cbn [existsb] in *.
    repeat split; auto.
    + apply (proj1 (K5 H)). + apply (proj2 (K5 H)).
Qed.

Lemma parseArgs_app (a : list gostring) :
  forall config b, complete a = true ->
  parseArgs config (a ++ b) = parseArgs (parseArgs config a) b.
Proof.
  induction a as [| x | x y rest IH1 IH2] using pairs_ind; intros config b H.
  - reflexivity.
  - cbn [complete] in H. unfold isOption in H.
    cbn [app]. cbn [parseArgs].
    destruct (isFlag x "-o" "--output"); [discriminate|].
    destruct (isFlag x "-t" "--type"); [discriminate|].
    destruct (isFlag x "-p" "--parallel"); [discriminate|].
    destruct b; reflexivity.
  - cbn [complete] in H. unfold isOption in H.
    cbn [app parseArgs].
    destruct (isFlag x "-o" "--output"); [apply IH1; exact H|].
    destruct (isFlag x "-t" "--type"); [apply IH1; exact H|].
    destruct (isFlag x "-p" "--parallel").
    + destruct (Atoi y); apply IH1; exact H.
    + apply (IH2 config b). exact H.
Qed.
(** X8. When [main] starts a run, the playlist is its first argument, the
    download type is [audio] or [video], [MaxQuality] is empty (no option
    sets it), the pool size fits a 64-bit integer, and each option that does
    not occur among the arguments keeps its default: [./downloads], [video]
    and 3. *)
Theorem main_defaults (osArgs : list gostring) (url : gostring)
    (config : DownloadConfig) :
  mainStartup osArgs = Start url config ->
  nth_error osArgs 1 = Some url /\
  (DownloadType config = str "audio" \/ DownloadType config = str "video") /\
  MaxQuality config = [] /\
  - 2 ^ 63 <= Parallel config <= 2 ^ 63 - 1 /\
  (mentions "-o" "--output" (skipn 2 osArgs) = false ->
     OutputDir config = str "./downloads") /\
  (mentions "-t" "--type" (skipn 2 osArgs) = false ->
     DownloadType config = str "video") /\
  (mentions "-p" "--parallel" (skipn 2 osArgs) = false -> Parallel config = 3).
Proof.
  unfold mainStartup. destruct (Nat.ltb_spec (length osArgs) 2) as [C|C]; [discriminate|].
  destruct (validType (parseArgs defaultConfig (skipn 2 osArgs))) eqn:V; [|discriminate].
  intros H. injection H as <- <-.
  destruct (parseArgs_frame (skipn 2 osArgs) defaultConfig) as [K1 [K2 [K3 [K4 K5]]]].
  split; [apply nth_error_nth'; lia|]. split.
  { unfold validType in V. apply orb_true_iff in V.
    destruct V as [V|V]; apply streq_spec in V; auto. }
  split; [exact K1|]. split; [apply K5; simpl; lia|]. auto.
Qed.

(** X8, on [main PLxyz -t audio]. *)
Lemma main_defaults_witness :
  let config := mkConfig (str "./downloads") (str "audio") [] 3 in
  DownloadType config = str "audio" \/ DownloadType config = str "video".
Proof.
  cbv zeta.
  exact (proj1 (proj2 (main_defaults
           [str "main"; str "PLxyz"; str "-t"; str "audio"] (str "PLxyz")
           (mkConfig (str "./downloads") (str "audio") [] 3) eq_refl))).
Defined.

Lemma dangling_option config a : isOption a = true -> parseArgs config [a] = config.
Proof.
  unfold isOption. cbn [parseArgs]. intros H.
  destruct (isFlag a "-o" "--output"); [reflexivity|].
  destruct (isFlag a "-t" "--type"); [reflexivity|].
  destruct (isFlag a "-p" "--parallel"); [reflexivity | discriminate H].
Qed.

(** X9. The argument loop composes: after arguments in which every option
    name is followed by its value, the rest is processed from the
    configuration reached so far; and an option name in last position, with
    no value after it, changes nothing. *)
Theorem parseArgs_composes (config : DownloadConfig) (before after : list gostring) :
  complete before = true ->
  parseArgs config (before ++ after) = parseArgs (parseArgs config before) after /\
  (forall a, isOption a = true ->
     parseArgs config (before ++ [a]) = parseArgs config before).
Proof.
  intros H. split; [apply parseArgs_app; exact H|].
  intros a Ha. rewrite (parseArgs_app before config [a] H). apply dangling_option. exact Ha.
Qed.

(** X9, on [-t audio] followed by [-p 5]. *)
Lemma parseArgs_composes_witness :
  parseArgs defaultConfig ([str "-t"; str "audio"] ++ [str "-p"; str "5"])
  = parseArgs (parseArgs defaultConfig [str "-t"; str "audio"]) [str "-p"; str "5"].
Proof.
  exact (proj1 (parseArgs_composes defaultConfig [str "-t"; str "audio"]
                  [str "-p"; str "5"] eq_refl)).
Defined.

(** X10. An option given after well-formed arguments overrides what came
    before it, unless it is given again later: [-o] and [-t] store their
    value as it is, [-p] stores the number its value denotes; a value of
    [-p] that is not a number is skipped together with the option, as if
    both were absent. *)
Theorem parseArgs_last_wins (config : DownloadConfig)
    (before : list gostring) (value : gostring) (after : list gostring) :
  complete before = true ->
  (mentions "-o" "--output" after = false ->
   OutputDir (parseArgs config (before ++ str "-o" :: value :: after)) = value) /\
  (mentions "-t" "--type" after = false ->
   DownloadType (parseArgs config (before ++ str "-t" :: value :: after)) = value) /\
  (forall n, Atoi value = Some n -> mentions "-p" "--parallel" after = false ->
   Parallel (parseArgs config (before ++ str "-p" :: value :: after)) = n) /\
  (Atoi value = None ->
   parseArgs config (before ++ str "-p" :: value :: after)
   = parseArgs config (before ++ after)).
Proof.
  intros H. rewrite !(parseArgs_app before config _ H).
  set (c := parseArgs config before). split; [|split; [|split]].
  - intros Hm. change (parseArgs c (str "-o" :: value :: after))
      with (parseArgs (mkConfig value (DownloadType c) (MaxQuality c) (Parallel c)) after).
    destruct (parseArgs_frame after
                (mkConfig value (DownloadType c) (MaxQuality c) (Parallel c)))
      as [_ [K _]]. exact (K Hm).
  - intros Hm. change (parseArgs c (str "-t" :: value :: after))
      with (parseArgs (mkConfig (OutputDir c) value (MaxQuality c) (Parallel c)) after).
    destruct (parseArgs_frame after
                (mkConfig (OutputDir c) value (MaxQuality c) (Parallel c)))
      as [_ [_ [K _]]]. exact (K Hm).
  - intros n Hn Hm.
    assert (E : parseArgs c (str "-p" :: value :: after)
                = parseArgs (mkConfig (OutputDir c) (DownloadType c) (MaxQuality c) n)
                            after).
    { cbn [parseArgs]. change (isFlag (str "-p") "-o" "--output") with false.
      change (isFlag (str "-p") "-t" "--type") with false.
      change (isFlag (str "-p") "-p" "--parallel") with true. cbv iota.
      rewrite Hn. reflexivity. }
    rewrite E.
    destruct (parseArgs_frame after
                (mkConfig (OutputDir c) (DownloadType c) (MaxQuality c) n))
      as [_ [_ [_ [K _]]]]. exact (K Hm).
  - intros Hn. cbn [parseArgs]. change (isFlag (str "-p") "-o" "--output") with false.
    change (isFlag (str "-p") "-t" "--type") with false.
    change (isFlag (str "-p") "-p" "--parallel") with true. cbv iota.
    rewrite Hn. reflexivity.
Qed.

(** X10, on [-o first -o second]. *)
Lemma parseArgs_last_wins_witness :
  OutputDir (parseArgs defaultConfig
               ([str "-o"; str "first"] ++ str "-o" :: str "second" :: []))
  = str "second".
Proof.
  exact (proj1 (parseArgs_last_wins defaultConfig [str "-o"; str "first"]
                  (str "second") [] eq_refl) eq_refl).
Defined.

End MainFacts.

(** ** The log, the summary and the end of the runs *)

Module RunProperties.
Import Selector Pipeline Main Orchestrator Scenarios Log.
Import GoStringFacts OrchestratorFacts OrchestratorClaims.

Section Steps.

Variable w : World.
Variable config : DownloadConfig.
Variable videos : list PlaylistEntry.

(** The shape of a step: what it does to the workers, to [failedDownloads]
    and to the output. *)
Lemma step_shape a st st' :
  Inv config videos st -> stepf w config videos a st = Some st' ->
  (gors st' = gors st /\ failedDownloads st' = failedDownloads st /\
   output st' = output st) \/
  (exists video, nth_error videos (length (gors st)) = Some video /\
     gors st' = gors st ++ [mkGoroutine (length (gors st)) video GStart] /\
     failedDownloads st' = failedDownloads st /\ output st' = output st) \/
  (exists k g p', nth_error (gors st) k = Some g /\
     gors st' = setPc k p' (gors st) /\
     ((pc g = GStart /\ p' = GDownloading /\
       failedDownloads st' = failedDownloads st /\
       output st' = output st
         ++ [downloadingLine (Z.of_nat (length videos)) (index g) (v g)]) \/
      (exists err, pc g = GDownloading /\
         DownloadVideo w config (ID (v g)) = Ret (Some err) /\ p' = GAppendLoad /\
         failedDownloads st' = failedDownloads st /\
         output st' = output st ++ [EvFailed (Title (v g)) err]) \/
      (pc g = GDownloading /\
         DownloadVideo w config (ID (v g)) = Ret None /\ p' = GRelease /\
         failedDownloads st' = failedDownloads st /\
         output st' = output st ++ [EvCompleted (Title (v g))]) \/
      (pc g = GAppendLoad /\ p' = GAppendStore (failedDownloads st) /\
         failedDownloads st' = failedDownloads st /\ output st' = output st) \/
      (exists old, pc g = GAppendStore old /\ p' = GRelease /\
         failedDownloads st' = old ++ [Title (v g)] /\ output st' = output st) \/
      (pc g = GRelease /\ p' = GDone /\
         failedDownloads st' = failedDownloads st /\ output st' = output st) \/
      (pc g = GDone /\ p' = GExit /\
         failedDownloads st' = failedDownloads st /\ output st' = output st))).
Proof.
  intros HI Hs. unfold stepf in Hs. destruct (panicked st) eqn:Pk; [discriminate|].
  destruct a as [|k|k].
  - unfold stepCaller in Hs. destruct (mpc st) as [i|i|i| | |] eqn:M.
    + destruct (i <? length videos)%nat; inversion Hs; subst; simpl; auto.
    + destruct (semaphore st <? Parallel config); inversion Hs; subst; simpl; auto.
    + destruct (nth_error videos i) as [video|] eqn:V; inversion Hs; subst; clear Hs.
      right. left. pose proof (inv_pos _ _ _ HI) as Hpos. rewrite M in Hpos.
      destruct Hpos as [Hi _]. rewrite Hi. exists video. simpl. auto.
    + destruct (wg st =? 0); inversion Hs; subst; simpl; auto.
    + inversion Hs; subst; simpl; auto.
    + discriminate.
  - unfold stepWorker in Hs.
    destruct (nth_error (gors st) k) as [g|] eqn:G; [|discriminate].
    destruct (pc g) as [| | |old| | |] eqn:P.
    + inversion Hs; subst; clear Hs. right. right. exists k, g, GDownloading.
      simpl. split; [exact G|]. split; [reflexivity|]. left. auto.
    + destruct (DownloadVideo w config (ID (v g))) as [[err|]|msg] eqn:D;
        inversion Hs; subst; clear Hs.
      * right. right. exists k, g, GAppendLoad. simpl.
        split; [exact G|]. split; [reflexivity|]. right. left. exists err. auto.
      * right. right. exists k, g, GRelease. simpl.
        split; [exact G|]. split; [reflexivity|]. right. right. left. auto.
      * left. simpl. auto.
    + inversion Hs; subst; clear Hs. right. right.
      exists k, g, (GAppendStore (failedDownloads st)). simpl.
      split; [exact G|]. split; [reflexivity|]. do 3 right. left. auto.
    + inversion Hs; subst; clear Hs. right. right. exists k, g, GRelease. simpl.
      split; [exact G|]. split; [reflexivity|]. do 4 right. left. exists old. auto.
    + destruct (0 <? semaphore st); inversion Hs; subst; clear Hs.
      right. right. exists k, g, GDone. simpl.
      split; [exact G|]. split; [reflexivity|]. do 5 right. left. auto.
    + inversion Hs; subst; clear Hs. right. right. exists k, g, GExit. simpl.
      split; [exact G|]. split; [reflexivity|]. do 6 right. auto.
    + discriminate.
  - exfalso. unfold stepMeet in Hs.
    destruct (mpc st) as [i|i|i| | |] eqn:M; try discriminate.
    destruct (nth_error (gors st) k) as [g|] eqn:G; [|discriminate].
    destruct (pc g) eqn:P; try discriminate.
    destruct HI as [Hsem Hcap Hwg Hpos Hwaited Hargs Hlog].
    rewrite M in Hsem. simpl in Hsem.
    assert (Hz : count holdsSlot (gors st) = 0).
    { pose proof (count_nonneg holdsSlot (gors st)).
      destruct (Z.eqb_spec (Parallel config) 0); [lia | discriminate]. }
    pose proof (count_zero _ _ _ _ Hz G) as Hh. unfold holdsSlot in Hh.
    rewrite P in Hh. discriminate.
Qed.

Lemma flat_map_setPc (f : goroutine -> list event) k p gs g :
  nth_error gs k = Some g ->
  flat_map f gs = flat_map f (firstn k gs) ++ f g ++ flat_map f (skipn (S k) gs) /\
  flat_map f (setPc k p gs)
    = flat_map f (firstn k gs) ++ f (mkGoroutine (index g) (v g) p)
        ++ flat_map f (skipn (S k) gs).
Proof.
  intros G. split.
  - rewrite (split_at k gs g G) at 1. rewrite flat_map_app. reflexivity.
  - rewrite (setPc_eq k p gs g G). rewrite flat_map_app. reflexivity.
Qed.

Lemma Permutation_print (out a l b : list event) (e : event) :
  Permutation out (a ++ l ++ b) -> Permutation (out ++ [e]) (a ++ (l ++ [e]) ++ b).
Proof.
  intros H. rewrite <- app_assoc. simpl.
  rewrite (app_assoc a l (e :: b)).
  apply Permutation_trans with (e :: (a ++ l) ++ b).
  - apply Permutation_trans with (e :: out).
    + apply Permutation_sym. apply Permutation_cons_append.
    + constructor. rewrite <- app_assoc. exact H.
  - apply Permutation_middle.
Qed.

(** The output holds, in some order, the lines of the workers. *)
Lemma log_step a st st' :
  Inv config videos st -> stepf w config videos a st = Some st' ->
  Permutation (output st)
    (flat_map (linesOf w config (Z.of_nat (length videos))) (gors st)) ->
  Permutation (output st')
    (flat_map (linesOf w config (Z.of_nat (length videos))) (gors st')).
Proof.
  intros HI Hs HP.
  destruct (step_shape a st st' HI Hs)
    as [[Eg [_ Eo]]|[[video [V [Eg [_ Eo]]]]|[k [g [p' [G [Eg Hm]]]]]]].
  - rewrite Eg, Eo. exact HP.
  - rewrite Eg, Eo, flat_map_app. simpl. rewrite app_nil_r. exact HP.
  - rewrite Eg.
    destruct (flat_map_setPc (linesOf w config (Z.of_nat (length videos))) k p' _ g G)
      as [E1 E2].
    rewrite E2. rewrite E1 in HP. unfold linesOf in *. cbn [pc index v].
    destruct Hm as [H|[H|[H|[H|[H|[H|H]]]]]].
    + destruct H as [P [-> [_ Eo]]]. rewrite Eo. rewrite P in HP.
      apply (Permutation_print _ _ [] _ _ HP).
    + destruct H as [err [P [D [-> [_ Eo]]]]]. rewrite Eo. rewrite P in HP.
      unfold resultLine. rewrite D.
      apply (Permutation_print _ _ [_] _ _ HP).
    + destruct H as [P [D [-> [_ Eo]]]]. rewrite Eo. rewrite P in HP.
      unfold resultLine. rewrite D.
      apply (Permutation_print _ _ [_] _ _ HP).
    + destruct H as [P [-> [_ Eo]]]. rewrite Eo. rewrite P in HP. exact HP.
    + destruct H as [old [P [-> [_ Eo]]]]. rewrite Eo. rewrite P in HP. exact HP.
    + destruct H as [P [-> [_ Eo]]]. rewrite Eo. rewrite P in HP. exact HP.
    + destruct H as [P [-> [_ Eo]]]. rewrite Eo. rewrite P in HP. exact HP.
Qed.

Lemma reachable_log st :
  reachable w config videos st ->
  Permutation (output st)
    (flat_map (linesOf w config (Z.of_nat (length videos))) (gors st)).
Proof.
  induction 1 as [|st st' Hr IH [a Ha]]; [constructor|].
  exact (log_step a st st' (reachable_inv w config videos st Hr) Ha IH).
Qed.

Lemma all_exited st :
  Inv config videos st -> mpc st = MReturned ->
  length (gors st) = length videos /\
  forall k g, nth_error (gors st) k = Some g -> pc g = GExit.
Proof.
  intros [Hsem Hcap Hwg Hpos Hwaited Hargs Hlog] M. rewrite M in *. simpl in *.
  split; [exact Hpos|]. intros k g G.
  assert (Hz : count isLive (gors st) = 0) by lia.
  pose proof (count_zero _ _ _ _ Hz G) as L. unfold isLive in L.
  destruct (pc g); try discriminate L. reflexivity.
Qed.

Lemma lines_of_finished total (gs : list goroutine) :
  forall i vs, length gs = length vs ->
  (forall k g, nth_error gs k = Some g ->
     index g = (i + k)%nat /\ nth_error vs k = Some (v g) /\ settled g = true) ->
  flat_map (linesOf w config total) gs = fullLog w config total i vs.
Proof.
  induction gs as [|g gs IH]; intros i [|e vs] Hl H; try discriminate Hl; [reflexivity|].
  destruct (H 0%nat g eq_refl) as [Hi [Hv Hp]]. simpl in Hv. injection Hv as ->.
  rewrite Nat.add_0_r in Hi.
  cbn [flat_map fullLog]. rewrite (IH (S i) vs).
  - unfold linesOf. unfold settled in Hp. rewrite Hi.
    destruct (pc g); try discriminate Hp; reflexivity.
  - simpl in Hl. lia.
  - intros k h Hk. destruct (H (S k) h Hk) as [Hi' [Hv' Hp']].
    simpl in Hv'. repeat split; auto. lia.
Qed.

Lemma Permutation_filter_length (f : event -> bool) (l l' : list event) :
  Permutation l l' -> length (filter f l) = length (filter f l').
Proof.
  induction 1 as [|x l l' _ IH|x y l|l l' l'' _ IH1 _ IH2]; simpl.
  - reflexivity.
  - destruct (f x); simpl; rewrite IH; reflexivity.
  - destruct (f x), (f y); reflexivity.
  - rewrite IH1. exact IH2.
Qed.

Lemma fullLog_counts total vs :
  forall i,
  length (filter isDownloadingLine (fullLog w config total i vs)) = length vs /\
  length (filter isFailedLine (fullLog w config total i vs))
    = length (filter (failsItem w config) vs) /\
  (Main.validType config = true ->
   (length (filter isCompletedLine (fullLog w config total i vs))
    + length (filter (failsItem w config) vs) = length vs)%nat).
Proof.
  induction vs as [|e vs IH]; intros i; [simpl; auto|].
  destruct (IH (S i)) as [H1 [H2 H3]].
  cbn [fullLog filter isDownloadingLine isFailedLine isCompletedLine downloadingLine].
  rewrite !filter_app, !length_app. unfold resultLine, failsItem.
  split; [|split].
  - destruct (DownloadVideo w config (ID e)) as [[err|]|msg]; simpl; rewrite H1; reflexivity.
  - destruct (DownloadVideo w config (ID e)) as [[err|]|msg]; simpl; rewrite H2; reflexivity.
  - intros Hv. specialize (H3 Hv). unfold failsItem in H3.
    destruct (DownloadVideo_returns w config Hv (ID e)) as [[err|] ->]; simpl; lia.
Qed.

(** ** One slot: the output in playlist order *)

Lemma flat_map_setPc_same (f : goroutine -> list event) k p gs g :
  nth_error gs k = Some g -> f (mkGoroutine (index g) (v g) p) = f g ->
  flat_map f (setPc k p gs) = flat_map f gs.
Proof.
  intros G E. destruct (flat_map_setPc f k p gs g G) as [E1 E2].
  rewrite E2, E1, E. reflexivity.
Qed.

Lemma flat_map_setPc_last (f : goroutine -> list event) k p gs g l :
  nth_error gs k = Some g -> S k = length gs ->
  f (mkGoroutine (index g) (v g) p) = f g ++ l ->
  flat_map f (setPc k p gs) = flat_map f gs ++ l.
Proof.
  intros G Hl E. destruct (flat_map_setPc f k p gs g G) as [E1 E2].
  rewrite E2, E1, E. rewrite skipn_all2 by lia. simpl.
  rewrite !app_nil_r, app_assoc. reflexivity.
Qed.

Lemma serial_log_step a st st' :
  Parallel config = 1 ->
  Inv config videos st -> Serial w config st ->
  stepf w config videos a st = Some st' ->
  output st = flat_map (linesOf w config (Z.of_nat (length videos))) (gors st) ->
  output st' = flat_map (linesOf w config (Z.of_nat (length videos))) (gors st').
Proof.
  intros HP HI HS Hs Ho.
  destruct (step_shape a st st' HI Hs)
    as [[Eg [_ Eo]]|[[video [V [Eg [_ Eo]]]]|[k [g [p' [G [Eg Hm]]]]]]].
  - rewrite Eg, Eo. exact Ho.
  - rewrite Eg, Eo, flat_map_app. simpl. rewrite app_nil_r. exact Ho.
  - rewrite Eg.
    assert (Hlast : holdsSlot g = true -> S k = length (gors st)).
    { intros Hh. exact (holder_is_last w config st k g HS G Hh). }
    destruct Hm as [H|[H|[H|[H|[H|[H|H]]]]]].
    + destruct H as [P [-> [_ Eo]]]. rewrite Eo, Ho. symmetry.
      apply (flat_map_setPc_last _ k _ _ g _ G).
      * apply Hlast. unfold holdsSlot. rewrite P. reflexivity.
      * unfold linesOf. cbn [pc index v]. rewrite P. reflexivity.
    + destruct H as [err [P [D [-> [_ Eo]]]]]. rewrite Eo, Ho. symmetry.
      apply (flat_map_setPc_last _ k _ _ g _ G).
      * apply Hlast. unfold holdsSlot. rewrite P. reflexivity.
      * unfold linesOf, resultLine. cbn [pc index v]. rewrite P, D. reflexivity.
    + destruct H as [P [D [-> [_ Eo]]]]. rewrite Eo, Ho. symmetry.
      apply (flat_map_setPc_last _ k _ _ g _ G).
      * apply Hlast. unfold holdsSlot. rewrite P. reflexivity.
      * unfold linesOf, resultLine. cbn [pc index v]. rewrite P, D. reflexivity.
    + destruct H as [P [-> [_ Eo]]]. rewrite Eo, Ho. symmetry.
      apply (flat_map_setPc_same _ k _ _ g G).
      unfold linesOf. cbn [pc index v]. rewrite P. reflexivity.
    + destruct H as [old [P [-> [_ Eo]]]]. rewrite Eo, Ho. symmetry.
      apply (flat_map_setPc_same _ k _ _ g G).
      unfold linesOf. cbn [pc index v]. rewrite P. reflexivity.
    + destruct H as [P [-> [_ Eo]]]. rewrite Eo, Ho. symmetry.
      apply (flat_map_setPc_same _ k _ _ g G).
      unfold linesOf. cbn [pc index v]. rewrite P. reflexivity.
    + destruct H as [P [-> [_ Eo]]]. rewrite Eo, Ho. symmetry.
      apply (flat_map_setPc_same _ k _ _ g G).
      unfold linesOf. cbn [pc index v]. rewrite P. reflexivity.
Qed.

Lemma reachable_serial_log st :
  Parallel config = 1 -> reachable w config videos st ->
  output st = flat_map (linesOf w config (Z.of_nat (length videos))) (gors st).
Proof.
  intros HP. induction 1 as [|st st' Hr IH [a Ha]]; [reflexivity|].
  exact (serial_log_step a st st' HP (reachable_inv w config videos st Hr)
           (reachable_serial w config videos HP st Hr) Ha IH).
Qed.

Lemma returned_lines st :
  Inv config videos st -> mpc st = MReturned ->
  flat_map (linesOf w config (Z.of_nat (length videos))) (gors st)
  = fullLog w config (Z.of_nat (length videos)) 0 videos.
Proof.
  intros HI M. destruct (all_exited st HI M) as [Hl Hx].
  apply lines_of_finished; [exact Hl|].
  intros k g G. destruct (inv_args _ _ _ HI k g G) as [Hi Hv].
  repeat split; auto. unfold settled. rewrite (Hx k g G). reflexivity.
Qed.

(** ** The failed titles, however the appends interleave *)

Lemma picks_extends gs gs' titles :
  (forall k, storedAt w config gs k = true -> storedAt w config gs' k = true) ->
  picks w config videos gs titles -> picks w config videos gs' titles.
Proof.
  intros H [ks [Hnd [Hall Ht]]]. exists ks. split; [exact Hnd|]. split; [|exact Ht].
  eapply Forall_impl; [|exact Hall]. exact H.
Qed.

Lemma storedAt_setPc k p gs g j :
  nth_error gs k = Some g ->
  (recorded w config g = true ->
   recorded w config (mkGoroutine (index g) (v g) p) = true) ->
  storedAt w config gs j = true -> storedAt w config (setPc k p gs) j = true.
Proof.
  intros G Hr. unfold storedAt. destruct (Nat.eq_dec j k) as [->|Hne].
  - rewrite (nth_error_setPc_same k p gs g G), G. exact Hr.
  - rewrite nth_error_setPc_other by exact Hne. auto.
Qed.

Lemma storedAt_app gs x j :
  storedAt w config gs j = true -> storedAt w config (gs ++ [x]) j = true.
Proof.
  unfold storedAt. destruct (nth_error gs j) as [g|] eqn:G; [|discriminate].
  rewrite nth_error_app1 by (apply nth_error_Some; congruence).
  rewrite G. auto.
Qed.

Lemma sound_init : Sound w config videos [] [].
Proof.
  constructor.
  - exists []. repeat split; constructor.
  - intros [|k] g old H; discriminate H.
  - intros [|k] g H; discriminate H.
  - intros [|k] g H; discriminate H.
Qed.

(** A move of worker [k] to [p']. *)
Lemma sound_worker gs fd k g p' fd' :
  Sound w config videos gs fd -> nth_error gs k = Some g ->
  (recorded w config g = true ->
   recorded w config (mkGoroutine (index g) (v g) p') = true) ->
  picks w config videos (setPc k p' gs) fd' ->
  match p' with
  | GAppendLoad => failsItem w config (v g) = true
  | GAppendStore old =>
      failsItem w config (v g) = true /\ picks w config videos (setPc k p' gs) old
  | _ => True
  end ->
  (fd <> [] -> fd' <> []) ->
  (recorded w config g = false ->
   recorded w config (mkGoroutine (index g) (v g) p') = true -> fd' <> []) ->
  Sound w config videos (setPc k p' gs) fd'.
Proof.
  intros [Hf Ho Hfl Hne] G Hr Hf' Hp' Hkeep Hnew. constructor.
  - exact Hf'.
  - intros j h old Hj Hpc. destruct (Nat.eq_dec j k) as [->|Hjk].
    + rewrite (nth_error_setPc_same k p' gs g G) in Hj. injection Hj as <-.
      simpl in Hpc. subst p'. apply Hp'.
    + rewrite nth_error_setPc_other in Hj by exact Hjk.
      apply (picks_extends gs); [|exact (Ho j h old Hj Hpc)].
      intros i. apply (storedAt_setPc k p' gs g i G Hr).
  - intros j h Hj. destruct (Nat.eq_dec j k) as [->|Hjk].
    + rewrite (nth_error_setPc_same k p' gs g G) in Hj. injection Hj as <-.
      simpl. destruct p'; auto. apply Hp'.
    + rewrite nth_error_setPc_other in Hj by exact Hjk. apply (Hfl j h Hj).
  - intros j h Hj Hrec. destruct (Nat.eq_dec j k) as [->|Hjk].
    + rewrite (nth_error_setPc_same k p' gs g G) in Hj. injection Hj as <-.
      destruct (recorded w config g) eqn:Rg.
      * apply Hkeep. apply (Hne k g G Rg).
      * apply Hnew; auto.
    + rewrite nth_error_setPc_other in Hj by exact Hjk.
      apply Hkeep. apply (Hne j h Hj Hrec).
Qed.

Lemma sound_step a st st' :
  Inv config videos st -> stepf w config videos a st = Some st' ->
  Sound w config videos (gors st) (failedDownloads st) ->
  Sound w config videos (gors st') (failedDownloads st').
Proof.
  intros HI Hs HS.
  destruct (step_shape a st st' HI Hs)
    as [[Eg [Ef _]]|[[video [V [Eg [Ef _]]]]|[k [g [p' [G [Eg Hm]]]]]]].
  - rewrite Eg, Ef. exact HS.
  - rewrite Eg, Ef. destruct HS as [Hf Ho Hfl Hne]. constructor.
    + apply (picks_extends (gors st)); [|exact Hf]. intros j. apply storedAt_app.
    + intros j h old Hj Hpc.
      destruct (Nat.lt_ge_cases j (length (gors st))) as [Hlt|Hge].
      * rewrite nth_error_app1 in Hj by exact Hlt.
        apply (picks_extends (gors st)); [|exact (Ho j h old Hj Hpc)].
        intros i. apply storedAt_app.
      * rewrite nth_error_app2 in Hj by exact Hge.
        destruct (j - length (gors st))%nat as [|d]; simpl in Hj.
        -- injection Hj as <-. discriminate Hpc.
        -- destruct d; discriminate Hj.
    + intros j h Hj.
      destruct (Nat.lt_ge_cases j (length (gors st))) as [Hlt|Hge].
      * rewrite nth_error_app1 in Hj by exact Hlt. apply (Hfl j h Hj).
      * rewrite nth_error_app2 in Hj by exact Hge.
        destruct (j - length (gors st))%nat as [|d]; simpl in Hj.
        -- injection Hj as <-. exact I.
        -- destruct d; discriminate Hj.
    + intros j h Hj Hrec.
      destruct (Nat.lt_ge_cases j (length (gors st))) as [Hlt|Hge].
      * rewrite nth_error_app1 in Hj by exact Hlt. apply (Hne j h Hj Hrec).
      * rewrite nth_error_app2 in Hj by exact Hge.
        destruct (j - length (gors st))%nat as [|d]; simpl in Hj.
        -- injection Hj as <-. discriminate Hrec.
        -- destruct d; discriminate Hj.
  - rewrite Eg.
    pose proof (snd_fails _ _ _ _ _ HS k g G) as Hg.
    assert (Hext : forall p, 
      (recorded w config g = true ->
       recorded w config (mkGoroutine (index g) (v g) p) = true) ->
      forall t, picks w config videos (gors st) t ->
                picks w config videos (setPc k p (gors st)) t).
    { intros p Hr t. apply picks_extends. intros i.
      apply (storedAt_setPc k p (gors st) g i G Hr). }
    destruct Hm as [H|[H|[H|[H|[H|[H|H]]]]]].
    + destruct H as [P [-> [Ef _]]]. rewrite Ef.
      assert (Hr : recorded w config g = false)
        by (unfold recorded, settled; rewrite P; reflexivity).
      apply (sound_worker _ (failedDownloads st) k g); auto;
        try (rewrite Hr; discriminate).
      apply Hext; [rewrite Hr; discriminate | apply (snd_failed _ _ _ _ _ HS)].
    + destruct H as [err [P [D [-> [Ef _]]]]]. rewrite Ef.
      assert (Hr : recorded w config g = false)
        by (unfold recorded, settled; rewrite P; reflexivity).
      apply (sound_worker _ (failedDownloads st) k g); auto;
        try (rewrite Hr; discriminate).
      * apply Hext; [rewrite Hr; discriminate | apply (snd_failed _ _ _ _ _ HS)].
      * unfold failsItem. rewrite D. reflexivity.
    + destruct H as [P [D [-> [Ef _]]]]. rewrite Ef.
      assert (Hr : recorded w config g = false)
        by (unfold recorded, settled; rewrite P; reflexivity).
      apply (sound_worker _ (failedDownloads st) k g); auto;
        try (rewrite Hr; discriminate).
      * apply Hext; [rewrite Hr; discriminate | apply (snd_failed _ _ _ _ _ HS)].
      * unfold recorded, failsItem. cbn [v settled pc andb]. rewrite D.
        intros _ E. discriminate E.
    + destruct H as [P [-> [Ef _]]]. rewrite Ef. rewrite P in Hg.
      assert (Hr : recorded w config g = false)
        by (unfold recorded, settled; rewrite P; reflexivity).
      apply (sound_worker _ (failedDownloads st) k g); auto;
        try (rewrite Hr; discriminate).
      * apply Hext; [rewrite Hr; discriminate | apply (snd_failed _ _ _ _ _ HS)].
      * split; [exact Hg|].
        apply Hext; [rewrite Hr; discriminate | apply (snd_failed _ _ _ _ _ HS)].
    + destruct H as [old [P [-> [Ef _]]]]. rewrite Ef. rewrite P in Hg.
      assert (Hr : recorded w config g = false)
        by (unfold recorded, settled; rewrite P; reflexivity).
      apply (sound_worker _ (failedDownloads st) k g); auto;
        try (rewrite Hr; discriminate).
      * destruct (snd_old _ _ _ _ _ HS k g old G P) as [ks [Hnd [Hall Ht]]].
        exists (ks ++ [k]). split; [|split].
        -- apply NoDup_app; [exact Hnd | repeat constructor; intros [] |].
           intros j Hj [<-|[]]. rewrite Forall_forall in Hall.
           specialize (Hall k Hj). unfold storedAt in Hall. rewrite G, Hr in Hall.
           discriminate.
        -- apply Forall_app. split.
           ++ eapply Forall_impl; [|exact Hall]. intros i.
              apply (storedAt_setPc k GRelease (gors st) g i G).
              rewrite Hr. discriminate.
           ++ constructor; [|constructor]. unfold storedAt.
              rewrite (nth_error_setPc_same k GRelease _ g G).
              unfold recorded, settled. cbn [pc v]. exact Hg.
        -- rewrite map_app, Ht. simpl. f_equal. unfold titleAt.
           destruct (inv_args _ _ _ HI k g G) as [_ ->]. reflexivity.
      * intros _ E. destruct old; discriminate E.
      * intros _ _ E. destruct old; discriminate E.
    + destruct H as [P [-> [Ef _]]]. rewrite Ef.
      assert (Hr : recorded w config (mkGoroutine (index g) (v g) GDone)
                   = recorded w config g)
        by (unfold recorded, settled; cbn [pc v]; rewrite P; reflexivity).
      apply (sound_worker _ (failedDownloads st) k g); auto;
        try (rewrite Hr; congruence).
      apply Hext; [rewrite Hr; auto | apply (snd_failed _ _ _ _ _ HS)].
    + destruct H as [P [-> [Ef _]]]. rewrite Ef.
      assert (Hr : recorded w config (mkGoroutine (index g) (v g) GExit)
                   = recorded w config g)
        by (unfold recorded, settled; cbn [pc v]; rewrite P; reflexivity).
      apply (sound_worker _ (failedDownloads st) k g); auto;
        try (rewrite Hr; congruence).
      apply Hext; [rewrite Hr; auto | apply (snd_failed _ _ _ _ _ HS)].
Qed.

Lemma reachable_sound st :
  reachable w config videos st ->
  Sound w config videos (gors st) (failedDownloads st).
Proof.
  induction 1 as [|st st' Hr IH [a Ha]]; [apply sound_init|].
  exact (sound_step a st st' (reachable_inv w config videos st Hr) Ha IH).
Qed.

End Steps.

Section Runs.

Variable w : World.
Variable config : DownloadConfig.
Variable videos : list PlaylistEntry.

Lemma failedAt_seq (vs : list PlaylistEntry) : forall a,
  length (filter (fun k => failedAt w config vs (k - a)) (seq a (length vs)))
  = length (filter (failsItem w config) vs).
Proof.
  induction vs as [|e vs IH]; intros a; [reflexivity|].
  cbn [length seq filter]. rewrite Nat.sub_diag. unfold failedAt at 1. cbn [nth_error].
  assert (E : filter (fun k => failedAt w config (e :: vs) (k - a)) (seq (S a) (length vs))
            = filter (fun k => failedAt w config vs (k - S a)) (seq (S a) (length vs))).
  { apply filter_ext_in. intros k Hk. apply in_seq in Hk.
    replace (k - a)%nat with (S (k - S a)) by lia. reflexivity. }
  destruct (failsItem w config e); cbn [length]; rewrite E, IH; reflexivity.
Qed.

Lemma distinct_failed_bound (ks : list nat) :
  NoDup ks -> Forall (fun k => failedAt w config videos k = true) ks ->
  (length ks <= length (failedItems w config videos))%nat.
Proof.
  intros Hnd Hall. unfold failedItems. rewrite length_map.
  rewrite <- (failedAt_seq videos 0).
  apply NoDup_incl_length; [exact Hnd|].
  intros k Hk. rewrite Forall_forall in Hall. specialize (Hall k Hk).
  apply filter_In. rewrite Nat.sub_0_r. split; [|exact Hall].
  apply in_seq. unfold failedAt in Hall.
  destruct (nth_error videos k) eqn:E; [|discriminate].
  assert (k < length videos)%nat by (apply nth_error_Some; congruence). lia.
Qed.

Lemma count_le_length q (gs : list goroutine) : count q gs <= Z.of_nat (length gs).
Proof.
  induction gs as [|g gs IH]; simpl length; cbn [count]; [lia|].
  destruct (q g); lia.
Qed.

Lemma returned_namesFailed st :
  reachable w config videos st -> mpc st = MReturned ->
  namesFailed w config videos (failedDownloads st) /\
  (failedDownloads st = [] -> failedItems w config videos = []).
Proof.
  intros Hr M. pose proof (reachable_inv w config videos st Hr) as HI.
  destruct (reachable_sound w config videos st Hr) as [[ks [Hnd [Hall Ht]]] _ _ Hne].
  destruct (all_exited config videos st HI M) as [Hl Hx].
  split.
  - exists ks. split; [exact Hnd|]. split; [|exact Ht].
    eapply Forall_impl; [|exact Hall]. intros k Hk. unfold storedAt in Hk.
    destruct (nth_error (gors st) k) as [g|] eqn:G; [|discriminate].
    destruct (inv_args _ _ _ HI k g G) as [_ Hv]. unfold failedAt. rewrite Hv.
    unfold recorded in Hk. apply andb_true_iff in Hk. apply Hk.
  - intros Hf. unfold failedItems.
    rewrite <- (map_v_videos videos (gors st) Hl
                  (fun k g G => proj2 (inv_args _ _ _ HI k g G))).
    assert (K : forall gs : list goroutine,
              (forall k g, nth_error gs k = Some g -> failsItem w config (v g) = false) ->
              filter (failsItem w config) (map v gs) = []).
    { induction gs as [|g gs IH]; intros H; [reflexivity|]. simpl.
      rewrite (H 0%nat g eq_refl). apply IH. intros k h Hk. apply (H (S k) h Hk). }
    rewrite K; [reflexivity|]. intros k g G.
    destruct (failsItem w config (v g)) eqn:F; [|reflexivity].
    exfalso. apply (Hne k g G); [|exact Hf].
    unfold recorded, settled. rewrite (Hx k g G), F. reflexivity.
Qed.

(** Every step but a panic brings the run closer to its end. *)
Lemma step_fuel_any a st st' :
  Inv config videos st -> stepf w config videos a st = Some st' ->
  (panicked st' = false /\ fuelOf videos st' < fuelOf videos st) \/
  (panicked st' = true /\ fuelOf videos st' = fuelOf videos st).
Proof.
  intros HI Hs. pose proof (inv_pos _ _ _ HI) as Hpos.
  pose proof Hs as Hs0.
  unfold stepf in Hs. destruct (panicked st) eqn:Pk; [discriminate|].
  unfold fuelOf. destruct a as [|k|k].
  - left. unfold stepCaller in Hs. unfold position in Hpos.
    destruct (mpc st) as [i|i|i| | |] eqn:M.
    + destruct (Nat.ltb_spec i (length videos)); inversion Hs; subst;
        cbn [mpc gors withMain withWg callerFuel panicked]; split; auto; lia.
    + destruct (semaphore st <? Parallel config); inversion Hs; subst;
        cbn [mpc gors withMain withSem callerFuel panicked]; split; auto; lia.
    + destruct (nth_error videos i); inversion Hs; subst.
      cbn [mpc gors callerFuel panicked]. rewrite sumFuel_app.
      cbn [sumFuel workerFuel pc]. split; auto; lia.
    + destruct (wg st =? 0); inversion Hs; subst;
        cbn [mpc gors withMain callerFuel panicked]; split; auto; lia.
    + inversion Hs; subst; cbn [mpc gors callerFuel panicked]; split; auto; lia.
    + discriminate.
  - unfold stepWorker in Hs. destruct (nth_error (gors st) k) as [g|] eqn:G; [|discriminate].
    destruct (pc g) eqn:P; try discriminate;
      try (destruct (DownloadVideo w config (ID (v g))) as [[e|]|msg]);
      try (destruct (0 <? semaphore st); [|discriminate]);
      inversion Hs; subst;
      cbn [mpc gors withWorker withSem withWg print panicked];
      try (right; split; reflexivity);
      left; (split; [exact Pk|]);
      rewrite (sumFuel_setPc k _ _ g G); unfold workerFuel; cbn [pc]; rewrite P; lia.
  - exfalso.
    destruct (step_shape w config videos (Meet k) st st' HI Hs0)
      as [[Eg _]|[[video [_ [Eg _]]]|[j [g [p' [G [Eg Hm]]]]]]];
    unfold stepMeet in Hs; destruct (mpc st) eqn:M; try discriminate;
    destruct (nth_error (gors st) k) as [h|] eqn:H; try discriminate;
    destruct (pc h) eqn:P; try discriminate;
    destruct (Z.eqb_spec (Parallel config) 0) as [C|C]; try discriminate;
    destruct HI as [Hsem Hcap Hwg _ Hwaited Hargs Hlog];
    rewrite M in Hsem; simpl in Hsem;
    pose proof (count_nonneg holdsSlot (gors st));
    assert (Hz : count holdsSlot (gors st) = 0) by lia;
    pose proof (count_zero _ _ _ _ Hz H) as Hh; unfold holdsSlot in Hh;
    rewrite P in Hh; discriminate.
Qed.

Lemma exec_bound schedule : forall st st',
  Inv config videos st -> exec w config videos schedule st = Some st' ->
  Z.of_nat (length schedule) + fuelOf videos st'
    <= fuelOf videos st + bit (panicked st').
Proof.
  induction schedule as [|a schedule IH]; intros st st' HI He; simpl in He.
  - injection He as <-. cbn [length]. unfold bit. destruct (panicked st); lia.
  - destruct (stepf w config videos a st) as [st1|] eqn:E; [|discriminate].
    pose proof (inv_step w config videos a st st1 HI E) as HI1.
    destruct (step_fuel_any a st st1 HI E) as [[Pk Hlt]|[Pk Heq]].
    + specialize (IH st1 st' HI1 He). cbn [length]. lia.
    + destruct schedule as [|b schedule]; simpl in He.
      * injection He as <-. rewrite Pk. cbn [length bit]. lia.
      * unfold stepf in He. rewrite Pk in He. discriminate.
Qed.

(** The states of a run on the empty playlist. *)
Lemma empty_playlist_states st :
  videos = [] -> reachable w config videos st ->
  gors st = [] /\ failedDownloads st = [] /\ output st = [] /\
  semaphore st = 0 /\ wg st = 0 /\ panicked st = false /\
  (mpc st = MLoop 0 \/ mpc st = MWait \/ mpc st = MSummary \/
   (mpc st = MReturned /\ summary st = Some (mkSummary 0 0 0 []))).
Proof.
  intros Hv Hr. induction Hr as [|st st' Hr [Hg [Hf [Ho [Hs [Hw [Hp Hm]]]]]] [a Ha]].
  - simpl. repeat split; auto.
  - unfold stepf in Ha. rewrite Hp in Ha. destruct a as [|k|k].
    + unfold stepCaller in Ha. destruct Hm as [Hm|[Hm|[Hm|[Hm _]]]]; rewrite Hm in Ha.
      * rewrite Hv in Ha. simpl in Ha. inversion Ha; subst; simpl. repeat split; auto.
      * rewrite Hw in Ha. simpl in Ha. inversion Ha; subst; simpl. repeat split; auto.
      * rewrite Hv, Hf in Ha. simpl in Ha. inversion Ha; subst; simpl.
        repeat split; auto 6.
      * discriminate.
    + unfold stepWorker in Ha. rewrite Hg in Ha. destruct k; discriminate.
    + unfold stepMeet in Ha. rewrite Hg in Ha.
      destruct (mpc st); destruct k; discriminate.
Qed.

End Runs.

(** X11. When [DownloadPlaylist] returns, the lines the workers wrote are,
    in some order, exactly those of the items: for each item its Downloading
    line with its number, and its result line, Failed with the error of
    [DownloadVideo] or Completed. So there are as many Downloading lines as
    items and as many Failed lines as failed items, whatever the size of the
    gate (not negative, so that it could be created) and the interleaving. *)
Theorem returned_log_exact (w : World) (config : DownloadConfig)
    (videos : list PlaylistEntry) (st : state) :
  0 <= Parallel config ->
  reachable w config videos st -> mpc st = MReturned ->
  Permutation (output st) (fullLog w config (Z.of_nat (length videos)) 0 videos) /\
  length (filter isDownloadingLine (output st)) = length videos /\
  length (filter isFailedLine (output st)) = length (failedItems w config videos) /\
  (validType config = true ->
   (length (filter isCompletedLine (output st))
    + length (failedItems w config videos) = length videos)%nat).
Proof.
  intros _ Hr M. pose proof (reachable_inv w config videos st Hr) as HI.
  assert (HP : Permutation (output st)
                 (fullLog w config (Z.of_nat (length videos)) 0 videos)).
  { rewrite <- (returned_lines w config videos st HI M).
    apply reachable_log. exact Hr. }
  destruct (fullLog_counts w config (Z.of_nat (length videos)) videos 0%nat)
    as [H1 [H2 H3]].
  unfold failedItems. rewrite length_map.
  split; [exact HP|].
  rewrite !(Permutation_filter_length _ _ _ HP). auto.
Qed.

(** X11, on three items of which the second fails, with three slots. *)
Lemma returned_log_exact_witness :
  let w := worldOf threeItems (fun id => streq id (str "b")) in
  let st := run w (configOf 3) threeItems mixedSchedule in
  length (filter isDownloadingLine (output st)) = length threeItems /\
  length (filter isFailedLine (output st))
    = length (failedItems w (configOf 3) threeItems).
Proof.
  cbv zeta.
  assert (H : mpc (run (worldOf threeItems (fun id => streq id (str "b")))
                       (configOf 3) threeItems mixedSchedule) = MReturned)
    by (vm_compute; reflexivity).
  assert (H0 : 0 <= Parallel (configOf 3)) by (simpl; lia).
  destruct (returned_log_exact (worldOf threeItems (fun id => streq id (str "b")))
              (configOf 3) threeItems _ H0 (run_reachable _ _ _ mixedSchedule) H)
    as [_ [H1 [H2 _]]].
  split; [exact H1 | exact H2].
Defined.

(** X12. With a single slot the output is at every moment the lines of the
    workers started so far, worker after worker in playlist order; at the
    return it is the lines of all the items in playlist order, each
    Downloading line followed by the result line of its item. *)
Theorem serial_log_in_order (w : World) (config : DownloadConfig)
    (videos : list PlaylistEntry) (st : state) :
  Parallel config = 1 -> reachable w config videos st ->
  output st = flat_map (linesOf w config (Z.of_nat (length videos))) (gors st) /\
  (mpc st = MReturned ->
   output st = fullLog w config (Z.of_nat (length videos)) 0 videos).
Proof.
  intros HP Hr.
  pose proof (reachable_serial_log w config videos st HP Hr) as Ho.
  split; [exact Ho|]. intros M. rewrite Ho.
  apply returned_lines; [apply (reachable_inv w config videos st Hr) | exact M].
Qed.

(** X12, on two items of which the first fails. *)
Lemma serial_log_in_order_witness :
  let w := worldOf twoItems (fun id => streq id (str "a")) in
  let st := run w (configOf 1) twoItems
              (times 3 Caller ++ times 6 (Worker 0%nat) ++ times 3 Caller
               ++ times 4 (Worker 1%nat) ++ times 3 Caller) in
  mpc st = MReturned /\
  output st = fullLog w (configOf 1) 2 0 twoItems.
Proof.
  cbv zeta.
  assert (H : mpc (run (worldOf twoItems (fun id => streq id (str "a")))
                       (configOf 1) twoItems
                       (times 3 Caller ++ times 6 (Worker 0%nat) ++ times 3 Caller
                        ++ times 4 (Worker 1%nat) ++ times 3 Caller)) = MReturned)
    by (vm_compute; reflexivity).
  split; [exact H|].
  refine (proj2 (serial_log_in_order
                   (worldOf twoItems (fun id => streq id (str "a")))
                   (configOf 1) twoItems _ _ (run_reachable _ _ _ _)) H).
  reflexivity.
Defined.

(** X14. In every state of a run, with a gate of a size that is not
    negative, the gate holds between 0 and [max 0 Parallel] tokens and the wait-group counter lies between 0 and
    the number of items; the deferred receive of a worker never blocks; and
    when [DownloadPlaylist] returns the gate is empty, the counter is 0 and
    every item has a worker that has exited. *)
Theorem gate_and_counter_released (w : World) (config : DownloadConfig)
    (videos : list PlaylistEntry) (st : state) :
  0 <= Parallel config ->
  reachable w config videos st ->
  0 <= semaphore st <= Z.max 0 (Parallel config) /\
  0 <= wg st <= Z.of_nat (length videos) /\
  (forall k g, nth_error (gors st) k = Some g -> pc g = GRelease ->
     panicked st = false ->
     exists st', stepf w config videos (Worker k) st = Some st' /\
                 semaphore st' = semaphore st - 1) /\
  (mpc st = MReturned ->
   semaphore st = 0 /\ wg st = 0 /\ length (gors st) = length videos /\
   forall k g, nth_error (gors st) k = Some g -> pc g = GExit).
Proof.
  intros _ Hr. pose proof (reachable_inv w config videos st Hr) as HI.
  pose proof HI as [Hsem Hcap Hwg Hpos Hwaited Hargs Hlog].
  pose proof (count_nonneg holdsSlot (gors st)) as Hn1.
  pose proof (count_nonneg isLive (gors st)) as Hn2.
  pose proof (count_le_length isLive (gors st)) as Hl.
  assert (Hps : 0 <= pendingSlot (mpc st)) by (destruct (mpc st); simpl; lia).
  split; [lia|]. split.
  { unfold position, pendingAdd in *. destruct (mpc st); lia. }
  split.
  - intros k g G P Pk. unfold stepf, stepWorker. rewrite Pk, G, P.
    assert (1 <= count holdsSlot (gors st)).
    { apply (count_pos _ _ k g G). unfold holdsSlot. rewrite P. reflexivity. }
    destruct (Z.ltb_spec 0 (semaphore st)); [|lia].
    eexists. split; [reflexivity|]. reflexivity.
  - intros M. destruct (all_exited config videos st HI M) as [Hlen Hx].
    rewrite M in *. simpl in *.
    assert (Hz : count isLive (gors st) = 0) by lia.
    pose proof (count_le holdsSlot isLive (gors st)) as Hle.
    assert (forall g, holdsSlot g = true -> isLive g = true)
      by (intros g; unfold holdsSlot, isLive; destruct (pc g); auto).
    specialize (Hle H). repeat split; auto; lia.
Qed.

(** X14, with two slots and ten items, two workers downloading. *)
Lemma gate_and_counter_released_witness :
  let w := worldOf tenItems (fun _ => false) in
  let st := run w (configOf 2) tenItems twoBusySchedule in
  0 <= semaphore st <= Z.max 0 2 /\ 0 <= wg st <= Z.of_nat (length tenItems).
Proof.
  cbv zeta.
  assert (H0 : 0 <= Parallel (configOf 2)) by (simpl; lia).
  destruct (gate_and_counter_released (worldOf tenItems (fun _ => false)) (configOf 2)
              tenItems _ H0 (run_reachable _ _ _ twoBusySchedule))
    as [H1 [H2 _]].
  split; [exact H1 | exact H2].
Defined.

Lemma failedAt_In w config videos k :
  failedAt w config videos k = true ->
  In (titleAt videos k) (failedItems w config videos).
Proof.
  unfold failedAt, titleAt, failedItems.
  destruct (nth_error videos k) as [e|] eqn:E; [|discriminate].
  intros F. apply in_map. apply filter_In. split; [|exact F].
  eapply nth_error_In; eauto.
Qed.

(** X13. When at most one item fails, the summary of a returned run is
    exact for every size of the gate (not negative): the failed titles are
    those of the failed items and the counts agree with them. *)
Theorem single_failure_exact (w : World) (config : DownloadConfig)
    (videos : list PlaylistEntry) (st : state) :
  0 <= Parallel config ->
  reachable w config videos st -> mpc st = MReturned ->
  (length (failedItems w config videos) <= 1)%nat ->
  exists s, summary st = Some s /\
    failedTitles s = failedItems w config videos /\
    exactSummary w config videos s.
Proof.
  intros _ Hr M Hone.
  destruct (returned_namesFailed w config videos st Hr M) as [[ks [Hnd [Hall Ht]]] Hz].
  pose proof (distinct_failed_bound w config videos ks Hnd Hall) as Hb.
  assert (Hf : failedDownloads st = failedItems w config videos).
  { destruct (failedItems w config videos) as [|t [|t' l]] eqn:E.
    - rewrite Ht. destruct ks; [reflexivity | simpl in Hb; lia].
    - destruct ks as [|k [|k' ks']].
      + simpl in Ht. specialize (Hz Ht). discriminate Hz.
      + rewrite Ht. simpl. f_equal.
        inversion Hall as [|? ? Hk _]; subst.
        pose proof (failedAt_In w config videos k Hk) as Hin.
        rewrite E in Hin. destruct Hin as [<-|[]]. reflexivity.
      + simpl in Hb. lia.
    - simpl in Hone. lia. }
  eexists. split; [apply (returned_summary w config videos st Hr M)|].
  rewrite Hf. simpl. split; [reflexivity|].
  unfold exactSummary. simpl. repeat split; reflexivity.
Qed.

(** X13, on three items of which the second fails, with three slots. *)
Lemma single_failure_exact_witness :
  let w := worldOf threeItems (fun id => streq id (str "b")) in
  let st := run w (configOf 3) threeItems mixedSchedule in
  exists s, summary st = Some s /\
    failedTitles s = failedItems w (configOf 3) threeItems.
Proof.
  cbv zeta.
  assert (H : mpc (run (worldOf threeItems (fun id => streq id (str "b")))
                       (configOf 3) threeItems mixedSchedule) = MReturned)
    by (vm_compute; reflexivity).
  assert (H1 : (length (failedItems (worldOf threeItems (fun id => streq id (str "b")))
                          (configOf 3) threeItems) <= 1)%nat)
    by (vm_compute; lia).
  assert (H0 : 0 <= Parallel (configOf 3)) by (simpl; lia).
  destruct (single_failure_exact _ _ _ _ H0 (run_reachable _ _ _ mixedSchedule) H H1)
    as [s [Hs [Hf _]]].
  exists s. split; [exact Hs | exact Hf].
Defined.

(** X15. With a single slot and a validated download type every run is
    finite, at most [9 n + 3] steps for [n] items, no goroutine panics, and a
    run that cannot go on has returned from [DownloadPlaylist] with an exact
    summary: there is no deadlock. *)
Theorem serial_runs_return (w : World) (config : DownloadConfig)
    (videos : list PlaylistEntry) (schedule : list action) (st : state) :
  Parallel config = 1 -> validType config = true ->
  exec w config videos schedule initState = Some st ->
  Z.of_nat (length schedule) <= 9 * Z.of_nat (length videos) + 3 /\
  panicked st = false /\
  (stuck w config videos st ->
   mpc st = MReturned /\
   exists s, summary st = Some s /\ exactSummary w config videos s).
Proof.
  intros HP Hv He.
  pose proof (exec_bound w config videos schedule initState st
                (inv_init config videos) He) as Hb.
  assert (Hr : reachable w config videos st).
  { apply (exec_reachable w config videos schedule initState st); [constructor | exact He]. }
  pose proof (reachable_inv w config videos st Hr) as HI.
  pose proof (reachable_no_panic w config videos Hv st Hr) as Pk.
  pose proof (fuelOf_nonneg config videos st HI) as Hf.
  unfold fuelOf at 2 in Hb. cbn [mpc gors initState callerFuel sumFuel] in Hb.
  replace (Z.of_nat 0) with 0 in Hb by reflexivity.
  rewrite Pk in Hb. cbn [bit] in Hb.
  split; [lia|]. split; [exact Pk|]. intros Hstuck.
  assert (M : mpc st = MReturned).
  { destruct (mpc st) eqn:M; try reflexivity; exfalso;
      (destruct (can_step w config videos Hv ltac:(lia) st HI Pk
                   ltac:(rewrite M; discriminate)) as [a [st' Ha]];
       rewrite (Hstuck a) in Ha; discriminate Ha). }
  split; [exact M|].
  destruct (serial_exact w config videos st HP Hr M) as [s [Hs [_ Hx]]]. eauto.
Qed.

(** X15, on the run of two items with one slot. *)
Lemma serial_runs_return_witness :
  Z.of_nat (length (times 3 Caller ++ times 6 (Worker 0%nat) ++ times 3 Caller
                    ++ times 4 (Worker 1%nat) ++ times 3 Caller))
  <= 9 * Z.of_nat (length twoItems) + 3.
Proof.
  assert (H : exec (worldOf twoItems (fun id => streq id (str "a"))) (configOf 1)
                twoItems
                (times 3 Caller ++ times 6 (Worker 0%nat) ++ times 3 Caller
                 ++ times 4 (Worker 1%nat) ++ times 3 Caller) initState
              = Some (run (worldOf twoItems (fun id => streq id (str "a")))
                          (configOf 1) twoItems
                          (times 3 Caller ++ times 6 (Worker 0%nat) ++ times 3 Caller
                           ++ times 4 (Worker 1%nat) ++ times 3 Caller)))
    by (vm_compute; reflexivity).
  exact (proj1 (serial_runs_return
                  (worldOf twoItems (fun id => streq id (str "a"))) (configOf 1)
                  twoItems _ _ eq_refl eq_refl H)).
Defined.

(** X16. On an empty playlist no worker is started and nothing is printed;
    the caller can always move until [DownloadPlaylist] returns, whatever the
    size of the gate, 0 included (the gate is never used), and the summary
    counts are all 0. *)
Theorem empty_playlist_returns (w : World) (config : DownloadConfig) (st : state) :
  0 <= Parallel config ->
  reachable w config [] st ->
  gors st = [] /\ output st = [] /\ panicked st = false /\
  (mpc st = MReturned -> summary st = Some (mkSummary 0 0 0 [])) /\
  (mpc st <> MReturned -> exists st', stepf w config [] Caller st = Some st').
Proof.
  intros _ Hr.
  destruct (empty_playlist_states w config [] st eq_refl Hr)
    as [Hg [Hf [Ho [Hs [Hw [Hp Hm]]]]]].
  repeat split; auto.
  - intros M. destruct Hm as [Hm|[Hm|[Hm|[_ Hm]]]]; congruence.
  - intros M. unfold stepf, stepCaller. rewrite Hp.
    destruct Hm as [Hm|[Hm|[Hm|[Hm _]]]]; [| | |contradiction]; rewrite Hm.
    + simpl. eauto.
    + rewrite Hw. simpl. eauto.
    + eauto.
Qed.

(** X16, with a gate of size 0. *)
Lemma empty_playlist_returns_witness :
  let st := run (worldOf [] (fun _ => false)) (configOf 0) [] [Caller; Caller; Caller] in
  mpc st = MReturned /\ summary st = Some (mkSummary 0 0 0 []).
Proof.
  cbv zeta. split; [reflexivity|].
  assert (H0 : 0 <= Parallel (configOf 0)) by (simpl; lia).
  exact (proj1 (proj2 (proj2 (proj2
           (empty_playlist_returns (worldOf [] (fun _ => false)) (configOf 0) _ H0
              (run_reachable _ _ _ [Caller; Caller; Caller]))))) eq_refl).
Defined.

End RunProperties.
